(** * DevInsight: the file scanner and the TODO scanner

    A shallow embedding of [utils/fileScanner.js] ([scanDirectory]) and
    [utils/todoScanner.js] ([scanForTodos], [getFilesWithMostTodos]),
    with the properties their specification states about them.

    Conventions.
    - A JavaScript string is the list of its UTF-16 code units ([N]).
    - The file system is the tree the scan observes: every node carries
      the outcome of the system call the scanner issues on it.
    - Asynchronous calls are sequential ([await] at every call), so the
      embedding is a pure function that returns the log of the system
      calls next to the result or the exception.
    - What the host runtime provides and the repository does not define
      ([path.join], [String.prototype.toLowerCase]) is a section variable. *)

From Stdlib Require Import String Ascii.
From Stdlib Require Import List Arith NArith ZArith Bool Lia.
From Stdlib Require Import Permutation Sorted.
Import ListNotations.

Set Implicit Arguments.

(** ** JavaScript strings *)

Module JS.

Definition jsstring := list N.

(** A string literal of the source: its characters are all ASCII. *)
Definition lit (s : string) : jsstring :=
  map N_of_ascii (list_ascii_of_string s).

Fixpoint eqb (a b : jsstring) : bool :=
  match a, b with
  | [], [] => true
  | x :: a', y :: b' => N.eqb x y && eqb a' b'
  | _, _ => false
  end.

(** [Array.prototype.includes] on an array of strings. *)
Definition includes (l : list jsstring) (x : jsstring) : bool :=
  existsb (eqb x) l.

(** An exception of the runtime; [code] is its [code] property
    ([None] when the thrown value has none). *)
Record error := { code : option string }.

Definition errno (c : string) : error := {| code := Some c |}.

(** [error.code !== c] *)
Definition code_differs (e : error) (c : string) : bool :=
  match code e with
  | Some c' => negb (String.eqb c' c)
  | None => true
  end.

(** Code units of the characters the scanners look for. *)
Definition DOT : N := 46.
Definition SLASH : N := 47.

(** WhiteSpace and LineTerminator of ECMAScript: what [\s] matches and
    what [String.prototype.trim] strips. *)
Definition is_line_terminator (c : N) : bool :=
  ((c =? 10) || (c =? 13) || (c =? 8232) || (c =? 8233))%N.

Definition is_space (c : N) : bool :=
  (((9 <=? c) && (c <=? 13)) || (c =? 32) || (c =? 160) || (c =? 5760)
   || ((8192 <=? c) && (c <=? 8202)) || (c =? 8232) || (c =? 8233)
   || (c =? 8239) || (c =? 8287) || (c =? 12288) || (c =? 65279))%N.

Fixpoint trimStart (s : jsstring) : jsstring :=
  match s with
  | c :: s' => if is_space c then trimStart s' else s
  | [] => []
  end.

Definition trimEnd (s : jsstring) : jsstring := rev (trimStart (rev s)).

Definition trim (s : jsstring) : jsstring := trimEnd (trimStart s).

(** [String.prototype.toLowerCase] on a string of ASCII code units. *)
Definition toLowerCase_ascii (s : jsstring) : jsstring :=
  map (fun c => if ((65 <=? c) && (c <=? 90))%N then (c + 32)%N else c) s.

End JS.

Import JS.


(** ** [path.extname] (POSIX flavour), as Node implements it: one pass
    from the end of the string. *)

Module Path.

Record ext_state := {
  startDot : option nat;
  startPart : nat;
  endIx : option nat;
  matchedSlash : bool;
  preDotState : Z;
  stopped : bool
}.

Definition ext_init : ext_state :=
  {| startDot := None; startPart := 0; endIx := None;
     matchedSlash := true; preDotState := 0; stopped := false |}.

(** One iteration of the loop, at index [i] holding code unit [c]. *)
Definition ext_step (i : nat) (c : N) (st : ext_state) : ext_state :=
  if stopped st then st
  else if (c =? SLASH)%N then
    if negb (matchedSlash st)
    then {| startDot := startDot st; startPart := i + 1; endIx := endIx st;
            matchedSlash := matchedSlash st; preDotState := preDotState st;
            stopped := true |}
    else st
  else
    let st1 :=
      match endIx st with
      | None => {| startDot := startDot st; startPart := startPart st;
                   endIx := Some (i + 1); matchedSlash := false;
                   preDotState := preDotState st; stopped := false |}
      | Some _ => st
      end in
    if (c =? DOT)%N then
      match startDot st1 with
      | None => {| startDot := Some i; startPart := startPart st1;
                   endIx := endIx st1; matchedSlash := matchedSlash st1;
                   preDotState := preDotState st1; stopped := false |}
      | Some _ =>
          if negb (preDotState st1 =? 1)%Z
          then {| startDot := startDot st1; startPart := startPart st1;
                  endIx := endIx st1; matchedSlash := matchedSlash st1;
                  preDotState := 1; stopped := false |}
          else st1
      end
    else
      match startDot st1 with
      | Some _ => {| startDot := startDot st1; startPart := startPart st1;
                     endIx := endIx st1; matchedSlash := matchedSlash st1;
                     preDotState := (-1); stopped := false |}
      | None => st1
      end.

(** The loop [for (i = path.length - 1; i >= 0; --i)]: the first [i]
    code units of [p] are visited from the last one down. *)
Fixpoint ext_loop (p : jsstring) (i : nat) (st : ext_state) : ext_state :=
  match i with
  | O => st
  | S j => ext_loop p j (ext_step j (nth j p 0%N) st)
  end.

Definition slice (p : jsstring) (from to : nat) : jsstring :=
  firstn (to - from) (skipn from p).

Definition extname (p : jsstring) : jsstring :=
  let st := ext_loop p (length p) ext_init in
  match startDot st, endIx st with
  | Some sd, Some e =>
      if (preDotState st =? 0)%Z
         || ((preDotState st =? 1)%Z && Nat.eqb sd (e - 1)
             && Nat.eqb sd (startPart st + 1))
      then []
      else slice p sd e
  | _, _ => []
  end.

(** What the loop has established once the indices from [i] on are
    visited, for a name without a separator: [startDot] is the last dot
    at or after [i], and [preDotState] tells what precedes it. *)
Definition ext_inv (p : jsstring) (i : nat) (st : ext_state) : Prop :=
  stopped st = false
  /\ startPart st = 0
  /\ endIx st = (if Nat.ltb i (length p) then Some (length p) else None)
  /\ ((startDot st = None /\ ~ In DOT (skipn i p) /\ preDotState st = 0%Z)
      \/ exists d,
           startDot st = Some d /\ i <= d < length p
           /\ nth d p 0%N = DOT /\ ~ In DOT (skipn (S d) p)
           /\ ((d = i /\ preDotState st = 0%Z)
               \/ (i < d
                   /\ preDotState st
                      = if (nth i p 0 =? DOT)%N then 1%Z else (-1)%Z))).

End Path.

(** ** System calls: a log, an exception, a mutable accumulator *)

Module IO.

Inductive event :=
| Readdir (p : jsstring)
| Stat (p : jsstring)
| ReadFile (p : jsstring).

(** A computation over a mutable object of type [St] (the [results] of
    the scanners): it logs the calls it makes, leaves the object in some
    state, and either returns a value or throws.  A mutation made before
    an exception stays made. *)
Definition io (St A : Type) : Type :=
  St -> (list event * St * (error + A))%type.

Definition ret {St A} (a : A) : io St A := fun s => ([], s, inr a).
Definition throw {St A} (e : error) : io St A := fun s => ([], s, inl e).
Definition emit {St} (ev : event) : io St unit := fun s => ([ev], s, inr tt).
Definition modify {St} (f : St -> St) : io St unit := fun s => ([], f s, inr tt).

Definition bind {St A B} (m : io St A) (f : A -> io St B) : io St B :=
  fun s =>
    match m s with
    | (t, s', inl e) => (t, s', inl e)
    | (t, s', inr a) =>
        match f a s' with (t', s'', r) => (t ++ t', s'', r) end
    end.

(** [try { m } catch (error) { h error }] *)
Definition try_catch {St A} (m : io St A) (h : error -> io St A) : io St A :=
  fun s =>
    match m s with
    | (t, s', inl e) =>
        match h e s' with (t', s'', r) => (t ++ t', s'', r) end
    | (t, s', inr a) => (t, s', inr a)
    end.

(** An [async] function with a local accumulator: the caller sees the
    log and the returned value or the exception. *)
Definition call {St A T} (init : St) (m : io St A) : io T A :=
  fun s => match m init with (t, _, r) => (t, s, r) end.

(** The paths [fs.readdir] was called on, in the order of the calls. *)
Definition readdir_calls (t : list event) : list jsstring :=
  flat_map (fun ev => match ev with Readdir p => [p] | _ => [] end) t.

Definition result_of {St A} (m : io St A) (s : St) : error + A := snd (m s).
Definition log_of {St A} (m : io St A) (s : St) : list event := fst (fst (m s)).

End IO.

Import IO.

Notation "x <- m ;; k" := (bind m (fun x => k))
  (at level 61, m at next level, right associativity).
Notation "m ;;; k" := (bind m (fun _ => k))
  (at level 61, right associativity).

(** ** The file system a scan observes *)

#[local] Set Warnings "-register-all".

Inductive fsnode :=
| RegularFile (st : error + N)
    (** [isFile()]; [st] is what [fs.stat] answers: an exception or the size *)
| Directory (entries : list (jsstring * fsnode))
    (** [isDirectory()], and [fs.readdir] lists [entries] in this order *)
| UnreadableDir (e : error)
    (** [isDirectory()], and [fs.readdir] throws [e] *)
| Special.
    (** neither: a symbolic link, a socket, a device, ... *)

Definition isDirectory (n : fsnode) : bool :=
  match n with Directory _ | UnreadableDir _ => true | _ => false end.

Definition isFile (n : fsnode) : bool :=
  match n with RegularFile _ => true | _ => false end.

(** Induction on the tree, with the hypothesis for every entry of a
    listing. *)
Section FsnodeInd.

Variable P : fsnode -> Prop.
Hypothesis H_file : forall st, P (RegularFile st).
Hypothesis H_dir :
  forall entries,
    Forall (fun en => P (snd en)) entries -> P (Directory entries).
Hypothesis H_unreadable : forall e, P (UnreadableDir e).
Hypothesis H_special : P Special.

Fixpoint fsnode_tree_ind (n : fsnode) : P n :=
  match n with
  | RegularFile st => H_file st
  | Directory entries =>
      H_dir
        ((fix all (l : list (jsstring * fsnode))
            : Forall (fun en => P (snd en)) l :=
            match l with
            | [] => Forall_nil _
            | en :: l' => Forall_cons en (fsnode_tree_ind (snd en)) (all l')
            end) entries)
  | UnreadableDir e => H_unreadable e
  | Special => H_special
  end.

End FsnodeInd.

(** ** [utils/fileScanner.js] *)

Module FileScanner.

Record FileEntry := {
  path : jsstring;
  name : jsstring;
  size : N;
  extension : jsstring
}.

Record ScanResult := {
  files : list FileEntry;
  directories : list jsstring;
  totalSize : N
}.

(** The value of [maxDepth]: a number or [Infinity]. *)
Inductive depth := Finite (d : Z) | Infinity.

(** [currentDepth < maxDepth] *)
Definition depth_lt (c : Z) (m : depth) : bool :=
  match m with
  | Finite d => (c <? d)%Z
  | Infinity => true
  end.

(** The [options] object: a property is [None] when it is absent. *)
Record ScanOptions := {
  excludeDirs : option (list jsstring);
  maxDepth : option depth;
  currentDepth : option Z
}.

Definition no_options : ScanOptions :=
  {| excludeDirs := None; maxDepth := None; currentDepth := None |}.

Definition default_excludeDirs : list jsstring :=
  map lit ["node_modules"; ".git"; "dist"; "build"; ".next"; "coverage"]%string.

Definition get_excludeDirs (o : ScanOptions) : list jsstring :=
  match excludeDirs o with Some l => l | None => default_excludeDirs end.

Definition get_maxDepth (o : ScanOptions) : depth :=
  match maxDepth o with Some d => d | None => Infinity end.

Definition get_currentDepth (o : ScanOptions) : Z :=
  match currentDepth o with Some c => c | None => 0%Z end.

(** [{ ...options, currentDepth: c }] *)
Definition with_currentDepth (o : ScanOptions) (c : Z) : ScanOptions :=
  {| excludeDirs := excludeDirs o; maxDepth := maxDepth o;
     currentDepth := Some c |}.

Definition empty_result : ScanResult :=
  {| files := []; directories := []; totalSize := 0 |}.

Definition push_directory (r : ScanResult) (p : jsstring) : ScanResult :=
  {| files := files r; directories := directories r ++ [p];
     totalSize := totalSize r |}.

Definition push_file (r : ScanResult) (f : FileEntry) : ScanResult :=
  {| files := files r ++ [f]; directories := directories r;
     totalSize := totalSize r + size f |}.

(** The three statements that fold [subResults] into [results]. *)
Definition merge (r sub : ScanResult) : ScanResult :=
  {| files := files r ++ files sub;
     directories := directories r ++ directories sub;
     totalSize := totalSize r + totalSize sub |}.

(** [fs.readdir(dirPath, { withFileTypes: true })] answers with the
    entries of a directory, or throws. *)
Definition listing (n : fsnode) : error + list (jsstring * fsnode) :=
  match n with
  | Directory entries => inr entries
  | UnreadableDir e => inl e
  | RegularFile _ | Special => inl (errno "ENOTDIR")
  end.

Definition readdir {St} (dirPath : jsstring) (n : fsnode)
  : io St (list (jsstring * fsnode)) :=
  emit (Readdir dirPath) ;;;
  match listing n with
  | inr entries => ret entries
  | inl e => throw e
  end.

(** [fs.stat(fullPath)] on an entry that [isFile()] *)
Definition stat {St} (fullPath : jsstring) (st : error + N) : io St N :=
  emit (Stat fullPath) ;;;
  match st with
  | inr sz => ret sz
  | inl e => throw e
  end.

Section Scanner.

(** [path.join] of the host platform. *)
Variable path_join : jsstring -> jsstring -> jsstring.

(** The handler of the outer [try]: permission errors are swallowed. *)
Definition handle_listing_error (e : error) : io ScanResult unit :=
  if code_differs e "EACCES" && code_differs e "EPERM"
  then throw e
  else ret tt.

Definition mkFileEntry (fullPath ename : jsstring) (sz : N) : FileEntry :=
  {| path := fullPath; name := ename; size := sz;
     extension := Path.extname ename |}.

(** The body of the [for] loop, for one entry of the listing, on the
    [results] object; [scan_child] is the recursive call. *)
Section Loop.

Variable scan_child : fsnode -> jsstring -> ScanOptions -> io unit ScanResult.
Variable dirPath : jsstring.
Variable options : ScanOptions.

Definition scan_entry (entry : jsstring * fsnode) : io ScanResult unit :=
  let (ename, child) := entry in
  let fullPath := path_join dirPath ename in
  match child with
  | Directory _ | UnreadableDir _ =>
      if includes (get_excludeDirs options) ename then ret tt
      else
        modify (fun results => push_directory results fullPath) ;;;
        if depth_lt (get_currentDepth options) (get_maxDepth options) then
          subResults <-
            call tt (scan_child child fullPath
                       (with_currentDepth options
                          (get_currentDepth options + 1))) ;;
          modify (fun results => merge results subResults)
        else ret tt
  | RegularFile st =>
      try_catch
        (sz <- stat fullPath st ;;
         modify (fun results =>
                   push_file results (mkFileEntry fullPath ename sz)))
        (fun _ => ret tt)
  | Special => ret tt
  end.

Fixpoint scan_entries (entries : list (jsstring * fsnode))
  : io ScanResult unit :=
  match entries with
  | [] => ret tt
  | entry :: rest => scan_entry entry ;;; scan_entries rest
  end.

End Loop.

(** [scanDirectory(dirPath, options)], the node at [dirPath] being [n]:
    the [try] block runs on a fresh [results] object, which is returned
    unless the handler rethrows.  The answer of [readdir] is read off [n]
    in place, which makes the recursion structural; the lemma
    [scanDirectory_unfold] restores the call of [readdir]. *)
Fixpoint scanDirectory (n : fsnode) (dirPath : jsstring) (options : ScanOptions)
  {struct n} : io unit ScanResult :=
  call empty_result
    (try_catch
       (emit (Readdir dirPath) ;;;
        match n with
        | Directory entries =>
            scan_entries scanDirectory dirPath options entries
        | UnreadableDir e => throw e
        | RegularFile _ | Special => throw (errno "ENOTDIR")
        end)
       handle_listing_error ;;;
     fun results => ret results results).

End Scanner.

Definition is_permission_error (e : error) : bool :=
  negb (code_differs e "EACCES" && code_differs e "EPERM").

(** The options of the recursive call, and the two tests of the loop. *)
Definition child_options (o : ScanOptions) : ScanOptions :=
  with_currentDepth o (get_currentDepth o + 1).

Definition descends (o : ScanOptions) : bool :=
  depth_lt (get_currentDepth o) (get_maxDepth o).

Definition excluded (o : ScanOptions) (ename : jsstring) : bool :=
  includes (get_excludeDirs o) ename.

(** *** Vocabulary of the specification *)

(** [sum(file.size for file in files)] *)
Definition total_size (l : list FileEntry) : N :=
  fold_right (fun f acc => (size f + acc)%N) 0%N l.

(** [located n rel m]: following the names [rel] downwards from the node
    [n] leads to the node [m]. *)
Inductive located : fsnode -> list jsstring -> fsnode -> Prop :=
| located_here n : located n [] n
| located_below entries ename child rel m :
    In (ename, child) entries ->
    located child rel m ->
    located (Directory entries) (ename :: rel) m.

(** No name of [rel] is in the exclusion list [E]. *)
Definition clear_of (E : list jsstring) (rel : list jsstring) : Prop :=
  Forall (fun seg => includes E seg = false) rel.

Section Paths.

Variable path_join : jsstring -> jsstring -> jsstring.

(** The path of what lies [rel] below [p]. *)
Definition join_all (p : jsstring) (rel : list jsstring) : jsstring :=
  fold_left path_join rel p.

(** [q] is the path of a node below (or at) the root [n] of a scan of
    [p], reached through names that are not excluded. *)
Definition reached_clear (E : list jsstring) (n : fsnode) (p q : jsstring)
  : Prop :=
  exists rel m,
    located n rel m /\ q = join_all p rel /\ clear_of E rel.

(** [d] is the path of a directory strictly below the root, neither it
    nor a directory above it (below the root) having an excluded name. *)
Definition directory_clear (E : list jsstring) (n : fsnode) (p d : jsstring)
  : Prop :=
  exists rel m,
    rel <> [] /\ located n rel m /\ isDirectory m = true /\
    d = join_all p rel /\ clear_of E rel.

(** [f] is the entry of a regular file below the root, no directory
    between the root and the file having an excluded name. *)
Definition file_clear (E : list jsstring) (n : fsnode) (p : jsstring)
  (f : FileEntry) : Prop :=
  exists rel st,
    located n (rel ++ [name f]) (RegularFile st) /\
    path f = join_all p (rel ++ [name f]) /\ clear_of E rel.

(** The regular files directly in a listing that [stat] succeeds on,
    as file entries, and the directories directly in it that are not
    excluded. *)
Definition immediate_files (p : jsstring) (entries : list (jsstring * fsnode))
  : list FileEntry :=
  flat_map
    (fun en =>
       match snd en with
       | RegularFile (inr sz) =>
           [mkFileEntry (path_join p (fst en)) (fst en) sz]
       | _ => []
       end) entries.

Definition immediate_directories (E : list jsstring) (p : jsstring)
  (entries : list (jsstring * fsnode)) : list jsstring :=
  flat_map
    (fun en =>
       if isDirectory (snd en) && negb (includes E (fst en))
       then [path_join p (fst en)] else []) entries.

(** The [stat] calls of one pass over a listing. *)
Definition stat_calls (p : jsstring) (entries : list (jsstring * fsnode))
  : list event :=
  flat_map
    (fun en => match snd en with
               | RegularFile _ => [Stat (path_join p (fst en))]
               | _ => []
               end) entries.

End Paths.

End FileScanner.

(** ** Regular expressions: the fragment the patterns are written in

    A pattern is a disjunction of sequences; a quantifier applies to one
    character class; matching is ECMAScript's backtracking, leftmost
    alternative and greedy (or lazy) choice first. *)

Module RegExp.

Inductive charset :=
| Lit (c : N)   (** a pattern character, under the [i] flag *)
| Space         (** [\s] *)
| Dot.          (** [.] *)

(** [Canonicalize] under [i] without [u]: upper-casing.  The pattern
    characters of the source are ASCII, and no code unit from 128 on
    canonicalizes into ASCII, so upper-casing [a]-[z] decides every
    comparison with a pattern character. *)
Definition canonicalize (ch : N) : N :=
  if ((97 <=? ch) && (ch <=? 122))%N then (ch - 32)%N else ch.

Definition accepts (cs : charset) (ch : N) : bool :=
  match cs with
  | Lit c => (canonicalize ch =? canonicalize c)%N
  | Space => is_space ch
  | Dot => negb (is_line_terminator ch)
  end.

Inductive term :=
| One (cs : charset)                  (** [x] *)
| Star (greedy : bool) (cs : charset) (** [x*] or [x*?] *)
| Opt (cs : charset)                  (** [x?] *)
| Plus (greedy : bool) (cs : charset) (** [x+] or [x+?] *)
| Open (i : nat)                      (** the left parenthesis of group [i] *)
| Close (i : nat).                    (** its right parenthesis *)

Definition pattern := list (list term).

(** Groups under way (with the input left when they opened) and groups
    captured. *)
Record captures := {
  pending : list (nat * jsstring);
  captured : list (nat * jsstring)
}.

Definition no_captures : captures := {| pending := []; captured := [] |}.

Fixpoint lookup (i : nat) (l : list (nat * jsstring)) : option jsstring :=
  match l with
  | [] => None
  | (j, v) :: l' => if Nat.eqb i j then Some v else lookup i l'
  end.

Definition open_group (i : nat) (s : jsstring) (c : captures) : captures :=
  {| pending := (i, s) :: pending c; captured := captured c |}.

Definition close_group (i : nat) (s : jsstring) (c : captures) : captures :=
  match lookup i (pending c) with
  | Some s0 =>
      {| pending := pending c;
         captured := (i, firstn (length s0 - length s) s0) :: captured c |}
  | None => c
  end.

(** [match_seq ts s c]: match the sequence [ts] at the head of [s];
    the answer is the input left after the match, and the captures. *)
Fixpoint match_seq (ts : list term) (s : jsstring) (c : captures)
  {struct ts} : option (jsstring * captures) :=
  match ts with
  | [] => Some (s, c)
  | One cs :: ts' =>
      match s with
      | ch :: s' => if accepts cs ch then match_seq ts' s' c else None
      | [] => None
      end
  | Opt cs :: ts' =>
      match s with
      | ch :: s' =>
          if accepts cs ch then
            match match_seq ts' s' c with
            | Some r => Some r
            | None => match_seq ts' s c
            end
          else match_seq ts' s c
      | [] => match_seq ts' s c
      end
  | Star true cs :: ts' =>
      (fix star (s : jsstring) : option (jsstring * captures) :=
         match s with
         | ch :: s' =>
             if accepts cs ch then
               match star s' with
               | Some r => Some r
               | None => match_seq ts' s c
               end
             else match_seq ts' s c
         | [] => match_seq ts' s c
         end) s
  | Star false cs :: ts' =>
      (fix more (s : jsstring) : option (jsstring * captures) :=
         match match_seq ts' s c with
         | Some r => Some r
         | None =>
             match s with
             | ch :: s' => if accepts cs ch then more s' else None
             | [] => None
             end
         end) s
  | Plus true cs :: ts' =>
      match s with
      | ch :: s0 =>
          if accepts cs ch then
            (fix star (s : jsstring) : option (jsstring * captures) :=
               match s with
               | ch :: s' =>
                   if accepts cs ch then
                     match star s' with
                     | Some r => Some r
                     | None => match_seq ts' s c
                     end
                   else match_seq ts' s c
               | [] => match_seq ts' s c
               end) s0
          else None
      | [] => None
      end
  | Plus false cs :: ts' =>
      match s with
      | ch :: s0 =>
          if accepts cs ch then
            (fix more (s : jsstring) : option (jsstring * captures) :=
               match match_seq ts' s c with
               | Some r => Some r
               | None =>
                   match s with
                   | ch :: s' => if accepts cs ch then more s' else None
                   | [] => None
                   end
               end) s0
          else None
      | [] => None
      end
  | Open i :: ts' => match_seq ts' s (open_group i s c)
  | Close i :: ts' => match_seq ts' s (close_group i s c)
  end.

(** The disjunction: the first alternative that matches. *)
Fixpoint match_pattern (p : pattern) (s : jsstring)
  : option (jsstring * captures) :=
  match p with
  | [] => None
  | ts :: p' =>
      match match_seq ts s no_captures with
      | Some r => Some r
      | None => match_pattern p' s
      end
  end.

(** A match object: [index], [match[0]] and the groups. *)
Record match_object := {
  index : nat;
  whole : jsstring;
  groups : list (nat * jsstring)
}.

(** [match[i]]: [None] is [undefined]. *)
Definition group (m : match_object) (i : nat) : option jsstring :=
  lookup i (groups m).

(** [content.matchAll(p)] for a global pattern [p].  [s] is the content
    from position [pos] on; [skip] positions lie inside the previous
    match.  The search resumes where the previous match ended, or one
    position further when that match was empty. *)
Fixpoint scan_matches (p : pattern) (s : jsstring) (pos skip : nat)
  : list match_object :=
  match skip with
  | S k =>
      match s with
      | _ :: s' => scan_matches p s' (S pos) k
      | [] => []
      end
  | O =>
      match match_pattern p s with
      | Some (rest, c) =>
          let len := length s - length rest in
          {| index := pos; whole := firstn len s; groups := captured c |}
          :: match s with
             | _ :: s' => scan_matches p s' (S pos) (len - 1)
             | [] => []
             end
      | None =>
          match s with
          | _ :: s' => scan_matches p s' (S pos) 0
          | [] => []
          end
      end
  end.

Definition matchAll (p : pattern) (content : jsstring) : list match_object :=
  scan_matches p content 0 0.

Definition chars (s : string) : list term :=
  map (fun ch => One (Lit ch)) (lit s).

(** *** Vocabulary of the specification *)

(** [derives ts w]: the string [w] has the shape of the sequence [ts]. *)
Inductive derives : list term -> jsstring -> Prop :=
| derives_nil : derives [] []
| derives_one cs ts ch w :
    accepts cs ch = true -> derives ts w -> derives (One cs :: ts) (ch :: w)
| derives_star_stop g cs ts w :
    derives ts w -> derives (Star g cs :: ts) w
| derives_star_more g cs ts ch w :
    accepts cs ch = true -> derives (Star g cs :: ts) w ->
    derives (Star g cs :: ts) (ch :: w)
| derives_opt_none cs ts w :
    derives ts w -> derives (Opt cs :: ts) w
| derives_opt_some cs ts ch w :
    accepts cs ch = true -> derives ts w -> derives (Opt cs :: ts) (ch :: w)
| derives_plus g cs ts ch w :
    accepts cs ch = true -> derives (Star g cs :: ts) w ->
    derives (Plus g cs :: ts) (ch :: w)
| derives_open i ts w : derives ts w -> derives (Open i :: ts) w
| derives_close i ts w : derives ts w -> derives (Close i :: ts) w.

(** [w] occurs in [content] at position [i] with the shape of one of
    the alternatives of [p]. *)
Definition occurs_at (p : pattern) (content : jsstring) (i : nat)
  (w : jsstring) : Prop :=
  exists ts rest,
    In ts p /\ derives ts w /\ i <= length content
    /\ skipn i content = w ++ rest.

(** The matches lie one after the other, from position [from] on. *)
Fixpoint separated (from : nat) (ms : list match_object) : Prop :=
  match ms with
  | [] => True
  | m :: ms' =>
      from <= index m /\ separated (index m + length (whole m)) ms'
  end.

(** The first of the captures that is a non-empty string, or the empty
    string. *)
Fixpoint first_nonempty (l : list (option jsstring)) : jsstring :=
  match l with
  | [] => []
  | Some (ch :: text) :: _ => ch :: text
  | _ :: l' => first_nonempty l'
  end.

End RegExp.

(** ** Objects used as dictionaries, and the array methods of the source *)

Module JSObject.

(** An array index: a canonical numeric string below [2^32 - 1]. *)
Definition is_digit (c : N) : bool := ((48 <=? c) && (c <=? 57))%N.

Definition number_of (k : jsstring) : N :=
  fold_left (fun acc d => (acc * 10 + (d - 48))%N) k 0%N.

Definition array_index (k : jsstring) : option N :=
  match k with
  | [] => None
  | d :: k' =>
      if forallb is_digit k
         && (negb (d =? 48)%N || match k' with [] => true | _ => false end)
         && (number_of k <? 4294967295)%N
      then Some (number_of k)
      else None
  end.

Section Obj.

Variable V : Type.

(** The own properties with their values, in the order of creation. *)
Definition t := list (jsstring * V).

(** [o[k] = v]: an existing property keeps its place. *)
Fixpoint set (o : t) (k : jsstring) (v : V) : t :=
  match o with
  | [] => [(k, v)]
  | (k', v') :: o' =>
      if JS.eqb k k' then (k', v) :: o' else (k', v') :: set o' k v
  end.

Fixpoint insert_index (i : N) (v : V) (l : list (N * V)) : list (N * V) :=
  match l with
  | [] => [(i, v)]
  | (j, w) :: l' =>
      if (i <? j)%N then (i, v) :: l else (j, w) :: insert_index i v l'
  end.

(** The properties whose key is an array index, by ascending index. *)
Fixpoint index_properties (o : t) : list (N * V) :=
  match o with
  | [] => []
  | (k, v) :: o' =>
      match array_index k with
      | Some i => insert_index i v (index_properties o')
      | None => index_properties o'
      end
  end.

Fixpoint string_properties (o : t) : list V :=
  match o with
  | [] => []
  | (k, v) :: o' =>
      match array_index k with
      | Some _ => string_properties o'
      | None => v :: string_properties o'
      end
  end.

(** [Object.values(o)]: array indices first, ascending; then the other
    keys in the order of creation. *)
Definition values (o : t) : list V :=
  map snd (index_properties o) ++ string_properties o.

End Obj.

End JSObject.

Module JSArray.

Section Arr.

Variable A : Type.

(** [Array.prototype.sort(cmp)]: a stable sort; [a] goes after [b]
    exactly when [cmp a b > 0]. *)
Variable cmp : A -> A -> Z.

Fixpoint insert (x : A) (l : list A) : list A :=
  match l with
  | [] => [x]
  | y :: l' => if (cmp x y >? 0)%Z then y :: insert x l' else x :: l
  end.

Definition sort (l : list A) : list A := fold_right insert [] l.

(** [l.slice(0, limit)] for an integer [limit]: a negative [limit]
    counts from the end. *)
Definition slice0 (l : list A) (limit : Z) : list A :=
  if (limit <? 0)%Z
  then firstn (Z.to_nat (Z.max (Z.of_nat (length l) + limit) 0)) l
  else firstn (Z.to_nat limit) l.

End Arr.

End JSArray.

(** ** [utils/todoScanner.js] *)

Module TodoScanner.

Import RegExp.

Inductive kind := TODO | FIXME | HACK.

Definition keyword (k : kind) : string :=
  match k with
  | TODO => "TODO"
  | FIXME => "FIXME"
  | HACK => "HACK"
  end.

(** [//\s*K:?\s*(.+)], [/\*\s*K:?\s*(.+?)\s*\*/] and [#\s*K:?\s*(.+)] *)
Definition line_comment (k : kind) : list term :=
  chars "//" ++ [Star true Space] ++ chars (keyword k)
  ++ [Opt (Lit 58); Star true Space; Open 1; Plus true Dot; Close 1].

Definition block_comment (k : kind) : list term :=
  chars "/*" ++ [Star true Space] ++ chars (keyword k)
  ++ [Opt (Lit 58); Star true Space; Open 2; Plus false Dot; Close 2;
      Star true Space] ++ chars "*/".

Definition script_comment (k : kind) : list term :=
  chars "#" ++ [Star true Space] ++ chars (keyword k)
  ++ [Opt (Lit 58); Star true Space; Open 3; Plus true Dot; Close 3].

Definition patterns (k : kind) : pattern :=
  [line_comment k; block_comment k; script_comment k].

Definition scanExtensions : list jsstring :=
  map lit [".js"; ".jsx"; ".ts"; ".tsx"; ".py"; ".java"; ".cpp"; ".c"; ".cs";
           ".go"; ".rs"; ".php"; ".rb"; ".swift"; ".kt"; ".html"; ".css";
           ".scss"]%string.

(** [a || b] on values that are strings or [undefined] *)
Definition or_else (a : option jsstring) (b : option jsstring)
  : option jsstring :=
  match a with
  | Some (_ :: _) => a
  | _ => b
  end.

(** [(match[1] || match[2] || match[3] || '').trim()] *)
Definition comment_of (m : match_object) : jsstring :=
  match or_else (or_else (or_else (group m 1) (group m 2)) (group m 3))
          (Some []) with
  | Some text => trim text
  | None => []
  end.

Record TagMatch := { file : jsstring; comment : jsstring }.

(** The [fileResults] object of one file. *)
Module File.
Record t := {
  path : jsstring;
  name : jsstring;
  todos : list jsstring;
  fixmes : list jsstring;
  hacks : list jsstring
}.
End File.

Record Results := {
  todos : list TagMatch;
  fixmes : list TagMatch;
  hacks : list TagMatch;
  totalCount : nat;
  fileCount : nat;
  fileDetails : list File.t
}.

Definition empty_results : Results :=
  {| todos := []; fixmes := []; hacks := []; totalCount := 0; fileCount := 0;
     fileDetails := [] |}.

Definition push_comment (k : kind) (fr : File.t) (c : jsstring) : File.t :=
  match k with
  | TODO => {| File.path := File.path fr; File.name := File.name fr;
               File.todos := File.todos fr ++ [c];
               File.fixmes := File.fixmes fr; File.hacks := File.hacks fr |}
  | FIXME => {| File.path := File.path fr; File.name := File.name fr;
                File.todos := File.todos fr;
                File.fixmes := File.fixmes fr ++ [c];
                File.hacks := File.hacks fr |}
  | HACK => {| File.path := File.path fr; File.name := File.name fr;
               File.todos := File.todos fr; File.fixmes := File.fixmes fr;
               File.hacks := File.hacks fr ++ [c] |}
  end.

Definition push_match (k : kind) (r : Results) (m : TagMatch) : Results :=
  match k with
  | TODO => {| todos := todos r ++ [m]; fixmes := fixmes r; hacks := hacks r;
               totalCount := totalCount r; fileCount := fileCount r;
               fileDetails := fileDetails r |}
  | FIXME => {| todos := todos r; fixmes := fixmes r ++ [m]; hacks := hacks r;
                totalCount := totalCount r; fileCount := fileCount r;
                fileDetails := fileDetails r |}
  | HACK => {| todos := todos r; fixmes := fixmes r; hacks := hacks r ++ [m];
               totalCount := totalCount r; fileCount := fileCount r;
               fileDetails := fileDetails r |}
  end.

(** What the statements after [readFile] work on: [results], the local
    [fileResults] and the local [hasComments]. *)
Record locals := {
  results : Results;
  fileResults : File.t;
  hasComments : bool
}.

(** The body of [for (const match of ...)] for the pattern of kind [k]. *)
Definition record_match (k : kind) (fname : jsstring) (st : locals)
  (m : match_object) : locals :=
  let comment := comment_of m in
  {| results :=
       push_match k (results st) {| file := fname; comment := comment |};
     fileResults := push_comment k (fileResults st) comment;
     hasComments := true |}.

Definition scan_kind (k : kind) (fname content : jsstring) (st : locals)
  : locals :=
  fold_left (record_match k fname) (matchAll (patterns k) content) st.

Definition push_details (r : Results) (fr : File.t) : Results :=
  {| todos := todos r; fixmes := fixmes r; hacks := hacks r;
     totalCount := totalCount r; fileCount := S (fileCount r);
     fileDetails := fileDetails r ++ [fr] |}.

(** The statements of the [try] block after [readFile] returned
    [content]: none of them throws. *)
Definition scan_content (f : FileScanner.FileEntry) (content : jsstring)
  (r : Results) : Results :=
  let st0 :=
    {| results := r;
       fileResults :=
         {| File.path := FileScanner.path f; File.name := FileScanner.name f;
            File.todos := []; File.fixmes := []; File.hacks := [] |};
       hasComments := false |} in
  let st1 := scan_kind TODO (FileScanner.name f) content st0 in
  let st2 := scan_kind FIXME (FileScanner.name f) content st1 in
  let st3 := scan_kind HACK (FileScanner.name f) content st2 in
  if hasComments st3 then push_details (results st3) (fileResults st3)
  else results st3.

(** The sequence of a kind, in [results] and in a [fileResults]. *)
Definition kind_matches (k : kind) (r : Results) : list TagMatch :=
  match k with
  | TODO => todos r
  | FIXME => fixmes r
  | HACK => hacks r
  end.

Definition file_comments (k : kind) (d : File.t) : list jsstring :=
  match k with
  | TODO => File.todos d
  | FIXME => File.fixmes d
  | HACK => File.hacks d
  end.

Definition kind_eqb (a b : kind) : bool :=
  match a, b with
  | TODO, TODO | FIXME, FIXME | HACK, HACK => true
  | _, _ => false
  end.

(** The invariant of the [results] object. *)
Definition has_comments (d : File.t) : Prop :=
  File.todos d <> [] \/ File.fixmes d <> [] \/ File.hacks d <> [].

Definition details_ok (r : Results) : Prop :=
  fileCount r = length (fileDetails r)
  /\ Forall has_comments (fileDetails r).

Definition set_totalCount (r : Results) : Results :=
  {| todos := todos r; fixmes := fixmes r; hacks := hacks r;
     totalCount := length (todos r) + length (fixmes r) + length (hacks r);
     fileCount := fileCount r; fileDetails := fileDetails r |}.

Section Scan.

(** [String.prototype.toLowerCase] of the runtime. *)
Variable toLowerCase : jsstring -> jsstring.

(** What [fs.readFile(path, 'utf-8')] answers for each path: the content
    or an exception. *)
Variable disk : jsstring -> error + jsstring.

Definition readFile {St} (p : jsstring) : io St jsstring :=
  emit (ReadFile p) ;;;
  match disk p with
  | inr content => ret content
  | inl e => throw e
  end.

(** [scanExtensions.includes(ext)] for [ext] the lower-cased extension *)
Definition is_code_file (f : FileScanner.FileEntry) : bool :=
  includes scanExtensions (toLowerCase (Path.extname (FileScanner.name f))).

(** The body of [for (const file of files)]. *)
Definition scan_file (f : FileScanner.FileEntry) : io Results unit :=
  if negb (is_code_file f) then ret tt
  else
    try_catch
      (content <- readFile (FileScanner.path f) ;;
       modify (scan_content f content))
      (fun _ => ret tt).

(** [readFile] succeeds on the file. *)
Definition readable (f : FileScanner.FileEntry) : bool :=
  match disk (FileScanner.path f) with
  | inr _ => true
  | inl _ => false
  end.

(** What one file does to [results] and to the log. *)
Definition file_effect (f : FileScanner.FileEntry) (r : Results) : Results :=
  if is_code_file f then
    match disk (FileScanner.path f) with
    | inr content => scan_content f content r
    | inl _ => r
    end
  else r.

Definition file_log (f : FileScanner.FileEntry) : list event :=
  if is_code_file f then [ReadFile (FileScanner.path f)] else [].

Fixpoint scan_files (files : list FileScanner.FileEntry) : io Results unit :=
  match files with
  | [] => ret tt
  | f :: rest => scan_file f ;;; scan_files rest
  end.

Definition scanForTodos (files : list FileScanner.FileEntry)
  : io unit Results :=
  call empty_results
    (scan_files files ;;;
     modify set_totalCount ;;;
     fun results => ret results results).

End Scan.

(** *** [getFilesWithMostTodos] *)

(** An entry of [fileCounts]. *)
Module Count.
Record t := {
  name : jsstring;
  path : jsstring;
  count : nat;
  todos : nat;
  fixmes : nat;
  hacks : nat
}.
End Count.

Definition count_of (f : File.t) : Count.t :=
  let count :=
    length (File.todos f) + length (File.fixmes f) + length (File.hacks f) in
  {| Count.name := File.name f; Count.path := File.path f;
     Count.count := count;
     Count.todos := length (File.todos f);
     Count.fixmes := length (File.fixmes f);
     Count.hacks := length (File.hacks f) |}.

(** The [forEach]: [fileCounts[file.name] = {...}] for every file. *)
Definition count_files (details : list File.t) : JSObject.t Count.t :=
  fold_left
    (fun fileCounts f => JSObject.set fileCounts (File.name f) (count_of f))
    details [].

(** [(a, b) => b.count - a.count] *)
Definition by_count_desc (a b : Count.t) : Z :=
  (Z.of_nat (Count.count b) - Z.of_nat (Count.count a))%Z.

Definition getFilesWithMostTodos (todoResults : Results) (limit : Z)
  : list Count.t :=
  JSArray.slice0
    (JSArray.sort by_count_desc
       (JSObject.values (count_files (fileDetails todoResults))))
    limit.

(** The default of the parameter [limit]. *)
Definition default_limit : Z := 5.

End TodoScanner.

(** ** A sample project, for the examples *)

Module Sample.

Import FileScanner.

(** [path.join] on a normalized absolute directory path and the name of
    one of its entries. *)
Definition join (a b : jsstring) : jsstring := a ++ lit "/" ++ b.

Definition project : fsnode :=
  Directory
    [ (lit "a.js", RegularFile (inr 10%N));
      (lit "node_modules",
       Directory [ (lit "x.js", RegularFile (inr 5%N)) ]);
      (lit "src",
       Directory
         [ (lit "README.MD", RegularFile (inr 7%N));
           (lit "locked", UnreadableDir (errno "EACCES"));
           (lit "lib", Directory [ (lit "z.py", RegularFile (inr 3%N)) ]);
           (lit "coverage", RegularFile (inr 4%N)) ]);
      (lit "b.py", RegularFile (inl (errno "EIO")));
      (lit "link", Special) ].

Definition root : jsstring := lit "/proj".

(** A project one of whose directories cannot be listed, with the
    error [e]. *)
Definition project_with_failure (e : error) : fsnode :=
  Directory
    [ (lit "a.js", RegularFile (inr 10%N));
      (lit "gone", UnreadableDir e);
      (lit "b.js", RegularFile (inr 2%N)) ].

Definition shallow : ScanOptions :=
  {| excludeDirs := None; maxDepth := Some (Finite 0); currentDepth := None |}.

Definition entry (p n : string) (sz : N) : FileEntry :=
  {| path := lit p; name := lit n; size := sz;
     extension := Path.extname (lit n) |}.

(** The contents of the files of the examples; any other path cannot
    be read. *)
Definition contents : list (jsstring * jsstring) :=
  [ (lit "/proj/a.js", lit "let x; // TODO: fix this");
    (lit "/proj/b.py", lit "# FIXME: broken");
    (lit "/proj/x.bin", lit "// TODO: x");
    (lit "/proj/a/index.js", lit "// TODO: one
// todo: two
/* FIXME three */");
    (lit "/proj/b/index.js", lit "# hack: four");
    (lit "/proj/c.js", lit "// TODO: five
// HACK: six") ].

Fixpoint find (p : jsstring) (l : list (jsstring * jsstring))
  : error + jsstring :=
  match l with
  | [] => inl (errno "ENOENT")
  | (q, content) :: l' => if JS.eqb p q then inr content else find p l'
  end.

Definition disk (p : jsstring) : error + jsstring := find p contents.

Definition a_js : FileEntry := entry "/proj/a.js" "a.js" 24.

Definition sources : list FileEntry :=
  [ a_js; entry "/proj/b.py" "b.py" 15; entry "/proj/x.bin" "x.bin" 10;
    entry "/proj/missing.ts" "missing.ts" 1 ].

(** Two files of one name, in two directories, and a third file. *)
Definition same_names : list FileEntry :=
  [ entry "/proj/a/index.js" "index.js" 50;
    entry "/proj/b/index.js" "index.js" 12;
    entry "/proj/c.js" "c.js" 27 ].

End Sample.

(** ** Objects read as dictionaries: lookup and [Object.entries] *)

Module Dict.

(** The names every object inherits from [Object.prototype].  Looking
    one of them up in an object that has no such property of its own
    answers the inherited value, not [undefined], and assigning to
    [__proto__] creates no property: the dictionaries below stand for
    objects whose keys are none of these names. *)
Definition prototype_names : list jsstring :=
  map lit
    [ "constructor"; "__defineGetter__"; "__defineSetter__";
      "hasOwnProperty"; "__lookupGetter__"; "__lookupSetter__";
      "isPrototypeOf"; "propertyIsEnumerable"; "toString"; "valueOf";
      "__proto__"; "toLocaleString" ]%string.

Definition inherited (k : jsstring) : bool := includes prototype_names k.

Section Dict.

Variable V : Type.

(** [o[k]] for a key that is not [inherited]; [None] is [undefined]. *)
Fixpoint get (o : JSObject.t V) (k : jsstring) : option V :=
  match o with
  | [] => None
  | (k', v) :: o' => if JS.eqb k k' then Some v else get o' k
  end.

Fixpoint insert_indexed (i : N) (kv : jsstring * V)
  (l : list (N * (jsstring * V))) : list (N * (jsstring * V)) :=
  match l with
  | [] => [(i, kv)]
  | (j, w) :: l' =>
      if (i <? j)%N then (i, kv) :: l else (j, w) :: insert_indexed i kv l'
  end.

Fixpoint index_entries (o : JSObject.t V) : list (N * (jsstring * V)) :=
  match o with
  | [] => []
  | (k, v) :: o' =>
      match JSObject.array_index k with
      | Some i => insert_indexed i (k, v) (index_entries o')
      | None => index_entries o'
      end
  end.

Fixpoint string_entries (o : JSObject.t V) : list (jsstring * V) :=
  match o with
  | [] => []
  | (k, v) :: o' =>
      match JSObject.array_index k with
      | Some _ => string_entries o'
      | None => (k, v) :: string_entries o'
      end
  end.

(** [Object.entries(o)], in the order of [Object.values]. *)
Definition entries (o : JSObject.t V) : list (jsstring * V) :=
  map snd (index_entries o) ++ string_entries o.

End Dict.

End Dict.

(** ** [String.prototype.split] on a separator of one code unit *)

Module Split.

Definition NEWLINE : N := 10.

Fixpoint split_on (sep : N) (s : jsstring) : list jsstring :=
  match s with
  | [] => [[]]
  | c :: s' =>
      if (c =? sep)%N then [] :: split_on sep s'
      else
        match split_on sep s' with
        | seg :: segs => (c :: seg) :: segs
        | [] => [[c]]
        end
  end.

(** [segments.join(sep)] *)
Fixpoint join_with (sep : N) (segs : list jsstring) : jsstring :=
  match segs with
  | [] => []
  | [seg] => seg
  | seg :: segs' => seg ++ sep :: join_with sep segs'
  end.

End Split.

(** ** The other functions of [utils/fileScanner.js] *)

Module Listings.

Import FileScanner.

(** *** [getLargestFiles] *)

Module Large.
Record t := {
  path : jsstring;
  name : jsstring;
  size : N;
  sizeFormatted : jsstring
}.
End Large.

(** [(a, b) => b.size - a.size] *)
Definition by_size_desc (a b : FileEntry) : Z :=
  (Z.of_N (size b) - Z.of_N (size a))%Z.

Definition default_files_limit : Z := 10.
Definition default_minSize : N := 100 * 1024.

Section LargestFiles.

(** [formatBytes] computes in floating point ([Math.log], [Math.pow]);
    what it returns is left open. *)
Variable formatBytes : N -> jsstring.

Definition present (f : FileEntry) : Large.t :=
  {| Large.path := path f; Large.name := name f; Large.size := size f;
     Large.sizeFormatted := formatBytes (size f) |}.

Definition getLargestFiles (files : list FileEntry) (limit : Z) (minSize : N)
  : list Large.t :=
  map present
    (JSArray.slice0
       (JSArray.sort by_size_desc
          (filter (fun f => (minSize <=? size f)%N) files))
       limit).

End LargestFiles.

(** *** [detectLanguages] *)

Definition languageMap : JSObject.t jsstring :=
  map (fun kv => (lit (fst kv), lit (snd kv)))
    [ (".js", "JavaScript"); (".jsx", "JavaScript (React)");
      (".ts", "TypeScript"); (".tsx", "TypeScript (React)");
      (".py", "Python"); (".java", "Java"); (".cpp", "C++"); (".c", "C");
      (".cs", "C#"); (".go", "Go"); (".rs", "Rust"); (".php", "PHP");
      (".rb", "Ruby"); (".swift", "Swift"); (".kt", "Kotlin");
      (".html", "HTML"); (".css", "CSS"); (".scss", "SCSS");
      (".json", "JSON"); (".md", "Markdown"); (".yml", "YAML");
      (".yaml", "YAML") ]%string.

Record LanguageCount := { language : jsstring; count : nat }.

(** [(a, b) => b[1] - a[1]] *)
Definition by_second_desc (a b : jsstring * nat) : Z :=
  (Z.of_nat (snd b) - Z.of_nat (snd a))%Z.

(** [(languageCounts[language] || 0) + 1] *)
Definition increment (languageCounts : JSObject.t nat) (language : jsstring)
  : JSObject.t nat :=
  JSObject.set languageCounts language
    (match Dict.get languageCounts language with
     | Some c => c
     | None => 0
     end + 1).

Section Languages.

Variable toLowerCase : jsstring -> jsstring.

(** The language of a file, if its lower-cased extension has one. *)
Definition language_of (f : FileEntry) : option jsstring :=
  Dict.get languageMap (toLowerCase (extension f)).

(** The file has the language [l]. *)
Definition has_language (l : jsstring) (f : FileEntry) : bool :=
  match language_of f with
  | Some l' => JS.eqb l l'
  | None => false
  end.

Definition has_some_language (f : FileEntry) : bool :=
  match language_of f with
  | Some _ => true
  | None => false
  end.

(** The body of the [forEach]. *)
Definition count_language (languageCounts : JSObject.t nat) (f : FileEntry)
  : JSObject.t nat :=
  match language_of f with
  | Some language => increment languageCounts language
  | None => languageCounts
  end.

Definition detectLanguages (files : list FileEntry) : list LanguageCount :=
  map (fun kv => {| language := fst kv; count := snd kv |})
    (JSArray.sort by_second_desc
       (Dict.entries (fold_left count_language files []))).

End Languages.

(** *** [getTopLevelDirectories] *)

Definition directoryDescriptions : JSObject.t jsstring :=
  map (fun kv => (lit (fst kv), lit (snd kv)))
    [ ("src", "Source code"); ("components", "UI components");
      ("routes", "API routes"); ("utils", "Helper functions");
      ("test", "Test files"); ("tests", "Test files");
      ("__tests__", "Test files"); ("public", "Public assets");
      ("assets", "Static assets"); ("styles", "Stylesheets");
      ("lib", "Library code"); ("config", "Configuration files");
      ("scripts", "Build/utility scripts"); ("docs", "Documentation");
      ("bin", "Executable files"); ("api", "API endpoints");
      ("pages", "Page components"); ("models", "Data models");
      ("controllers", "Controllers"); ("views", "View templates");
      ("middleware", "Middleware functions") ]%string.

Module Top.
Record t := { name : jsstring; description : jsstring }.
End Top.

(** [name.startsWith('.')] *)
Definition startsWith_dot (s : jsstring) : bool :=
  match s with
  | c :: _ => (c =? DOT)%N
  | [] => false
  end.

(** The test of the loop. *)
Definition is_top_level (entry : jsstring * fsnode) : bool :=
  isDirectory (snd entry) && negb (startsWith_dot (fst entry))
  && negb (JS.eqb (fst entry) (lit "node_modules")).

(** [directoryDescriptions[name] || 'Project directory'] *)
Definition describe (ename : jsstring) : jsstring :=
  match Dict.get directoryDescriptions ename with
  | Some (c :: d) => c :: d
  | _ => lit "Project directory"
  end.

Definition getTopLevelDirectories (n : fsnode) (rootPath : jsstring)
  : io unit (list Top.t) :=
  try_catch
    (entries <- readdir rootPath n ;;
     ret (map (fun entry => {| Top.name := fst entry;
                               Top.description := describe (fst entry) |})
            (filter is_top_level entries)))
    (fun _ => ret []).

(** *** [getLargestDirectories] *)

Definition largest_excludeDirs : list jsstring :=
  map lit ["node_modules"; ".git"; "dist"; "build"]%string.

(** [{ maxDepth: Infinity }] *)
Definition unlimited : ScanOptions :=
  {| excludeDirs := None; maxDepth := Some Infinity; currentDepth := None |}.

Module DirSize.
Record t := { name : jsstring; fileCount : nat; size : N }.
End DirSize.

(** [(a, b) => b.fileCount - a.fileCount] *)
Definition by_fileCount_desc (a b : DirSize.t) : Z :=
  (Z.of_nat (DirSize.fileCount b) - Z.of_nat (DirSize.fileCount a))%Z.

Definition is_measured (entry : jsstring * fsnode) : bool :=
  isDirectory (snd entry) && negb (includes largest_excludeDirs (fst entry)).

Definition measure (ename : jsstring) (results : ScanResult) : DirSize.t :=
  {| DirSize.name := ename; DirSize.fileCount := length (files results);
     DirSize.size := totalSize results |}.

Section Largest.

Variable path_join : jsstring -> jsstring -> jsstring.

(** The [for] loop, on the array [directorySizes]. *)
Fixpoint measure_entries (rootPath : jsstring)
  (entries : list (jsstring * fsnode)) : io (list DirSize.t) unit :=
  match entries with
  | [] => ret tt
  | entry :: rest =>
      (if is_measured entry then
         results <-
           call tt (scanDirectory path_join (snd entry)
                      (path_join rootPath (fst entry)) unlimited) ;;
         modify (fun directorySizes =>
                   directorySizes ++ [measure (fst entry) results])
       else ret tt) ;;;
      measure_entries rootPath rest
  end.

(** [d] is the entry of [directorySizes] for the entry [en] of the
    listing: the scan of the directory returned. *)
Definition measured_by (rootPath : jsstring) (en : jsstring * fsnode)
  (d : DirSize.t) : Prop :=
  exists t results,
    scanDirectory path_join (snd en) (path_join rootPath (fst en)) unlimited tt
    = (t, tt, inr results)
    /\ d = measure (fst en) results.

Definition getLargestDirectories (n : fsnode) (rootPath : jsstring)
  (limit : Z) : io unit (list DirSize.t) :=
  try_catch
    (call []
       (entries <- readdir rootPath n ;;
        measure_entries rootPath entries ;;;
        fun directorySizes =>
          ret (JSArray.slice0
                 (JSArray.sort by_fileCount_desc directorySizes) limit)
            directorySizes))
    (fun _ => ret []).

End Largest.

(** *** [countFileLines] *)

Definition countFileLines (disk : jsstring -> error + jsstring)
  (filePath : jsstring) : io unit nat :=
  try_catch
    (content <- TodoScanner.readFile disk filePath ;;
     ret (length (Split.split_on Split.NEWLINE content)))
    (fun _ => ret 0).

End Listings.

(** ** [formatTodoSummary] of [utils/todoScanner.js] *)

Module TodoSummary.

Import TodoScanner.

Record t := {
  total : nat;
  todos : nat;
  fixmes : nat;
  hacks : nat;
  filesWithComments : nat
}.

Definition formatTodoSummary (todoResults : Results) : t :=
  {| total := totalCount todoResults;
     todos := length (TodoScanner.todos todoResults);
     fixmes := length (TodoScanner.fixmes todoResults);
     hacks := length (TodoScanner.hacks todoResults);
     filesWithComments := fileCount todoResults |}.

End TodoSummary.

(** ** [getMostModifiedFiles] of [utils/gitUtils.js]: what it makes of
    the output of [git log --name-only --pretty=format:] *)

Module GitLog.

Record Modified := { file : jsstring; count : nat }.

(** [f => f.trim() !== ''] *)
Definition not_blank (f : jsstring) : bool :=
  match trim f with
  | [] => false
  | _ :: _ => true
  end.

Definition default_limit : Z := 10.

(** The lines of the output that are counted. *)
Definition lines_of (out : jsstring) : list jsstring :=
  filter not_blank (Split.split_on Split.NEWLINE out).

(** [log] is what [git.raw] answers: its output or an exception
    ([getGit()] is taken to succeed). *)
Definition getMostModifiedFiles (log : error + jsstring) (limit : Z)
  : list Modified :=
  match log with
  | inl _ => []
  | inr out =>
      let files := lines_of out in
      let fileCount := fold_left Listings.increment files [] in
      map (fun kv => {| file := fst kv; count := snd kv |})
        (JSArray.slice0
           (JSArray.sort Listings.by_second_desc (Dict.entries fileCount))
           limit)
  end.

End GitLog.

(** ** What [scanForTodos] finds in one file *)

Module Tags.

Import TodoScanner.

(** The comments of the kind [k] in a content: one for each match of
    the kind's pattern. *)
Definition comments_in (k : kind) (content : jsstring) : list jsstring :=
  map comment_of (RegExp.matchAll (patterns k) content).

(** The [fileResults] of a file that has the content [content]. *)
Definition details_of (f : FileScanner.FileEntry) (content : jsstring)
  : File.t :=
  {| File.path := FileScanner.path f; File.name := FileScanner.name f;
     File.todos := comments_in TODO content;
     File.fixmes := comments_in FIXME content;
     File.hacks := comments_in HACK content |}.

(** No pattern matches in the content. *)
Definition silent (content : jsstring) : bool :=
  match comments_in TODO content, comments_in FIXME content,
        comments_in HACK content with
  | [], [], [] => true
  | _, _, _ => false
  end.

(** The entries of [results.todos] (or [fixmes], or [hacks]) for the
    comments [cs] of the file named [fname]. *)
Definition tagged (fname : jsstring) (cs : list jsstring) : list TagMatch :=
  map (fun c => {| file := fname; comment := c |}) cs.

(** Neither the first nor the last code unit is white space. *)
Definition trimmed (s : jsstring) : bool :=
  match s with
  | [] => true
  | c :: _ => negb (is_space c) && negb (is_space (last s c))
  end.

Section Found.

Variable toLowerCase : jsstring -> jsstring.
Variable disk : jsstring -> error + jsstring.

(** What a file adds to [fileDetails]: its [fileResults] when it is a
    code file that can be read and in which some pattern matches. *)
Definition found (f : FileScanner.FileEntry) : list File.t :=
  if is_code_file toLowerCase f then
    match disk (FileScanner.path f) with
    | inr content => if silent content then [] else [details_of f content]
    | inl _ => []
    end
  else [].

End Found.

End Tags.

(** ** How far a scan goes *)

Module Reach.

Import FileScanner.

(** A scan with the options [o] lists what lies [k] directories below
    its root: the root itself in any case, and a directory below it
    when [currentDepth < maxDepth] held in every directory above. *)
Definition within (o : ScanOptions) (k : nat) : bool :=
  match k with
  | 0 => true
  | S k' => depth_lt (get_currentDepth o + Z.of_nat k') (get_maxDepth o)
  end.

Section Reached.

Variable path_join : jsstring -> jsstring -> jsstring.

(** [f] is the entry of a regular file that [stat] succeeds on, below
    directories [rel] that can be listed, none of them excluded and the
    last of them within the depth of the scan. *)
Definition file_reached (o : ScanOptions) (n : fsnode) (p : jsstring)
  (f : FileEntry) : Prop :=
  exists rel sz,
    located n (rel ++ [name f]) (RegularFile (inr sz))
    /\ clear_of (get_excludeDirs o) rel
    /\ within o (length rel) = true
    /\ f = mkFileEntry (join_all path_join p (rel ++ [name f])) (name f) sz.

(** [d] is the path of a directory [ename] below directories [rel]
    that can be listed, neither it nor any of them excluded and the
    last of them within the depth of the scan. *)
Definition directory_reached (o : ScanOptions) (n : fsnode) (p : jsstring)
  (d : jsstring) : Prop :=
  exists rel ename m,
    located n (rel ++ [ename]) m /\ isDirectory m = true
    /\ clear_of (get_excludeDirs o) (rel ++ [ename])
    /\ within o (length rel) = true
    /\ d = join_all path_join p (rel ++ [ename]).

(** [sub] is what the scan of a subdirectory returned that the loop
    over [entries] descended into. *)
Definition descended (p : jsstring) (o : ScanOptions)
  (entries : list (jsstring * fsnode)) (sub : ScanResult) : Prop :=
  exists ename child t,
    In (ename, child) entries /\ isDirectory child = true
    /\ excluded o ename = false /\ descends o = true
    /\ scanDirectory path_join child (path_join p ename) (child_options o) tt
       = (t, tt, inr sub).

End Reached.

End Reach.

(** ** More sample data *)

Module Samples.

Import FileScanner.

(** What [git log --name-only --pretty=format:] prints for three
    commits. *)
Definition git_output : jsstring :=
  lit "src/a.js
src/b.js

src/a.js
README.md

src/a.js".

(** Files of three languages, of no language, and of one language
    under two spellings of its extension. *)
Definition mixed : list FileEntry :=
  [ Sample.entry "/proj/a.js" "a.js" 24;
    Sample.entry "/proj/c.py" "c.py" 300;
    Sample.entry "/proj/B.JS" "B.JS" 7;
    Sample.entry "/proj/notes.txt" "notes.txt" 300;
    Sample.entry "/proj/src/e.js" "e.js" 1000;
    Sample.entry "/proj/README.md" "README.md" 50 ].

(** What [scanForTodos] returns for [Sample.same_names]. *)
Definition tags_of_same_names : TodoScanner.Results :=
  match TodoScanner.scanForTodos toLowerCase_ascii Sample.disk
          Sample.same_names tt with
  | (_, _, inr r) => r
  | (_, _, inl _) => TodoScanner.empty_results
  end.

(** [{ maxDepth: 1 }] *)
Definition one_level : ScanOptions :=
  {| excludeDirs := None; maxDepth := Some (Finite 1); currentDepth := None |}.

End Samples.

(** ** Reasoning principles *)

Section ScannerEquations.

Import FileScanner.

Variable path_join : jsstring -> jsstring -> jsstring.

#[local] Abbreviation scanDir := (scanDirectory path_join).
#[local] Abbreviation loop :=
  (scan_entries path_join (scanDirectory path_join)).
#[local] Abbreviation body :=
  (scan_entry path_join (scanDirectory path_join)).

Lemma loop_nil p o r : loop p o [] r = ([], r, inr tt).
Proof. reflexivity. Qed.

Lemma loop_cons p o en rest r :
  loop p o (en :: rest) r =
  match body p o en r with
  | (t, r', inl e) => (t, r', inl e)
  | (t, r', inr _) =>
      match loop p o rest r' with (t', r'', x) => (t ++ t', r'', x) end
  end.
Proof. reflexivity. Qed.

Lemma body_special p o ename r :
  body p o (ename, Special) r = ([], r, inr tt).
Proof. reflexivity. Qed.

Lemma body_file_ok p o ename sz r :
  body p o (ename, RegularFile (inr sz)) r =
  ([Stat (path_join p ename)],
   push_file r (mkFileEntry (path_join p ename) ename sz), inr tt).
Proof. reflexivity. Qed.

Lemma body_file_fails p o ename e r :
  body p o (ename, RegularFile (inl e)) r =
  ([Stat (path_join p ename)], r, inr tt).
Proof. reflexivity. Qed.

Lemma body_directory p o ename child r :
  isDirectory child = true ->
  body p o (ename, child) r =
  if excluded o ename then ([], r, inr tt)
  else if descends o then
    match scanDir child (path_join p ename) (child_options o) tt with
    | (t, _, inr sub) =>
        (t, merge (push_directory r (path_join p ename)) sub, inr tt)
    | (t, _, inl e) => (t, push_directory r (path_join p ename), inl e)
    end
  else ([], push_directory r (path_join p ename), inr tt).
Proof.
  intros Hd. unfold excluded, descends, child_options.
  destruct child; try discriminate; cbn [scan_entry];
    (destruct (includes _ _); [reflexivity|]);
    (destruct (depth_lt _ _); [|reflexivity]);
    unfold bind, modify, call;
    match goal with
    | |- context [scanDirectory ?j ?c ?q ?op tt] =>
        destruct (scanDirectory j c q op tt) as [[t u] [err|sub]]
    end; cbn; rewrite ?app_nil_r; reflexivity.
Qed.

(** [scanDirectory] as the source writes it. *)
Lemma scanDirectory_unfold n p o s :
  scanDir n p o s =
  call empty_result
    (try_catch
       (entries <- readdir p n ;; loop p o entries)
       handle_listing_error ;;;
     fun results => ret results results) s.
Proof.
  destruct n as [st|entries|e|]; cbn [scanDirectory];
    cbv beta iota delta [call bind try_catch readdir emit ret throw listing];
    cbn [app].
  - reflexivity.
  - destruct (scan_entries _ _ _ _ _ _) as [[t r] [e|[]]]; reflexivity.
  - reflexivity.
  - reflexivity.
Qed.

Lemma scanDirectory_directory p o entries s :
  scanDir (Directory entries) p o s =
  match loop p o entries empty_result with
  | (t, r, inr _) => (Readdir p :: t, s, inr r)
  | (t, r, inl e) =>
      if is_permission_error e then (Readdir p :: t, s, inr r)
      else (Readdir p :: t, s, inl e)
  end.
Proof.
  cbn [scanDirectory]. unfold call, bind, try_catch, emit.
  destruct (scan_entries _ _ _ _ _ _) as [[t r] [e|[]]]; cbn.
  - unfold handle_listing_error, is_permission_error.
    destruct (code_differs e "EACCES" && code_differs e "EPERM"); cbn;
      rewrite ?app_nil_r; reflexivity.
  - rewrite ?app_nil_r. reflexivity.
Qed.

Lemma scanDirectory_fails n p o s e :
  listing n = inl e ->
  scanDir n p o s =
  if is_permission_error e then ([Readdir p], s, inr empty_result)
  else ([Readdir p], s, inl e).
Proof.
  intros H. unfold is_permission_error.
  destruct n; cbn in H; try discriminate; inversion H; subst; clear H;
    cbn [scanDirectory]; unfold call, bind, try_catch, emit, throw,
      handle_listing_error; cbn;
    try (destruct (code_differs e "EACCES" && code_differs e "EPERM"));
    reflexivity.
Qed.

(** *** Invariants of a scan

    [I n p r]: [r] is an acceptable state of [results] while the node
    [n] is scanned under the path [p].  An invariant that the four
    mutations of the source preserve holds of whatever a scan returns. *)
Section Invariant.

Variable E : list jsstring.
Variable I : fsnode -> jsstring -> ScanResult -> Prop.

Hypothesis I_empty : forall n p, I n p empty_result.
Hypothesis I_directory :
  forall entries p ename child r,
    In (ename, child) entries -> isDirectory child = true ->
    includes E ename = false ->
    I (Directory entries) p r ->
    I (Directory entries) p (push_directory r (path_join p ename)).
Hypothesis I_file :
  forall entries p ename sz r,
    In (ename, RegularFile (inr sz)) entries ->
    I (Directory entries) p r ->
    I (Directory entries) p
      (push_file r (mkFileEntry (path_join p ename) ename sz)).
Hypothesis I_merge :
  forall entries p ename child r sub,
    In (ename, child) entries -> isDirectory child = true ->
    includes E ename = false ->
    I (Directory entries) p r ->
    I child (path_join p ename) sub ->
    I (Directory entries) p (merge r sub).

#[local] Abbreviation returns_within n :=
  (forall p o s t s' r,
      (forall x, includes (get_excludeDirs o) x = includes E x) ->
      scanDir n p o s = (t, s', inr r) -> I n p r).

Lemma body_invariant all p o ename child r0 t r x :
  (forall x, includes (get_excludeDirs o) x = includes E x) ->
  In (ename, child) all ->
  returns_within child ->
  I (Directory all) p r0 ->
  body p o (ename, child) r0 = (t, r, x) ->
  I (Directory all) p r.
Proof.
  intros HE Hin IH H0 Hb.
  destruct child as [[e|sz]|sub_entries|e|].
  - rewrite body_file_fails in Hb. inversion Hb; subst; assumption.
  - rewrite body_file_ok in Hb. inversion Hb; subst. now apply I_file.
  - rewrite body_directory in Hb by reflexivity. unfold excluded in Hb.
    rewrite HE in Hb.
    destruct (includes E ename) eqn:Hx.
    { inversion Hb; subst; assumption. }
    destruct (descends o).
    + destruct (scanDir _ _ _ tt) as [[t1 u1] [e1|sub]] eqn:Hs;
        inversion Hb; subst.
      * eapply I_directory; eauto.
      * eapply I_merge;
          [exact Hin | reflexivity | exact Hx
          | eapply I_directory; [exact Hin | reflexivity | exact Hx | exact H0]
          | eapply IH; [|exact Hs]; exact HE].
    + inversion Hb; subst. eapply I_directory; eauto.
  - rewrite body_directory in Hb by reflexivity. unfold excluded in Hb.
    rewrite HE in Hb.
    destruct (includes E ename) eqn:Hx.
    { inversion Hb; subst; assumption. }
    destruct (descends o).
    + destruct (scanDir _ _ _ tt) as [[t1 u1] [e1|sub]] eqn:Hs;
        inversion Hb; subst.
      * eapply I_directory; eauto.
      * eapply I_merge;
          [exact Hin | reflexivity | exact Hx
          | eapply I_directory; [exact Hin | reflexivity | exact Hx | exact H0]
          | eapply IH; [|exact Hs]; exact HE].
    + inversion Hb; subst. eapply I_directory; eauto.
  - rewrite body_special in Hb. inversion Hb; subst; assumption.
Qed.

Lemma loop_invariant all p o entries :
  (forall x, includes (get_excludeDirs o) x = includes E x) ->
  incl entries all ->
  Forall (fun en => returns_within (snd en)) entries ->
  forall r0 t r x,
    I (Directory all) p r0 ->
    loop p o entries r0 = (t, r, x) ->
    I (Directory all) p r.
Proof.
  intros HE. induction entries as [|[ename child] rest IHrest];
    intros Hincl Hall r0 t r x H0 Hl.
  - rewrite loop_nil in Hl. inversion Hl; subst; assumption.
  - rewrite loop_cons in Hl.
    inversion Hall as [|? ? Hchild Hrest]; subst.
    destruct (body p o (ename, child) r0) as [[t1 r1] [e|[]]] eqn:Hb.
    + inversion Hl; subst.
      eapply body_invariant; eauto. apply Hincl. now left.
    + destruct (loop p o rest r1) as [[t2 r2] x2] eqn:Hl2.
      inversion Hl; subst.
      eapply IHrest; [| exact Hrest | | exact Hl2].
      * intros y Hy. apply Hincl. now right.
      * eapply body_invariant; eauto. apply Hincl. now left.
Qed.

Lemma scan_invariant n : returns_within n.
Proof.
  induction n as [st|entries IH|e|] using fsnode_tree_ind;
    intros p o s t s' r HE Hs.
  - rewrite (scanDirectory_fails (RegularFile st) p o s eq_refl) in Hs.
    cbn in Hs. discriminate.
  - rewrite scanDirectory_directory in Hs.
    destruct (loop p o entries empty_result) as [[t1 r1] [e|[]]] eqn:Hl.
    + destruct (is_permission_error e); inversion Hs; subst.
      eapply loop_invariant; eauto using incl_refl.
    + inversion Hs; subst.
      eapply loop_invariant; eauto using incl_refl.
  - rewrite (scanDirectory_fails (UnreadableDir e) p o s eq_refl) in Hs.
    destruct (is_permission_error e); inversion Hs; subst. apply I_empty.
  - rewrite (scanDirectory_fails Special p o s eq_refl) in Hs.
    cbn in Hs. discriminate.
Qed.

End Invariant.

(** *** What a scan logs *)
Section LogInvariant.

Variable E : list jsstring.
Variable T : fsnode -> jsstring -> event -> Prop.

Hypothesis T_readdir : forall n p, T n p (Readdir p).
Hypothesis T_stat :
  forall entries p ename st,
    In (ename, RegularFile st) entries ->
    T (Directory entries) p (Stat (path_join p ename)).
Hypothesis T_child :
  forall entries p ename child ev,
    In (ename, child) entries -> isDirectory child = true ->
    includes E ename = false ->
    T child (path_join p ename) ev ->
    T (Directory entries) p ev.

#[local] Abbreviation logs_within n :=
  (forall p o s t s' x,
      (forall x, includes (get_excludeDirs o) x = includes E x) ->
      scanDir n p o s = (t, s', x) -> Forall (T n p) t).

Lemma body_log all p o ename child r0 t r x :
  (forall x, includes (get_excludeDirs o) x = includes E x) ->
  In (ename, child) all ->
  logs_within child ->
  body p o (ename, child) r0 = (t, r, x) ->
  Forall (T (Directory all) p) t.
Proof.
  intros HE Hin IH Hb.
  assert (Hdir : isDirectory child = true ->
                 Forall (T (Directory all) p) t).
  { intros Hd. rewrite body_directory in Hb by exact Hd.
    unfold excluded in Hb. rewrite HE in Hb.
    destruct (includes E ename) eqn:Hx.
    { inversion Hb; subst; constructor. }
    destruct (descends o); [|inversion Hb; subst; constructor].
    destruct (scanDir _ _ _ tt) as [[t1 u1] x1] eqn:Hs.
    apply IH in Hs; [|exact HE].
    assert (Ht : t = t1) by (destruct x1; inversion Hb; reflexivity).
    subst t1. eapply Forall_impl; [|exact Hs].
    intros ev Hev. eapply T_child; eauto. }
  destruct child as [[e|sz]|sub_entries|e|].
  - rewrite body_file_fails in Hb. inversion Hb; subst.
    repeat constructor. eapply T_stat; eauto.
  - rewrite body_file_ok in Hb. inversion Hb; subst.
    repeat constructor. eapply T_stat; eauto.
  - now apply Hdir.
  - now apply Hdir.
  - rewrite body_special in Hb. inversion Hb; subst. constructor.
Qed.

Lemma loop_log all p o entries :
  (forall x, includes (get_excludeDirs o) x = includes E x) ->
  incl entries all ->
  Forall (fun en => logs_within (snd en)) entries ->
  forall r0 t r x,
    loop p o entries r0 = (t, r, x) ->
    Forall (T (Directory all) p) t.
Proof.
  intros HE. induction entries as [|[ename child] rest IHrest];
    intros Hincl Hall r0 t r x Hl.
  - rewrite loop_nil in Hl. inversion Hl; subst; constructor.
  - rewrite loop_cons in Hl.
    inversion Hall as [|? ? Hchild Hrest]; subst.
    destruct (body p o (ename, child) r0) as [[t1 r1] [e|[]]] eqn:Hb.
    + inversion Hl; subst.
      eapply body_log; eauto. apply Hincl. now left.
    + destruct (loop p o rest r1) as [[t2 r2] x2] eqn:Hl2.
      inversion Hl; subst. apply Forall_app. split.
      * eapply body_log; eauto. apply Hincl. now left.
      * eapply IHrest; [| exact Hrest | exact Hl2].
        intros y Hy. apply Hincl. now right.
Qed.

Lemma scan_log n : logs_within n.
Proof.
  induction n as [st|entries IH|e|] using fsnode_tree_ind;
    intros p o s t s' x HE Hs.
  - rewrite (scanDirectory_fails (RegularFile st) p o s eq_refl) in Hs.
    cbn in Hs. inversion Hs; subst. repeat constructor. apply T_readdir.
  - rewrite scanDirectory_directory in Hs.
    destruct (loop p o entries empty_result) as [[t1 r1] x1] eqn:Hl.
    assert (Ht : t = Readdir p :: t1).
    { destruct x1 as [e|[]]; [destruct (is_permission_error e)|];
        inversion Hs; reflexivity. }
    subst t. constructor; [apply T_readdir|].
    eapply loop_log; eauto using incl_refl.
  - rewrite (scanDirectory_fails (UnreadableDir e) p o s eq_refl) in Hs.
    destruct (is_permission_error e); inversion Hs; subst;
      repeat constructor; apply T_readdir.
  - rewrite (scanDirectory_fails Special p o s eq_refl) in Hs.
    cbn in Hs. inversion Hs; subst. repeat constructor. apply T_readdir.
Qed.

End LogInvariant.

End ScannerEquations.

(** ** Properties of [path.extname] *)

Section ExtnameProperties.

Import Path.

Lemma skipn_nth_cons (p : jsstring) j :
  j < length p -> skipn j p = nth j p 0%N :: skipn (S j) p.
Proof.
  revert p. induction j as [|j IH]; intros [|c p] H; cbn in H; try lia.
  - reflexivity.
  - cbn [skipn nth]. apply IH. lia.
Qed.

Lemma ext_step_inv p j st :
  ~ In SLASH p -> S j <= length p ->
  ext_inv p (S j) st -> ext_inv p j (ext_step j (nth j p 0%N) st).
Proof.
  intros Hslash Hj (Hstop & Hpart & Hend & Hdot).
  assert (Hc : (nth j p 0 =? SLASH)%N = false).
  { apply N.eqb_neq. intros Heq. apply Hslash. rewrite <- Heq.
    apply nth_In. lia. }
  assert (Hlt : Nat.ltb j (length p) = true) by (apply Nat.ltb_lt; lia).
  assert (Hskip := skipn_nth_cons p (j := j) ltac:(lia)).
  unfold ext_step. rewrite Hstop, Hc.
  set (st1 := match endIx st with
              | None => _
              | Some _ => st
              end).
  assert (H1 : stopped st1 = false /\ startPart st1 = 0
               /\ endIx st1 = Some (length p)
               /\ startDot st1 = startDot st
               /\ preDotState st1 = preDotState st).
  { unfold st1. destruct (endIx st) as [e|] eqn:He.
    - repeat split; auto. rewrite Hend in He.
      destruct (Nat.ltb (S j) (length p)); congruence.
    - cbn. repeat split; auto.
      destruct (Nat.ltb (S j) (length p)) eqn:Hl; [congruence|].
      apply Nat.ltb_ge in Hl. f_equal. lia. }
  destruct H1 as (S1 & P1 & E1 & D1 & Q1).
  destruct (nth j p 0 =? DOT)%N eqn:Hd.
  - apply N.eqb_eq in Hd.
    destruct Hdot as [(Hn & Hno & Hq)|(d & Hs & Hr & Hnd & Hno & Hq)].
    + rewrite D1, Hn. unfold ext_inv. rewrite Hlt. cbn.
      repeat split; auto. right. exists j. repeat split; auto; try lia;
        try (left; split; [reflexivity|congruence]).
    + rewrite D1, Hs. cbv iota beta.
      assert (Hp1 : exists st2,
                 (if negb (preDotState st1 =? 1)%Z
                  then {| startDot := Some d; startPart := startPart st1;
                          endIx := endIx st1; matchedSlash := matchedSlash st1;
                          preDotState := 1; stopped := false |}
                  else st1) = st2
                 /\ stopped st2 = false /\ startPart st2 = 0
                 /\ endIx st2 = Some (length p)
                 /\ startDot st2 = Some d /\ preDotState st2 = 1%Z).
      { eexists. split; [reflexivity|].
        destruct (preDotState st1 =? 1)%Z eqn:Hq1; cbn.
        - apply Z.eqb_eq in Hq1. repeat split; auto; congruence.
        - repeat split; auto; congruence. }
      destruct Hp1 as (st2 & -> & S2 & P2 & E2 & D2 & Q2).
      unfold ext_inv. rewrite Hlt. repeat split; auto.
      right. exists d. repeat split; auto; try lia.
      right. split; [lia|]. rewrite Q2.
      replace (nth j p 0 =? DOT)%N with true by (symmetry; now apply N.eqb_eq).
      reflexivity.
  - destruct Hdot as [(Hn & Hno & Hq)|(d & Hs & Hr & Hnd & Hno & Hq)].
    + rewrite D1, Hn. unfold ext_inv. rewrite Hlt. repeat split; auto.
      left. repeat split; [congruence| |congruence].
      rewrite Hskip. intros [Hin|Hin]; [|now apply Hno].
      apply N.eqb_neq in Hd. congruence.
    + rewrite D1, Hs. unfold ext_inv. rewrite Hlt. cbn. repeat split; auto.
      right. exists d. repeat split; auto; try lia.
      right. split; [lia|]. rewrite Hd. reflexivity.
Qed.

Lemma ext_loop_inv p :
  ~ In SLASH p ->
  forall i st, i <= length p -> ext_inv p i st -> ext_inv p 0 (ext_loop p i st).
Proof.
  intros Hslash. induction i as [|j IH]; intros st Hi Hinv; [exact Hinv|].
  cbn [ext_loop]. apply IH; [lia|]. now apply ext_step_inv.
Qed.

Lemma ext_init_inv p : ext_inv p (length p) ext_init.
Proof.
  unfold ext_inv, ext_init. rewrite Nat.ltb_irrefl. cbn [stopped startPart
    endIx startDot preDotState].
  repeat split; auto. left. rewrite skipn_all. repeat split; auto.
Qed.

(** For a name without a separator: [extname] is empty when the name
    has no dot, when its only dot is its first character, or when it is
    [..]; otherwise it is the suffix of the name from its last dot. *)
Lemma extname_last_dot (p : jsstring) :
  ~ In SLASH p ->
  (extname p = []
   /\ (~ In DOT p
       \/ (exists tail, p = DOT :: tail /\ ~ In DOT tail)
       \/ p = [DOT; DOT]))
  \/ (exists base tail,
         p = base ++ DOT :: tail /\ base <> [] /\ ~ In DOT tail
         /\ p <> [DOT; DOT]
         /\ extname p = DOT :: tail).
Proof.
  intros Hslash.
  pose proof (ext_loop_inv Hslash (le_n _) (ext_init_inv p)) as Hinv.
  unfold extname. set (st := ext_loop p (length p) ext_init) in *.
  destruct Hinv as (Hstop & Hpart & Hend & Hdot).
  destruct Hdot as [(Hn & Hno & Hq)|(d & Hs & Hr & Hnd & Hno & Hq)].
  - rewrite Hn. left. split; [reflexivity|]. left. exact Hno.
  - assert (Hlt : Nat.ltb 0 (length p) = true) by (apply Nat.ltb_lt; lia).
    rewrite Hlt in Hend. rewrite Hs, Hend.
    assert (Hsplit : p = firstn d p ++ DOT :: skipn (S d) p).
    { rewrite <- Hnd, <- skipn_nth_cons by lia.
      symmetry. apply firstn_skipn. }
    destruct Hq as [[-> Hq]|[Hpos Hq]].
    + rewrite Hq. cbn. left. split; [reflexivity|]. right; left.
      exists (skipn 1 p). split; [exact Hsplit|exact Hno].
    + rewrite Hq, Hpart.
      destruct (nth 0 p 0 =? DOT)%N eqn:H0.
      * change (1 =? 0)%Z with false. change (1 =? 1)%Z with true.
        cbn [orb andb].
        destruct (Nat.eqb d (length p - 1) && Nat.eqb d (0 + 1)) eqn:Hdd.
        -- apply andb_prop in Hdd. destruct Hdd as [Hd1 Hd2].
           apply Nat.eqb_eq in Hd1, Hd2. left. split; [reflexivity|].
           right; right. apply N.eqb_eq in H0.
           clear - H0 Hnd Hd1 Hd2 Hr. subst d.
           destruct p as [|a [|b [|c p']]]; cbn in *; try lia.
           congruence.
        -- right. exists (firstn d p), (skipn (S d) p).
           split; [exact Hsplit|]. split.
           { intros Hnil. apply (f_equal (@length _)) in Hnil.
             rewrite length_firstn in Hnil. cbn in Hnil. lia. }
           split; [exact Hno|]. split.
           { intros Hp. rewrite Hp in Hdd, Hr. cbn in Hdd, Hr.
             assert (d = 1) by lia. subst d. discriminate. }
           unfold slice. rewrite <- (length_skipn d p), firstn_all.
           rewrite skipn_nth_cons by lia. congruence.
      * right. exists (firstn d p), (skipn (S d) p).
        split; [exact Hsplit|]. split.
        { intros Hnil. apply (f_equal (@length _)) in Hnil.
          rewrite length_firstn in Hnil. cbn in Hnil. lia. }
        split; [exact Hno|]. split.
        { intros Hp. rewrite Hp in H0. discriminate. }
        change (-1 =? 0)%Z with false. change (-1 =? 1)%Z with false.
        cbn [orb andb].
        unfold slice. rewrite <- (length_skipn d p), firstn_all.
        rewrite skipn_nth_cons by lia. congruence.
Qed.

End ExtnameProperties.

(** ** Properties of [scanDirectory] *)

Section ScannerProperties.

Import FileScanner.

Variable path_join : jsstring -> jsstring -> jsstring.

#[local] Abbreviation scanDir := (scanDirectory path_join).

Lemma total_size_app l1 l2 :
  total_size (l1 ++ l2) = (total_size l1 + total_size l2)%N.
Proof.
  induction l1 as [|f l1 IH]; [reflexivity|].
  cbn [app total_size fold_right]. fold (total_size (l1 ++ l2)).
  fold (total_size l1). rewrite IH. lia.
Qed.

Lemma result_of_eq {A} (m : io unit A) (x : error + A) :
  result_of m tt = x -> exists t, m tt = (t, tt, x).
Proof.
  unfold result_of. destruct (m tt) as [[t []] y]. cbn. intros ->. now exists t.
Qed.

Lemma log_of_eq {A} (m : io unit A) :
  exists x, m tt = (log_of m tt, tt, x).
Proof.
  unfold log_of. destruct (m tt) as [[t []] y]. cbn. now exists y.
Qed.

(** Only an error that is not a permission error leaves a scan. *)
Lemma loop_throws_fatal p o entries :
  Forall (fun en => forall p o s t s' e,
            scanDir (snd en) p o s = (t, s', inl e) ->
            is_permission_error e = false) entries ->
  forall r0 t r e,
    scan_entries path_join scanDir p o entries r0 = (t, r, inl e) ->
    is_permission_error e = false.
Proof.
  induction entries as [|[ename child] rest IHrest]; intros Hall r0 t r e Hl.
  - rewrite loop_nil in Hl. discriminate.
  - rewrite loop_cons in Hl. inversion Hall as [|? ? Hchild Hrest]; subst.
    destruct (scan_entry _ _ _ _ _ _) as [[t1 r1] [e1|[]]] eqn:Hb.
    + inversion Hl; subst. cbn [snd] in Hchild.
      destruct child as [[e0|sz]|sub_entries|e0|];
        try (cbn in Hb; discriminate).
      * rewrite body_directory in Hb by reflexivity.
        destruct (excluded o ename); [discriminate|].
        destruct (descends o); [|discriminate].
        destruct (scanDir _ _ _ tt) as [[t2 u2] [e2|sub]] eqn:Hs;
          inversion Hb; subst. eapply Hchild; eauto.
      * rewrite body_directory in Hb by reflexivity.
        destruct (excluded o ename); [discriminate|].
        destruct (descends o); [|discriminate].
        destruct (scanDir _ _ _ tt) as [[t2 u2] [e2|sub]] eqn:Hs;
          inversion Hb; subst. eapply Hchild; eauto.
    + destruct (scan_entries _ _ _ _ rest r1) as [[t2 r2] x2] eqn:Hl2.
      inversion Hl; subst. eapply IHrest; eauto.
Qed.

Lemma scan_throws_fatal n :
  forall p o s t s' e,
    scanDir n p o s = (t, s', inl e) -> is_permission_error e = false.
Proof.
  induction n as [st|entries IH|e0|] using fsnode_tree_ind;
    intros p o s t s' e Hs.
  - rewrite (scanDirectory_fails path_join (RegularFile st) p o s eq_refl)
      in Hs.
    cbn in Hs. inversion Hs; subst. reflexivity.
  - rewrite scanDirectory_directory in Hs.
    destruct (scan_entries _ _ _ _ _ _) as [[t1 r1] [e1|[]]] eqn:Hl;
      [|discriminate].
    destruct (is_permission_error e1) eqn:He1; [discriminate|].
    inversion Hs; subst. exact He1.
  - rewrite (scanDirectory_fails path_join (UnreadableDir e0) p o s eq_refl)
      in Hs.
    destruct (is_permission_error e0) eqn:He0; [discriminate|].
    inversion Hs; subst. exact He0.
  - rewrite (scanDirectory_fails path_join Special p o s eq_refl) in Hs.
    cbn in Hs. inversion Hs; subst. reflexivity.
Qed.

(** A scan of a listed directory returns exactly when its loop runs to
    the end. *)
Lemma scan_directory_returns entries p o s t s' r :
  scanDir (Directory entries) p o s = (t, s', inr r) ->
  exists t1,
    scan_entries path_join scanDir p o entries empty_result = (t1, r, inr tt)
    /\ t = Readdir p :: t1.
Proof.
  intros Hs. rewrite scanDirectory_directory in Hs.
  destruct (scan_entries _ _ _ _ _ _) as [[t1 r1] [e1|[]]] eqn:Hl.
  - assert (He : is_permission_error e1 = false).
    { eapply loop_throws_fatal; [|exact Hl].
      rewrite Forall_forall. intros en _. apply scan_throws_fatal. }
    rewrite He in Hs. discriminate.
  - inversion Hs; subst. now exists t1.
Qed.

Lemma scan_totalSize n p o s t s' r :
  scanDir n p o s = (t, s', inr r) -> totalSize r = total_size (files r).
Proof.
  apply (@scan_invariant path_join (get_excludeDirs o)
           (fun _ _ r => totalSize r = total_size (files r)));
    try (intros; reflexivity).
  - intros; cbn; assumption.
  - intros entries q ename sz r0 _ H0. unfold push_file.
    cbn [files totalSize]. rewrite total_size_app, H0. cbn. lia.
  - intros entries q ename child r0 sub _ _ _ H0 H1. unfold merge.
    cbn [files totalSize]. rewrite total_size_app, H0, H1. reflexivity.
Qed.


(** C8, as the code has it.  The [extension] of a file entry is what
    [path.extname] returns for its [name], in the case the name has:
    for a name without a separator, the suffix of the name from its
    last dot, or the empty string when the name has no dot, or no dot
    but its first character, or is [..]. *)
Theorem extension_is_extname (n : fsnode) (p : jsstring)
  (o : ScanOptions) (r : ScanResult) (f : FileEntry) :
  result_of (scanDir n p o) tt = inr r ->
  In f (files r) ->
  extension f = Path.extname (name f)
  /\ (~ In SLASH (name f) ->
      (extension f = []
       /\ (~ In DOT (name f)
           \/ (exists tail, name f = DOT :: tail /\ ~ In DOT tail)
           \/ name f = [DOT; DOT]))
      \/ (exists base tail,
             name f = base ++ DOT :: tail /\ base <> [] /\ ~ In DOT tail
             /\ name f <> [DOT; DOT]
             /\ extension f = DOT :: tail)).
Proof.
  intros H Hf. apply result_of_eq in H. destruct H as [t H].
  assert (He : extension f = Path.extname (name f)).
  { revert f Hf. revert H.
    apply (@scan_invariant path_join (get_excludeDirs o)
             (fun _ _ r => forall f, In f (files r) ->
                                     extension f = Path.extname (name f)));
      try (intros; reflexivity).
    - intros _ _ f [].
    - intros; cbn in *; auto.
    - intros entries q ename sz r0 _ H0 f Hf. cbn in Hf.
      apply in_app_or in Hf. destruct Hf as [Hf|[<-|[]]]; auto.
    - intros entries q ename child r0 sub _ _ _ H0 H1 f Hf. cbn in Hf.
      apply in_app_or in Hf. destruct Hf; auto. }
  split; [exact He|]. intros Hslash. rewrite He.
  now apply extname_last_dot.
Qed.

Lemma located_child entries ename child rel m :
  In (ename, child) entries -> located child rel m ->
  located (Directory entries) (ename :: rel) m.
Proof. intros; econstructor; eauto. Qed.

(** C3.  With the exclusion list [E]: every directory path returned is
    that of a directory of the tree whose name, and the names of the
    directories above it up to the root, are not in [E]; every file
    returned lies under directories whose names are not in [E]; and
    [readdir] is only ever called on such directories (or the root). *)
Theorem excluded_directories_are_skipped (n : fsnode) (p : jsstring)
  (o : ScanOptions) :
  (forall q, In (Readdir q) (log_of (scanDir n p o) tt) ->
             reached_clear path_join (get_excludeDirs o) n p q)
  /\ (forall r, result_of (scanDir n p o) tt = inr r ->
        (forall d, In d (directories r) ->
                   directory_clear path_join (get_excludeDirs o) n p d)
        /\ (forall f, In f (files r) ->
                      file_clear path_join (get_excludeDirs o) n p f)).
Proof.
  set (E := get_excludeDirs o). split.
  - destruct (log_of_eq (scanDir n p o)) as [x Hx].
    intros q Hq.
    pose proof (@scan_log path_join E
      (fun n p ev => match ev with
                     | Readdir q => reached_clear path_join E n p q
                     | _ => True
                     end)) as HL.
    assert (HF : Forall (fun ev => match ev with
                     | Readdir q => reached_clear path_join E n p q
                     | _ => True
                     end) (log_of (scanDir n p o) tt)).
    { eapply HL; [| | |intros; reflexivity|exact Hx].
      - intros n0 p0. exists [], n0. repeat split; constructor.
      - intros; exact I.
      - intros entries p0 ename child [q0|q0|q0] Hin Hd Hex Hev; try exact I.
        destruct Hev as (rel & m & Hloc & -> & Hclear).
        exists (ename :: rel), m. repeat split.
        + eapply located_child; eassumption.
        + constructor; assumption. }
    rewrite Forall_forall in HF. exact (HF _ Hq).
  - intros r H. apply result_of_eq in H. destruct H as [t H].
    revert H.
    apply (@scan_invariant path_join E
             (fun n p r =>
                (forall d, In d (directories r) ->
                           directory_clear path_join E n p d)
                /\ (forall f, In f (files r) ->
                              file_clear path_join E n p f)));
      try (intros; reflexivity).
    + intros; split; intros ? [].
    + intros entries q ename child r0 Hin Hd Hex [HD HF]. split; [|exact HF].
      intros d Hdin. cbn in Hdin. apply in_app_or in Hdin.
      destruct Hdin as [Hdin|[<-|[]]]; [now apply HD|].
      exists [ename], child. repeat split.
      * discriminate.
      * apply located_child with (child := child); [assumption|constructor].
      * assumption.
      * constructor; [assumption|constructor].
    + intros entries q ename sz r0 Hin [HD HF]. split; [exact HD|].
      intros f Hfin. cbn in Hfin. apply in_app_or in Hfin.
      destruct Hfin as [Hfin|[<-|[]]]; [now apply HF|].
      exists [], (inr sz). repeat split.
      * cbn. apply located_child with (child := RegularFile (inr sz));
          [assumption|constructor].
      * constructor.
    + intros entries q ename child r0 sub Hin Hd Hex [HD HF] [HD' HF'].
      split.
      * intros d Hdin. cbn in Hdin. apply in_app_or in Hdin.
        destruct Hdin as [Hdin|Hdin]; [now apply HD|].
        destruct (HD' _ Hdin) as (rel & m & Hne & Hloc & Hm & -> & Hclear).
        exists (ename :: rel), m. repeat split.
        -- discriminate.
        -- eapply located_child; eassumption.
        -- assumption.
        -- constructor; assumption.
      * intros f Hfin. cbn in Hfin. apply in_app_or in Hfin.
        destruct Hfin as [Hfin|Hfin]; [now apply HF|].
        destruct (HF' _ Hfin) as (rel & st & Hloc & Hp & Hclear).
        exists (ename :: rel), st. repeat split.
        -- cbn. eapply located_child; eassumption.
        -- rewrite Hp. reflexivity.
        -- constructor; assumption.
Qed.

(** *** Depth *)

Lemma readdir_calls_stat_calls p entries :
  readdir_calls (stat_calls path_join p entries) = [].
Proof.
  induction entries as [|[ename [st| | |]] rest IH]; cbn; auto.
Qed.

Lemma result_eq (a b : ScanResult) :
  files a = files b -> directories a = directories b ->
  totalSize a = totalSize b -> a = b.
Proof. destruct a, b; cbn; intros; subst; reflexivity. Qed.

(** The loop of a scan that does not descend. *)
Lemma loop_shallow p o entries :
  descends o = false ->
  forall r0,
    scan_entries path_join scanDir p o entries r0 =
    (stat_calls path_join p entries,
     {| files := files r0 ++ immediate_files path_join p entries;
        directories :=
          directories r0
          ++ immediate_directories path_join (get_excludeDirs o) p entries;
        totalSize :=
          totalSize r0 + total_size (immediate_files path_join p entries) |},
     inr tt).
Proof.
  intros Hd. induction entries as [|[ename child] rest IH]; intros r0.
  - rewrite loop_nil. cbn. rewrite !app_nil_r, N.add_0_r.
    destruct r0; reflexivity.
  - rewrite loop_cons.
    assert (Hdir : isDirectory child = true ->
      scan_entry path_join scanDir p o (ename, child) r0 =
      ([], if excluded o ename then r0
           else push_directory r0 (path_join p ename), inr tt)).
    { intros Hc. rewrite body_directory by exact Hc. rewrite Hd.
      destruct (excluded o ename); reflexivity. }
    destruct child as [[e|sz]|sub_entries|e|].
    + rewrite body_file_fails, IH. reflexivity.
    + rewrite body_file_ok, IH. f_equal. f_equal. apply result_eq.
      * cbn. rewrite <- app_assoc. reflexivity.
      * reflexivity.
      * cbn [totalSize push_file size mkFileEntry].
        change (total_size
                  (immediate_files path_join p
                     ((ename, RegularFile (inr sz)) :: rest)))
          with (sz + total_size (immediate_files path_join p rest))%N.
        lia.
    + rewrite Hdir by reflexivity. rewrite IH. unfold excluded. cbn.
      destruct (includes (get_excludeDirs o) ename); cbn;
        rewrite <- ?app_assoc; reflexivity.
    + rewrite Hdir by reflexivity. rewrite IH. unfold excluded. cbn.
      destruct (includes (get_excludeDirs o) ename); cbn;
        rewrite <- ?app_assoc; reflexivity.
    + rewrite body_special, IH. reflexivity.
Qed.

(** C7.  With [maxDepth = 0] (and [currentDepth] left to its default):
    [readdir] is called once, on the root; the files returned are the
    entries of the regular files directly in the root; and the
    directories directly in the root that are not excluded are all
    returned. *)
Theorem maxDepth_zero_scans_the_root_only (n : fsnode) (p : jsstring)
  (o : ScanOptions) :
  maxDepth o = Some (Finite 0) ->
  currentDepth o = None ->
  readdir_calls (log_of (scanDir n p o) tt) = [p]
  /\ (forall entries,
        listing n = inr entries ->
        exists r,
          result_of (scanDir n p o) tt = inr r
          /\ files r = immediate_files path_join p entries
          /\ directories r =
             immediate_directories path_join (get_excludeDirs o) p entries).
Proof.
  intros Hm Hc.
  assert (Hd : descends o = false).
  { unfold descends, get_currentDepth, get_maxDepth. rewrite Hm, Hc.
    reflexivity. }
  split.
  - destruct (listing n) as [e|entries] eqn:Hl.
    + unfold log_of.
      rewrite (scanDirectory_fails path_join n p o tt Hl).
      destruct (is_permission_error e); reflexivity.
    + destruct n; cbn in Hl; try discriminate. inversion Hl; subst.
      unfold log_of. rewrite scanDirectory_directory, loop_shallow by exact Hd.
      cbn. rewrite readdir_calls_stat_calls. reflexivity.
  - intros entries Hl.
    destruct n; cbn in Hl; try discriminate. inversion Hl; subst.
    unfold result_of. rewrite scanDirectory_directory, loop_shallow by exact Hd.
    cbn. eexists. split; [reflexivity|]. split; reflexivity.
Qed.

(** *** Files *)

Lemma loop_keeps_files p o entries :
  forall r0 t r x f,
    scan_entries path_join scanDir p o entries r0 = (t, r, x) ->
    In f (files r0) -> In f (files r).
Proof.
  induction entries as [|[ename child] rest IH]; intros r0 t r x f Hl Hf.
  - rewrite loop_nil in Hl. inversion Hl; subst; assumption.
  - rewrite loop_cons in Hl.
    destruct (scan_entry _ _ _ _ _ _) as [[t1 r1] x1] eqn:Hb.
    assert (H1 : In f (files r1)).
    { destruct child as [[e|sz]|sub_entries|e|].
      - rewrite body_file_fails in Hb. inversion Hb; subst; assumption.
      - rewrite body_file_ok in Hb. inversion Hb; subst. cbn.
        apply in_or_app. now left.
      - rewrite body_directory in Hb by reflexivity.
        destruct (excluded o ename); [inversion Hb; subst; assumption|].
        destruct (descends o); [|inversion Hb; subst; assumption].
        destruct (scanDir _ _ _ tt) as [[t2 u2] [e2|sub]];
          inversion Hb; subst; cbn; [assumption|].
        apply in_or_app. now left.
      - rewrite body_directory in Hb by reflexivity.
        destruct (excluded o ename); [inversion Hb; subst; assumption|].
        destruct (descends o); [|inversion Hb; subst; assumption].
        destruct (scanDir _ _ _ tt) as [[t2 u2] [e2|sub]];
          inversion Hb; subst; cbn; [assumption|].
        apply in_or_app. now left.
      - rewrite body_special in Hb. inversion Hb; subst; assumption. }
    destruct x1 as [e1|[]].
    + inversion Hl; subst; assumption.
    + destruct (scan_entries _ _ _ _ rest r1) as [[t2 r2] x2] eqn:Hl2.
      inversion Hl; subst. eapply IH; eauto.
Qed.

Lemma loop_records_file p o entries ename sz :
  In (ename, RegularFile (inr sz)) entries ->
  forall r0 t r,
    scan_entries path_join scanDir p o entries r0 = (t, r, inr tt) ->
    In (mkFileEntry (path_join p ename) ename sz) (files r).
Proof.
  induction entries as [|en rest IH]; intros Hin r0 t r Hl; [destruct Hin|].
  rewrite loop_cons in Hl.
  destruct (scan_entry _ _ _ _ _ _) as [[t1 r1] [e1|[]]] eqn:Hb;
    [discriminate|].
  destruct (scan_entries _ _ _ _ rest r1) as [[t2 r2] x2] eqn:Hl2.
  inversion Hl; subst.
  destruct Hin as [->|Hin].
  - rewrite body_file_ok in Hb. inversion Hb; subst.
    eapply loop_keeps_files; [exact Hl2|]. cbn. apply in_or_app.
    right. now left.
  - eapply IH; eauto.
Qed.


(** *** Errors of a listing *)

Lemma loop_app p o pre post r0 :
  scan_entries path_join scanDir p o (pre ++ post) r0 =
  match scan_entries path_join scanDir p o pre r0 with
  | (t, r, inl e) => (t, r, inl e)
  | (t, r, inr _) =>
      match scan_entries path_join scanDir p o post r with
      | (t', r', x) => (t ++ t', r', x)
      end
  end.
Proof.
  revert r0. induction pre as [|en pre IH]; intros r0.
  - rewrite loop_nil. cbn [app].
    destruct (scan_entries _ _ _ _ post r0) as [[t' r'] x]. reflexivity.
  - cbn [app]. rewrite !loop_cons.
    destruct (scan_entry _ _ _ _ _ _) as [[t1 r1] [e1|[]]]; [reflexivity|].
    rewrite IH.
    destruct (scan_entries _ _ _ _ pre r1) as [[t2 r2] [e2|[]]];
      [reflexivity|].
    destruct (scan_entries _ _ _ _ post r2) as [[t3 r3] x3].
    rewrite app_assoc. reflexivity.
Qed.

(** C6, as the code has it.  A listing that fails with [EACCES] or
    [EPERM] is swallowed: the scan of that directory returns the empty
    result.  A listing that fails with any other code, [ENOENT]
    included, throws; nothing but such an error ever leaves a scan; and
    an error that leaves the scan of a subdirectory leaves the scan of
    the directory above it. *)
Theorem listing_errors (p : jsstring) (o : ScanOptions) :
  (forall n e,
      listing n = inl e -> is_permission_error e = true ->
      scanDir n p o tt = ([Readdir p], tt, inr empty_result))
  /\ (forall n e,
        listing n = inl e -> is_permission_error e = false ->
        scanDir n p o tt = ([Readdir p], tt, inl e))
  /\ (forall n e,
        result_of (scanDir n p o) tt = inl e ->
        is_permission_error e = false)
  /\ (forall pre ename child post e,
        isDirectory child = true ->
        excluded o ename = false ->
        descends o = true ->
        result_of (scan_entries path_join scanDir p o pre) empty_result
          = inr tt ->
        result_of (scanDir child (path_join p ename) (child_options o)) tt
          = inl e ->
        result_of (scanDir (Directory (pre ++ (ename, child) :: post)) p o) tt
          = inl e).
Proof.
  repeat split.
  - intros n e Hl He. rewrite (scanDirectory_fails path_join n p o tt Hl), He.
    reflexivity.
  - intros n e Hl He. rewrite (scanDirectory_fails path_join n p o tt Hl), He.
    reflexivity.
  - intros n e H. apply result_of_eq in H. destruct H as [t H].
    eapply scan_throws_fatal; exact H.
  - intros pre ename child post e Hc Hx Hd Hpre Hchild.
    apply result_of_eq in Hchild. destruct Hchild as [tc Hchild].
    pose proof (scan_throws_fatal _ _ _ _ Hchild) as He.
    unfold result_of in *. rewrite scanDirectory_directory, loop_app.
    destruct (scan_entries _ _ _ _ pre empty_result) as [[t1 r1] x1].
    cbn in Hpre. subst x1. rewrite loop_cons.
    rewrite body_directory by exact Hc. rewrite Hx, Hd, Hchild.
    rewrite He. reflexivity.
Qed.

End ScannerProperties.

(** ** Properties of the matcher *)

Section RegExpProperties.

Import RegExp.

(** The equations of the quantifiers. *)
Lemma match_star_greedy cs ts s c :
  match_seq (Star true cs :: ts) s c =
  match s with
  | ch :: s' =>
      if accepts cs ch then
        match match_seq (Star true cs :: ts) s' c with
        | Some r => Some r
        | None => match_seq ts s c
        end
      else match_seq ts s c
  | [] => match_seq ts s c
  end.
Proof. destruct s; reflexivity. Qed.

Lemma match_star_lazy cs ts s c :
  match_seq (Star false cs :: ts) s c =
  match match_seq ts s c with
  | Some r => Some r
  | None =>
      match s with
      | ch :: s' =>
          if accepts cs ch then match_seq (Star false cs :: ts) s' c else None
      | [] => None
      end
  end.
Proof. destruct s; reflexivity. Qed.

Lemma match_plus g cs ts s c :
  match_seq (Plus g cs :: ts) s c =
  match s with
  | ch :: s' =>
      if accepts cs ch then match_seq (Star g cs :: ts) s' c else None
  | [] => None
  end.
Proof. destruct g, s; reflexivity. Qed.

Lemma match_star_sound g cs ts :
  (forall s c rest c',
      match_seq ts s c = Some (rest, c') ->
      exists w, s = w ++ rest /\ derives ts w) ->
  forall s c rest c',
    match_seq (Star g cs :: ts) s c = Some (rest, c') ->
    exists w, s = w ++ rest /\ derives (Star g cs :: ts) w.
Proof.
  intros IH s. induction s as [|ch s' IHs]; intros c rest c' H.
  - assert (H' : match_seq ts [] c = Some (rest, c')).
    { destruct g; [rewrite match_star_greedy in H; exact H|].
      rewrite match_star_lazy in H.
      destruct (match_seq ts [] c); [exact H|discriminate]. }
    apply IH in H'. destruct H' as (w & Hw & Hd).
    exists w. split; [exact Hw|now constructor].
  - assert (H' : match_seq ts (ch :: s') c = Some (rest, c')
                 \/ (accepts cs ch = true
                     /\ match_seq (Star g cs :: ts) s' c = Some (rest, c'))).
    { destruct g.
      - rewrite match_star_greedy in H.
        destruct (accepts cs ch); [|now left].
        destruct (match_seq (Star true cs :: ts) s' c) as [r|];
          [right; split; [reflexivity|exact H] | now left].
      - rewrite match_star_lazy in H.
        destruct (match_seq ts (ch :: s') c) as [r|]; [now left|].
        destruct (accepts cs ch); [right; split; auto | discriminate]. }
    destruct H' as [H'|[Ha H']].
    + apply IH in H'. destruct H' as (w & Hw & Hd).
      exists w. split; [exact Hw|now constructor].
    + apply IHs in H'. destruct H' as (w & -> & Hd).
      exists (ch :: w). split; [reflexivity|].
      now apply derives_star_more.
Qed.

(** What the matcher consumes has the shape of the sequence. *)
Lemma match_seq_sound ts :
  forall s c rest c',
    match_seq ts s c = Some (rest, c') ->
    exists w, s = w ++ rest /\ derives ts w.
Proof.
  induction ts as [|[cs|g cs|cs|g cs|i|i] ts IH]; intros s c rest c' H.
  - inversion H; subst. exists []. split; [reflexivity|constructor].
  - destruct s as [|ch s']; [discriminate|]. cbn in H.
    destruct (accepts cs ch) eqn:Ha; [|discriminate].
    apply IH in H. destruct H as (w & -> & Hd).
    exists (ch :: w). split; [reflexivity|now constructor].
  - eapply match_star_sound; eauto.
  - assert (H' : match_seq ts s c = Some (rest, c')
                 \/ exists ch s', s = ch :: s' /\ accepts cs ch = true
                                  /\ match_seq ts s' c = Some (rest, c')).
    { destruct s as [|ch s']; [now left|]. cbn in H.
      destruct (accepts cs ch) eqn:Ha; [|now left].
      destruct (match_seq ts s' c) as [r|] eqn:Hm; [|now left].
      right. exists ch, s'. repeat split; auto. congruence. }
    destruct H' as [H'|(ch & s' & -> & Ha & H')].
    + apply IH in H'. destruct H' as (w & Hw & Hd).
      exists w. split; [exact Hw|now constructor].
    + apply IH in H'. destruct H' as (w & -> & Hd).
      exists (ch :: w). split; [reflexivity|now apply derives_opt_some].
  - rewrite match_plus in H. destruct s as [|ch s']; [discriminate|].
    destruct (accepts cs ch) eqn:Ha; [|discriminate].
    eapply match_star_sound in H; [|exact IH].
    destruct H as (w & -> & Hd).
    exists (ch :: w). split; [reflexivity|now constructor].
  - cbn in H. apply IH in H. destruct H as (w & Hw & Hd).
    exists w. split; [exact Hw|now constructor].
  - cbn in H. apply IH in H. destruct H as (w & Hw & Hd).
    exists w. split; [exact Hw|now constructor].
Qed.

(** A string of the shape of the sequence is matched, whatever follows
    it. *)
Lemma match_seq_complete ts w :
  derives ts w ->
  forall rest c, match_seq ts (w ++ rest) c <> None.
Proof.
  induction 1 as [|cs ts ch w Ha Hd IH|g cs ts w Hd IH|g cs ts ch w Ha Hd IH
                  |cs ts w Hd IH|cs ts ch w Ha Hd IH|g cs ts ch w Ha Hd IH
                  |i ts w Hd IH|i ts w Hd IH]; intros rest c.
  - discriminate.
  - cbn. rewrite Ha. apply IH.
  - destruct g.
    + rewrite match_star_greedy. specialize (IH rest c).
      destruct (w ++ rest) as [|ch s']; [exact IH|].
      destruct (accepts cs ch); [|exact IH].
      destruct (match_seq (Star true cs :: ts) s' c); [discriminate|exact IH].
    + rewrite match_star_lazy. specialize (IH rest c).
      destruct (match_seq ts (w ++ rest) c); [discriminate|contradiction].
  - destruct g.
    + cbn [app]. rewrite match_star_greedy, Ha. specialize (IH rest c).
      destruct (match_seq (Star true cs :: ts) (w ++ rest) c);
        [discriminate|contradiction].
    + cbn [app]. rewrite match_star_lazy, Ha.
      destruct (match_seq ts (ch :: w ++ rest) c); [discriminate|apply IH].
  - specialize (IH rest c). cbn.
    destruct (w ++ rest) as [|ch s']; [exact IH|].
    destruct (accepts cs ch); [|exact IH].
    destruct (match_seq ts s' c); [discriminate|exact IH].
  - cbn. rewrite Ha. specialize (IH rest c).
    destruct (match_seq ts (w ++ rest) c); [discriminate|contradiction].
  - cbn [app]. rewrite match_plus, Ha. apply IH.
  - cbn. apply IH.
  - cbn. apply IH.
Qed.

Lemma match_pattern_sound p :
  forall s rest c,
    match_pattern p s = Some (rest, c) ->
    exists ts w, In ts p /\ s = w ++ rest /\ derives ts w.
Proof.
  induction p as [|ts p IH]; intros s rest c H; [discriminate|].
  cbn in H. destruct (match_seq ts s no_captures) as [[rest' c']|] eqn:Hm.
  - inversion H; subst. apply match_seq_sound in Hm.
    destruct Hm as (w & Hw & Hd). exists ts, w. repeat split; auto. now left.
  - apply IH in H. destruct H as (ts' & w & Hin & Hw & Hd).
    exists ts', w. repeat split; auto. now right.
Qed.

Lemma match_pattern_complete p ts w rest :
  In ts p -> derives ts w -> match_pattern p (w ++ rest) <> None.
Proof.
  induction p as [|ts' p IH]; intros Hin Hd; [destruct Hin|].
  cbn. destruct (match_seq ts' (w ++ rest) no_captures) eqn:Hm;
    [discriminate|].
  destruct Hin as [->|Hin]; [|now apply IH].
  exfalso. eapply match_seq_complete; eauto.
Qed.

(** *** [matchAll] *)

Lemma skipn_cons_inv {A} (l : list A) pos a s' :
  skipn pos l = a :: s' -> skipn (S pos) l = s' /\ S pos <= length l.
Proof.
  revert l. induction pos as [|pos IH]; intros l H.
  - cbn in H. subst l. cbn. split; [reflexivity|lia].
  - destruct l as [|b l]; [discriminate|].
    cbn [skipn] in H. apply IH in H. destruct H as [H1 H2].
    split; [exact H1|cbn; lia].
Qed.

Lemma separated_le a b ms :
  b <= a -> separated a ms -> separated b ms.
Proof.
  destruct ms as [|m ms]; [auto|]. cbn. intros Hle [H1 H2].
  split; [lia|exact H2].
Qed.

Lemma scan_matches_head p s :
  forall rest c,
    match_pattern p s = Some (rest, c) ->
    exists ts w,
      In ts p /\ derives ts w /\ s = w ++ rest
      /\ firstn (length s - length rest) s = w
      /\ length s - length rest = length w.
Proof.
  intros rest c H. apply match_pattern_sound in H.
  destruct H as (ts & w & Hin & -> & Hd).
  exists ts, w. rewrite length_app.
  replace (length w + length rest - length rest) with (length w) by lia.
  repeat split; auto.
  rewrite firstn_app, firstn_all, Nat.sub_diag. cbn. apply app_nil_r.
Qed.

(** Every match is an occurrence of one of the shapes, where its
    [index] says. *)
Lemma scan_matches_occur p content :
  forall s pos skip,
    skipn pos content = s -> pos <= length content ->
    forall m, In m (scan_matches p s pos skip) ->
              occurs_at p content (index m) (whole m).
Proof.
  induction s as [|a s' IH]; intros pos skip Hs Hpos m Hm.
  - destruct skip as [|k]; [|destruct Hm]. cbn [scan_matches] in Hm.
    destruct (match_pattern p []) as [[rest c]|] eqn:Hp; [|destruct Hm].
    destruct Hm as [<-|[]]. cbn [index whole].
    destruct (@scan_matches_head p _ _ _ Hp)
      as (ts & w & Hin & Hd & Hw & Hf & Hlen).
    exists ts, rest. rewrite Hf. repeat split; auto.
    rewrite Hs. exact Hw.
  - destruct (skipn_cons_inv _ _ Hs) as [Hs' Hpos'].
    destruct skip as [|k].
    + cbn [scan_matches] in Hm.
      destruct (match_pattern p (a :: s')) as [[rest c]|] eqn:Hp.
      * destruct Hm as [<-|Hm]; [|eapply IH; eauto].
        cbn [index whole].
        destruct (@scan_matches_head p _ _ _ Hp)
          as (ts & w & Hin & Hd & Hw & Hf & Hlen).
        exists ts, rest. rewrite Hf. repeat split; auto.
        rewrite Hs. exact Hw.
      * eapply IH; eauto.
    + cbn [scan_matches] in Hm. eapply IH; eauto.
Qed.

(** The matches do not overlap, and come in the order of the content. *)
Lemma scan_matches_separated p :
  forall s pos skip, separated (pos + skip) (scan_matches p s pos skip).
Proof.
  induction s as [|a s' IH]; intros pos skip.
  - destruct skip as [|k]; [|exact I]. cbn.
    destruct (match_pattern p []) as [[rest c]|]; [|exact I].
    cbn. split; [lia|exact I].
  - destruct skip as [|k].
    + cbn [scan_matches].
      destruct (match_pattern p (a :: s')) as [[rest c]|] eqn:Hp.
      * destruct (@scan_matches_head p _ _ _ Hp)
          as (ts & w & Hin & Hd & Hw & Hf & Hlen).
        cbn [separated index whole]. split; [lia|].
        rewrite Hf, <- Hlen.
        eapply separated_le; [|apply IH]. lia.
      * eapply separated_le; [|apply IH]. lia.
    + cbn [scan_matches]. eapply separated_le; [|apply IH]. lia.
Qed.

(** No occurrence is passed over: the position of every occurrence at or
    after the point the search stands at is the [index] of a match or
    lies inside a match. *)
Lemma scan_matches_cover p content :
  forall s pos skip,
    skipn pos content = s -> skip <= length s ->
    forall i w,
      pos + skip <= i -> occurs_at p content i w ->
      exists m,
        In m (scan_matches p s pos skip)
        /\ index m <= i
        /\ (i = index m \/ i < index m + length (whole m)).
Proof.
  induction s as [|a s' IH]; intros pos skip Hs Hskip i w Hi Hocc.
  - cbn in Hskip. assert (skip = 0) by lia. subst skip.
    destruct Hocc as (ts & rest & Hin & Hd & Hle & Hw).
    assert (Hlen : length content <= pos).
    { destruct (Nat.le_gt_cases (length content) pos) as [|Hlt]; auto.
      apply (f_equal (@length _)) in Hs. rewrite length_skipn in Hs.
      cbn in Hs. lia. }
    assert (i = pos) by lia. subst i.
    rewrite Hs in Hw.
    pose proof (@match_pattern_complete p ts w rest Hin Hd) as Hc.
    rewrite <- Hw in Hc. cbn [scan_matches].
    destruct (match_pattern p []) as [[rest' c]|]; [|contradiction].
    eexists. split; [left; reflexivity|]. cbn. split; [lia|now left].
  - destruct (skipn_cons_inv _ _ Hs) as [Hs' Hpos'].
    destruct skip as [|k].
    + cbn [scan_matches].
      destruct (Nat.eq_dec i pos) as [->|Hne].
      * destruct Hocc as (ts & rest & Hin & Hd & Hle & Hw).
        rewrite Hs in Hw.
        pose proof (@match_pattern_complete p ts w rest Hin Hd) as Hc.
        rewrite <- Hw in Hc.
        destruct (match_pattern p (a :: s')) as [[rest' c]|];
          [|contradiction].
        eexists. split; [left; reflexivity|]. cbn. split; [lia|now left].
      * destruct (match_pattern p (a :: s')) as [[rest c]|] eqn:Hp.
        -- destruct (@scan_matches_head p _ _ _ Hp)
             as (ts & w' & Hin & Hd & Hw & Hf & Hlen).
           destruct (Nat.lt_ge_cases i (pos + length w')) as [Hlt|Hge].
           ++ eexists. split; [left; reflexivity|]. cbn [index whole].
              rewrite Hf. split; [lia|right; exact Hlt].
           ++ destruct (IH (S pos) (length (a :: s') - length rest - 1)
                          Hs') with (i := i) (w := w)
                as (m & Hm & Hle & Hor); auto.
              ** cbn [length] in *. lia.
              ** lia.
              ** exists m. split; [right; exact Hm|]. split; assumption.
        -- destruct (IH (S pos) 0 Hs') with (i := i) (w := w)
             as (m & Hm & Hle & Hor); auto; try lia.
           exists m. repeat split; assumption.
    + cbn [scan_matches]. cbn in Hskip.
      destruct (IH (S pos) k Hs') with (i := i) (w := w)
        as (m & Hm & Hle & Hor); auto; try lia.
      exists m. repeat split; assumption.
Qed.

End RegExpProperties.

(** ** Properties of [scanForTodos] *)

Section TodoProperties.

Import TodoScanner.

Variable toLowerCase : jsstring -> jsstring.
Variable disk : jsstring -> error + jsstring.

#[local] Abbreviation scan_file := (TodoScanner.scan_file toLowerCase disk).
#[local] Abbreviation scan_files := (TodoScanner.scan_files toLowerCase disk).
#[local] Abbreviation scanTodos := (scanForTodos toLowerCase disk).
#[local] Abbreviation code_file := (is_code_file toLowerCase).
#[local] Abbreviation file_effect := (TodoScanner.file_effect toLowerCase disk).
#[local] Abbreviation file_log := (TodoScanner.file_log toLowerCase).

Lemma scan_file_eq f r :
  scan_file f r = (file_log f, file_effect f r, inr tt).
Proof.
  unfold TodoScanner.scan_file, TodoScanner.file_log, TodoScanner.file_effect.
  destruct (code_file f); [|reflexivity]. cbn [negb].
  unfold try_catch, bind, readFile, emit, modify, ret, throw.
  destruct (disk (FileScanner.path f)) as [e|content]; reflexivity.
Qed.

Lemma scan_files_eq files r :
  scan_files files r =
  (flat_map file_log files, fold_left (fun r f => file_effect f r) files r,
   inr tt).
Proof.
  revert r. induction files as [|f rest IH]; intros r; [reflexivity|].
  cbn [TodoScanner.scan_files]. unfold bind at 1.
  rewrite scan_file_eq, IH. reflexivity.
Qed.

Lemma scanForTodos_eq files :
  scanTodos files tt =
  (flat_map file_log files,
   tt,
   inr (set_totalCount
          (fold_left (fun r f => file_effect f r) files empty_results))).
Proof.
  unfold scanForTodos, call, bind. rewrite scan_files_eq.
  cbn. rewrite !app_nil_r. reflexivity.
Qed.

Lemma scan_kind_locals k fname content st :
  let st' := scan_kind k fname content st in
  fileCount (results st') = fileCount (results st)
  /\ fileDetails (results st') = fileDetails (results st)
  /\ ((hasComments st = true -> has_comments (fileResults st)) ->
      hasComments st' = true -> has_comments (fileResults st')).
Proof.
  unfold scan_kind.
  generalize (RegExp.matchAll (patterns k) content). intros ms. revert st.
  induction ms as [|m ms IH]; intros st; cbn [fold_left].
  - repeat split; auto.
  - specialize (IH (record_match k fname st m)). cbn zeta in IH.
    destruct IH as (H1 & H2 & H3).
    rewrite H1, H2. repeat split.
    + destruct k; reflexivity.
    + destruct k; reflexivity.
    + intros _. apply H3. intros _. unfold has_comments.
      destruct k; cbn.
      * left. intros H. now apply app_eq_nil in H as [_ H].
      * right; left. intros H. now apply app_eq_nil in H as [_ H].
      * right; right. intros H. now apply app_eq_nil in H as [_ H].
Qed.

Lemma scan_content_ok f content r :
  details_ok r -> details_ok (scan_content f content r).
Proof.
  intros [Hc Hd]. unfold scan_content.
  set (st0 := {| results := r; fileResults := _; hasComments := false |}).
  set (st1 := scan_kind TODO _ content st0).
  set (st2 := scan_kind FIXME _ content st1).
  set (st3 := scan_kind HACK _ content st2).
  destruct (scan_kind_locals TODO (FileScanner.name f) content st0)
    as (A1 & B1 & C1).
  destruct (scan_kind_locals FIXME (FileScanner.name f) content st1)
    as (A2 & B2 & C2).
  destruct (scan_kind_locals HACK (FileScanner.name f) content st2)
    as (A3 & B3 & C3).
  fold st1 in A1, B1, C1, A2, B2, C2. fold st2 in A2, B2, C2, A3, B3, C3.
  fold st3 in A3, B3, C3.
  assert (HA : fileCount (results st3) = fileCount r)
    by (rewrite A3, A2, A1; reflexivity).
  assert (HB : fileDetails (results st3) = fileDetails r)
    by (rewrite B3, B2, B1; reflexivity).
  destruct (hasComments st3) eqn:Hh.
  - split; cbn.
    + rewrite HA, HB, length_app, Hc. cbn. lia.
    + rewrite HB. apply Forall_app. split; [exact Hd|].
      constructor; [|constructor].
      apply C3; [|reflexivity]. apply C2. apply C1. discriminate.
  - split; [rewrite HA, HB; exact Hc | rewrite HB; exact Hd].
Qed.

Lemma fold_effect_ok files r :
  details_ok r ->
  details_ok (fold_left (fun r f => file_effect f r) files r).
Proof.
  revert r. induction files as [|f rest IH]; intros r Hr; [exact Hr|].
  cbn [fold_left]. apply IH. unfold TodoScanner.file_effect.
  destruct (code_file f); [|exact Hr].
  destruct (disk _); [exact Hr|]. now apply scan_content_ok.
Qed.

(** C1.  [scanForTodos] returns, and in what it returns [totalCount] is
    the sum of the lengths of [todos], [fixmes] and [hacks], [fileCount]
    is the length of [fileDetails], and every entry of [fileDetails] has
    a comment of some kind. *)
Theorem tag_scan_result_invariants (files : list FileScanner.FileEntry) :
  exists r,
    result_of (scanTodos files) tt = inr r
    /\ totalCount r = length (todos r) + length (fixmes r) + length (hacks r)
    /\ fileCount r = length (fileDetails r)
    /\ (forall d, In d (fileDetails r) ->
                  File.todos d <> [] \/ File.fixmes d <> []
                  \/ File.hacks d <> []).
Proof.
  eexists. unfold result_of. rewrite scanForTodos_eq. cbn [snd].
  split; [reflexivity|].
  destruct (fold_effect_ok files (r := empty_results)) as [Hc Hd].
  { split; [reflexivity|constructor]. }
  split; [reflexivity|]. split; [exact Hc|].
  cbn [fileDetails set_totalCount]. rewrite Forall_forall in Hd. exact Hd.
Qed.

Lemma file_effect_skipped f r :
  (code_file f && readable disk f) = false -> file_effect f r = r.
Proof.
  unfold TodoScanner.file_effect, readable.
  destruct (code_file f); [|reflexivity].
  destruct (disk _); [reflexivity|discriminate].
Qed.

Lemma fold_effect_filter files r :
  fold_left (fun r f => file_effect f r) files r =
  fold_left (fun r f => file_effect f r)
    (filter (fun f => code_file f && readable disk f) files) r.
Proof.
  revert r. induction files as [|f rest IH]; intros r; [reflexivity|].
  cbn [fold_left filter].
  destruct (code_file f && readable disk f) eqn:Hf.
  - cbn [fold_left]. apply IH.
  - rewrite file_effect_skipped by exact Hf. apply IH.
Qed.

(** C9.  [readFile] is called on the files whose lower-cased extension
    is in [scanExtensions], once each and in order, and on no other; the
    result is the one of scanning only the files that are such and that
    [readFile] succeeds on; and no exception leaves [scanForTodos]. *)
Theorem only_code_files_are_read (files : list FileScanner.FileEntry) :
  log_of (scanTodos files) tt =
    map (fun f => ReadFile (FileScanner.path f)) (filter code_file files)
  /\ result_of (scanTodos files) tt =
     result_of
       (scanTodos (filter (fun f => code_file f && readable disk f) files)) tt
  /\ exists r, result_of (scanTodos files) tt = inr r.
Proof.
  unfold log_of, result_of. rewrite !scanForTodos_eq. cbn [fst snd].
  split; [|split].
  - induction files as [|f rest IH]; [reflexivity|].
    cbn [flat_map filter]. unfold TodoScanner.file_log at 1.
    destruct (code_file f); cbn; rewrite IH; reflexivity.
  - rewrite <- fold_effect_filter. reflexivity.
  - eexists. reflexivity.
Qed.

(** *** The comments recorded *)

Lemma comment_of_first_nonempty (m : RegExp.match_object) :
  comment_of m =
  trim (RegExp.first_nonempty
          [RegExp.group m 1; RegExp.group m 2; RegExp.group m 3]).
Proof.
  unfold comment_of, or_else. cbn [RegExp.first_nonempty].
  destruct (RegExp.group m 1) as [[|c1 t1]|];
    destruct (RegExp.group m 2) as [[|c2 t2]|];
    destruct (RegExp.group m 3) as [[|c3 t3]|]; reflexivity.
Qed.

Lemma record_matches k k' fname ms :
  forall st,
    let st' := fold_left (record_match k fname) ms st in
    kind_matches k' (results st') =
      kind_matches k' (results st)
      ++ (if kind_eqb k k'
          then map (fun m => {| file := fname; comment := comment_of m |}) ms
          else [])
    /\ file_comments k' (fileResults st') =
       file_comments k' (fileResults st)
       ++ (if kind_eqb k k' then map comment_of ms else [])
    /\ File.path (fileResults st') = File.path (fileResults st)
    /\ File.name (fileResults st') = File.name (fileResults st).
Proof.
  induction ms as [|m ms IH]; intros st; cbn [fold_left].
  - cbn zeta. destruct (kind_eqb k k'); cbn; rewrite !app_nil_r; auto.
  - specialize (IH (record_match k fname st m)). cbn zeta in *.
    destruct IH as (H1 & H2 & H3 & H4). rewrite H1, H2, H3, H4.
    destruct k, k'; cbn; rewrite <- ?app_assoc; auto.
Qed.

Lemma scan_content_matches f content r k :
  let ms := RegExp.matchAll (patterns k) content in
  kind_matches k (scan_content f content r) =
    kind_matches k r
    ++ map (fun m => {| file := FileScanner.name f; comment := comment_of m |})
         ms
  /\ (forall d, In d (fileDetails (scan_content f content r)) ->
                In d (fileDetails r)
                \/ file_comments k d = map comment_of ms).
Proof.
  cbn zeta. unfold scan_content.
  set (st0 := {| results := r; fileResults := _; hasComments := false |}).
  set (st1 := scan_kind TODO _ content st0).
  set (st2 := scan_kind FIXME _ content st1).
  set (st3 := scan_kind HACK _ content st2).
  destruct (record_matches TODO k (FileScanner.name f)
              (RegExp.matchAll (patterns TODO) content) st0)
    as (A1 & B1 & _).
  destruct (record_matches FIXME k (FileScanner.name f)
              (RegExp.matchAll (patterns FIXME) content) st1)
    as (A2 & B2 & _).
  destruct (record_matches HACK k (FileScanner.name f)
              (RegExp.matchAll (patterns HACK) content) st2)
    as (A3 & B3 & _).
  fold (scan_kind TODO (FileScanner.name f) content st0) in A1, B1.
  fold st1 in A1, B1, A2, B2.
  fold (scan_kind FIXME (FileScanner.name f) content st1) in A2, B2.
  fold st2 in A2, B2, A3, B3.
  fold (scan_kind HACK (FileScanner.name f) content st2) in A3, B3.
  fold st3 in A3, B3.
  assert (HK : kind_matches k (results st3) =
               kind_matches k r
               ++ map (fun m => {| file := FileScanner.name f;
                                   comment := comment_of m |})
                    (RegExp.matchAll (patterns k) content)).
  { rewrite A3, A2, A1. destruct k; cbn; rewrite ?app_nil_r; reflexivity. }
  assert (HF : file_comments k (fileResults st3) =
               map comment_of (RegExp.matchAll (patterns k) content)).
  { rewrite B3, B2, B1. destruct k; cbn; rewrite ?app_nil_r; reflexivity. }
  assert (HD : fileDetails (results st3) = fileDetails r).
  { destruct (scan_kind_locals TODO (FileScanner.name f) content st0)
      as (_ & D1 & _).
    destruct (scan_kind_locals FIXME (FileScanner.name f) content st1)
      as (_ & D2 & _).
    destruct (scan_kind_locals HACK (FileScanner.name f) content st2)
      as (_ & D3 & _).
    fold st1 in D1, D2. fold st2 in D2, D3. fold st3 in D3.
    rewrite D3, D2, D1. reflexivity. }
  destruct (hasComments st3).
  - split.
    + rewrite <- HK. destruct k; reflexivity.
    + intros d Hd. cbn in Hd. rewrite HD in Hd. apply in_app_or in Hd.
      destruct Hd as [Hd|[<-|[]]]; [now left|right; exact HF].
  - split; [exact HK|]. intros d Hd. rewrite HD in Hd. now left.
Qed.

Lemma derives_pattern_nonempty k ts w :
  In ts (patterns k) -> RegExp.derives ts w -> w <> [].
Proof.
  intros Hin Hd.
  destruct Hin as [<-|[<-|[<-|[]]]]; inversion Hd; subst; discriminate.
Qed.

Lemma accepts_letter (c ch : N) :
  (65 <= c <= 90)%N ->
  RegExp.accepts (RegExp.Lit c) ch = true <-> ch = c \/ ch = (c + 32)%N.
Proof.
  intros Hc. unfold RegExp.accepts, RegExp.canonicalize.
  destruct ((97 <=? c) && (c <=? 122))%N eqn:E1.
  { apply andb_prop in E1. destruct E1 as [E1 _].
    apply N.leb_le in E1. lia. }
  destruct ((97 <=? ch) && (ch <=? 122))%N eqn:E2.
  - apply andb_prop in E2. destruct E2 as [E2 E3].
    apply N.leb_le in E2, E3. rewrite N.eqb_eq. lia.
  - rewrite N.eqb_eq. split; [now left|].
    intros [H|H]; [exact H|]. subst ch.
    apply andb_false_iff in E2. destruct E2 as [E2|E2];
      apply N.leb_gt in E2; lia.
Qed.

(** C4.  For a file that is read, and for each kind: the comments
    recorded, in [results] and for the file, are those of the matches of
    the kind's pattern in the whole content, one per match and in
    order, each the first non-empty capture of its match, trimmed; every
    match is an occurrence of one of the three shapes; the matches do
    not overlap; the position of every occurrence is covered by a match;
    and a letter of a pattern accepts both its cases. *)
Theorem comments_are_the_matches (f : FileScanner.FileEntry)
  (content : jsstring) :
  code_file f = true ->
  disk (FileScanner.path f) = inr content ->
  exists r,
    result_of (scanTodos [f]) tt = inr r
    /\ (forall k,
          let ms := RegExp.matchAll (patterns k) content in
          let text m :=
            trim (RegExp.first_nonempty
                    [RegExp.group m 1; RegExp.group m 2; RegExp.group m 3]) in
          kind_matches k r =
            map (fun m => {| file := FileScanner.name f; comment := text m |})
              ms
          /\ (forall d, In d (fileDetails r) ->
                        file_comments k d = map text ms)
          /\ (forall m, In m ms ->
                        RegExp.occurs_at (patterns k) content
                          (RegExp.index m) (RegExp.whole m))
          /\ RegExp.separated 0 ms
          /\ (forall i w,
                RegExp.occurs_at (patterns k) content i w ->
                exists m,
                  In m ms
                  /\ RegExp.index m <= i
                     < RegExp.index m + length (RegExp.whole m)))
    /\ (forall c ch : N,
          (65 <= c <= 90)%N ->
          RegExp.accepts (RegExp.Lit c) ch = true
          <-> ch = c \/ ch = (c + 32)%N).
Proof.
  intros Hcode Hdisk. eexists. unfold result_of.
  rewrite scanForTodos_eq. cbv beta iota delta [snd fold_left].
  split; [reflexivity|]. split; [|exact accepts_letter].
  intros k.
  set (ms := RegExp.matchAll (patterns k) content).
  set (text := fun m =>
         trim (RegExp.first_nonempty
                 [RegExp.group m 1; RegExp.group m 2; RegExp.group m 3])).
  unfold TodoScanner.file_effect. rewrite Hcode, Hdisk.
  destruct (scan_content_matches f content empty_results k) as [HK HF].
  fold ms in HK, HF.
  assert (Htext : forall l, map comment_of l = map text l).
  { intros l. apply map_ext. intros m. apply comment_of_first_nonempty. }
  split; [|split; [|split; [|split]]].
  - transitivity (kind_matches k (scan_content f content empty_results)).
    { destruct k; reflexivity. }
    rewrite HK.
    destruct k; cbn [kind_matches empty_results todos fixmes hacks app];
      apply map_ext; intros m; unfold text;
      rewrite <- comment_of_first_nonempty; reflexivity.
  - intros d Hd. cbn [fileDetails set_totalCount] in Hd.
    destruct (HF d Hd) as [[]|Hc]. rewrite Hc. apply Htext.
  - intros m Hm. eapply scan_matches_occur; [| |exact Hm]; [reflexivity|lia].
  - apply (scan_matches_separated (patterns k) content 0 0).
  - intros i w Hocc.
    destruct (@scan_matches_cover (patterns k) content content 0 0
                eq_refl (Nat.le_0_l _) i w (Nat.le_0_l _) Hocc)
      as (m & Hm & Hle & Hor).
    exists m. split; [exact Hm|]. split; [exact Hle|].
    destruct Hor as [->|Hlt]; [|exact Hlt].
    pose proof (@scan_matches_occur (patterns k) content content 0 0
                  eq_refl (Nat.le_0_l _) m Hm) as (ts & rest & Hin & Hd & _).
    pose proof (derives_pattern_nonempty Hin Hd) as Hne.
    destruct (RegExp.whole m); [contradiction|cbn; lia].
Qed.

End TodoProperties.

(** ** [getFilesWithMostTodos] *)

Section TopFiles.

Import TodoScanner.

Lemma eqb_eq (a b : jsstring) : JS.eqb a b = true <-> a = b.
Proof.
  revert b. induction a as [|x a IH]; intros [|y b]; cbn;
    try (split; [discriminate|discriminate]); [tauto|].
  rewrite andb_true_iff, N.eqb_eq, IH. split.
  - intros [-> ->]. reflexivity.
  - intros H. inversion H. auto.
Qed.

Lemma set_fresh {V} (o : JSObject.t V) k v :
  ~ In k (map fst o) -> JSObject.set o k v = o ++ [(k, v)].
Proof.
  induction o as [|[k' v'] o IH]; intros Hk; [reflexivity|].
  cbn [JSObject.set]. destruct (JS.eqb k k') eqn:He.
  - apply eqb_eq in He. subst. exfalso. apply Hk. now left.
  - cbn [app]. f_equal. apply IH. intros Hin. apply Hk. now right.
Qed.

Lemma count_files_distinct (details : list File.t) :
  forall o,
    NoDup (map fst o ++ map File.name details) ->
    fold_left (fun fileCounts f =>
                 JSObject.set fileCounts (File.name f) (count_of f))
      details o
    = o ++ map (fun f => (File.name f, count_of f)) details.
Proof.
  induction details as [|d details IH]; intros o Hnd.
  - cbn. now rewrite app_nil_r.
  - cbn [fold_left map]. rewrite set_fresh.
    + rewrite IH.
      * rewrite <- app_assoc. reflexivity.
      * rewrite map_app. cbn [map fst]. rewrite <- app_assoc. exact Hnd.
    + cbn [map] in Hnd. apply NoDup_remove_2 in Hnd.
      intros Hin. apply Hnd. apply in_or_app. now left.
Qed.

Lemma values_of_string_keys {V} (o : JSObject.t V) :
  Forall (fun kv => JSObject.array_index (fst kv) = None) o ->
  JSObject.values o = map snd o.
Proof.
  intros Ho. unfold JSObject.values.
  assert (Hi : JSObject.index_properties o = []).
  { induction Ho as [|[k v] o Hk Ho IH]; [reflexivity|].
    cbn [fst] in Hk. cbn [JSObject.index_properties]. rewrite Hk. exact IH. }
  rewrite Hi. cbn [map app].
  induction Ho as [|[k v] o Hk Ho IH]; [reflexivity|].
  cbn [fst] in Hk. cbn [JSObject.index_properties] in Hi. rewrite Hk in Hi.
  cbn [JSObject.string_properties map snd]. rewrite Hk. f_equal. now apply IH.
Qed.

(** Where the names of [fileDetails] are pairwise distinct (and none is
    an array index), every file is counted: the files returned are the
    first [limit] of all the counts, sorted by descending count with
    the order of [fileDetails] kept among equal counts. *)
Lemma getFilesWithMostTodos_distinct_names (r : Results) (limit : Z) :
  NoDup (map File.name (fileDetails r)) ->
  Forall (fun d => JSObject.array_index (File.name d) = None) (fileDetails r) ->
  getFilesWithMostTodos r limit =
  JSArray.slice0
    (JSArray.sort by_count_desc (map count_of (fileDetails r))) limit.
Proof.
  intros Hnd Hix. unfold getFilesWithMostTodos, count_files.
  rewrite count_files_distinct by exact Hnd. cbn [app].
  rewrite values_of_string_keys.
  - rewrite map_map. reflexivity.
  - rewrite Forall_map. exact Hix.
Qed.

(** Whatever the names: every entry returned is the count of a file of
    [fileDetails], and a non-negative [limit] bounds their number. *)
Lemma set_values {V} (o : JSObject.t V) k v kv :
  In kv (JSObject.set o k v) -> In kv o \/ snd kv = v.
Proof.
  induction o as [|[k' v'] o IH]; cbn [JSObject.set].
  - intros [<-|[]]. now right.
  - destruct (JS.eqb k k').
    + intros [<-|Hin]; [now right|left; now right].
    + intros [<-|Hin]; [left; now left|].
      destruct (IH Hin) as [H|H]; [left; now right|now right].
Qed.

Lemma insert_index_in {V} i (v : V) l x :
  In x (JSObject.insert_index i v l) -> x = (i, v) \/ In x l.
Proof.
  induction l as [|[j w] l IH]; cbn [JSObject.insert_index].
  - intros [<-|[]]. now left.
  - destruct (i <? j)%N.
    + intros [<-|Hin]; [now left|now right].
    + intros [<-|Hin]; [right; now left|].
      destruct (IH Hin) as [H|H]; [now left|right; now right].
Qed.

Lemma values_in {V} (o : JSObject.t V) v :
  In v (JSObject.values o) -> In v (map snd o).
Proof.
  unfold JSObject.values. intros Hin. apply in_app_or in Hin.
  destruct Hin as [Hin|Hin].
  - apply in_map_iff in Hin. destruct Hin as ([i w] & <- & Hin). cbn [snd].
    induction o as [|[k v'] o IH]; [destruct Hin|].
    cbn [JSObject.index_properties] in Hin. cbn [map snd].
    destruct (JSObject.array_index k).
    + apply insert_index_in in Hin. destruct Hin as [Heq|Hin].
      * inversion Heq. now left.
      * right. now apply IH.
    + right. now apply IH.
  - induction o as [|[k v'] o IH]; [destruct Hin|].
    cbn [JSObject.string_properties] in Hin. cbn [map snd].
    destruct (JSObject.array_index k).
    + right. now apply IH.
    + destruct Hin as [<-|Hin]; [now left|right; now apply IH].
Qed.

Lemma insert_in {A} (cmp : A -> A -> Z) y l x :
  In x (JSArray.insert cmp y l) -> x = y \/ In x l.
Proof.
  induction l as [|z l IH]; cbn [JSArray.insert].
  - intros [<-|[]]. now left.
  - destruct (cmp y z >? 0)%Z.
    + intros [<-|Hin]; [right; now left|].
      destruct (IH Hin) as [H|H]; [now left|right; now right].
    + intros [<-|Hin]; [now left|now right].
Qed.

Lemma sort_in {A} (cmp : A -> A -> Z) l x :
  In x (JSArray.sort cmp l) -> In x l.
Proof.
  induction l as [|y l IH]; [auto|]. cbn [JSArray.sort fold_right].
  intros Hin. apply insert_in in Hin. destruct Hin as [->|Hin];
    [now left|right; now apply IH].
Qed.

Lemma slice0_in {A} (l : list A) limit x :
  In x (JSArray.slice0 l limit) -> In x l.
Proof.
  assert (H : forall n, In x (firstn n l) -> In x l).
  { intros n Hin. rewrite <- (firstn_skipn n l). apply in_or_app. now left. }
  unfold JSArray.slice0. destruct (limit <? 0)%Z; apply H.
Qed.

Lemma getFilesWithMostTodos_sound (r : Results) (limit : Z) :
  (forall c, In c (getFilesWithMostTodos r limit) ->
             exists d, In d (fileDetails r) /\ c = count_of d)
  /\ ((0 <= limit)%Z ->
      length (getFilesWithMostTodos r limit) <= Z.to_nat limit).
Proof.
  split.
  - intros c Hc. unfold getFilesWithMostTodos in Hc.
    apply slice0_in, sort_in, values_in in Hc.
    unfold count_files in Hc.
    assert (H : forall details (o : JSObject.t Count.t),
               In c (map snd
                       (fold_left
                          (fun fileCounts f =>
                             JSObject.set fileCounts (File.name f) (count_of f))
                          details o)) ->
               In c (map snd o)
               \/ exists d, In d details /\ c = count_of d).
    { induction details as [|d details IH]; intros o Hin; [now left|].
      cbn [fold_left] in Hin. apply IH in Hin.
      destruct Hin as [Hin|(d' & Hd' & ->)].
      - apply in_map_iff in Hin. destruct Hin as (kv & <- & Hin).
        apply set_values in Hin. destruct Hin as [Hin|Hin].
        + left. now apply in_map.
        + right. exists d. split; [now left|exact Hin].
      - right. exists d'. split; [now right|reflexivity]. }
    apply H in Hc. destruct Hc as [[]|Hc]. exact Hc.
  - intros Hl. unfold getFilesWithMostTodos, JSArray.slice0.
    destruct (limit <? 0)%Z eqn:E; [apply Z.ltb_lt in E; lia|].
    apply firstn_le_length.
Qed.

End TopFiles.

(** C5, where the code departs from it.  Of two files of one name only
    the later one is counted, in the place of the earlier one: with
    [a/index.js] holding three comments, [c.js] two and [b/index.js]
    one, the file with the most comments is not returned. *)
Theorem files_of_one_name_share_one_count :
  exists r,
    result_of
      (TodoScanner.scanForTodos toLowerCase_ascii Sample.disk
         Sample.same_names) tt = inr r
    /\ map (fun d => (TodoScanner.File.path d,
                      length (TodoScanner.File.todos d)
                      + length (TodoScanner.File.fixmes d)
                      + length (TodoScanner.File.hacks d)))
         (TodoScanner.fileDetails r)
       = [ (lit "/proj/a/index.js", 3); (lit "/proj/b/index.js", 1);
           (lit "/proj/c.js", 2) ]
    /\ map (fun c => (TodoScanner.Count.path c, TodoScanner.Count.count c))
         (TodoScanner.getFilesWithMostTodos r TodoScanner.default_limit)
       = [ (lit "/proj/c.js", 2); (lit "/proj/b/index.js", 1) ].
Proof.
  eexists. split; [vm_compute; reflexivity|]. split; vm_compute; reflexivity.
Qed.

(** ** Examples *)

Section Examples.

Import FileScanner.

Example extname_examples :
  map (fun nm => Path.extname (lit nm))
    [ "README.MD"; "archive.tar.gz"; "Makefile"; ".gitignore"; "notes." ]%string
  = [ lit ".MD"; lit ".gz"; lit ""; lit ""; lit "." ].
Proof. vm_compute. reflexivity. Qed.

(** The scan of the sample project: [node_modules] is skipped, the file
    [coverage] is recorded, [b.py] cannot be examined. *)
Example sample_scan :
  result_of (scanDirectory Sample.join Sample.project Sample.root no_options) tt
  = inr {| files :=
             [ Sample.entry "/proj/a.js" "a.js" 10;
               Sample.entry "/proj/src/README.MD" "README.MD" 7;
               Sample.entry "/proj/src/lib/z.py" "z.py" 3;
               Sample.entry "/proj/src/coverage" "coverage" 4 ];
           directories :=
             [ lit "/proj/src"; lit "/proj/src/locked"; lit "/proj/src/lib" ];
           totalSize := 24 |}.
Proof. vm_compute. reflexivity. Qed.


Lemma extension_is_extname_witness :
  exists r f,
    result_of (scanDirectory Sample.join Sample.project Sample.root no_options)
      tt = inr r
    /\ In f (files r)
    /\ name f = lit "README.MD"
    /\ extension f = Path.extname (name f)
    /\ extension f = lit ".MD".
Proof.
  eexists. exists (Sample.entry "/proj/src/README.MD" "README.MD" 7).
  split; [vm_compute; reflexivity|].
  split; [right; left; reflexivity|]. split; [reflexivity|].
  split; [|reflexivity].
  eapply (@extension_is_extname Sample.join Sample.project Sample.root
            no_options).
  - vm_compute. reflexivity.
  - right; left; reflexivity.
Defined.

(** C8 as it is stated fails: the extension of [README.MD] is [.MD]. *)
Lemma extension_is_not_lowercased :
  ~ (forall r f,
        result_of
          (scanDirectory Sample.join Sample.project Sample.root no_options) tt
        = inr r ->
        In f (files r) ->
        extension f = toLowerCase_ascii (Path.extname (name f))).
Proof.
  intros H.
  pose proof (fun f => H _ f sample_scan) as H'. cbn [files] in H'.
  specialize (H' (Sample.entry "/proj/src/README.MD" "README.MD" 7)
                 (or_intror (or_introl eq_refl))).
  vm_compute in H'. discriminate.
Qed.

Lemma excluded_directories_are_skipped_witness :
  (forall q,
      In (Readdir q)
        (log_of (scanDirectory Sample.join Sample.project Sample.root
                   no_options) tt) ->
      reached_clear Sample.join default_excludeDirs Sample.project
        Sample.root q)
  /\ directory_clear Sample.join default_excludeDirs Sample.project
       Sample.root (lit "/proj/src/lib")
  /\ file_clear Sample.join default_excludeDirs Sample.project Sample.root
       (Sample.entry "/proj/src/lib/z.py" "z.py" 3).
Proof.
  pose proof (@excluded_directories_are_skipped Sample.join Sample.project
                Sample.root no_options) as [HL HR].
  split; [exact HL|].
  specialize (HR _ sample_scan). destruct HR as [HD HF]. split.
  - apply HD. cbn. auto.
  - apply HF. cbn. auto.
Defined.

Lemma maxDepth_zero_scans_the_root_only_witness :
  maxDepth Sample.shallow = Some (Finite 0)
  /\ currentDepth Sample.shallow = None
  /\ readdir_calls
       (log_of (scanDirectory Sample.join Sample.project Sample.root
                  Sample.shallow) tt) = [Sample.root]
  /\ exists r,
       result_of (scanDirectory Sample.join Sample.project Sample.root
                    Sample.shallow) tt = inr r
       /\ files r = [ Sample.entry "/proj/a.js" "a.js" 10 ]
       /\ directories r = [ lit "/proj/src" ].
Proof.
  split; [reflexivity|]. split; [reflexivity|].
  destruct (@maxDepth_zero_scans_the_root_only Sample.join Sample.project
              Sample.root Sample.shallow eq_refl eq_refl) as [HL HR].
  split; [exact HL|].
  destruct (HR _ eq_refl) as (r & Hr & Hf & Hd).
  exists r. split; [exact Hr|]. split.
  - rewrite Hf. vm_compute. reflexivity.
  - rewrite Hd. vm_compute. reflexivity.
Defined.


Lemma listing_errors_witness :
  scanDirectory Sample.join (UnreadableDir (errno "EACCES"))
    (lit "/proj/locked") no_options tt
  = ([Readdir (lit "/proj/locked")], tt, inr empty_result)
  /\ scanDirectory Sample.join (UnreadableDir (errno "ENOENT"))
       (lit "/proj/gone") no_options tt
     = ([Readdir (lit "/proj/gone")], tt, inl (errno "ENOENT"))
  /\ result_of
       (scanDirectory Sample.join
          (Sample.project_with_failure (errno "ENOENT")) Sample.root
          no_options) tt
     = inl (errno "ENOENT").
Proof.
  destruct (@listing_errors Sample.join Sample.root no_options)
    as (_ & _ & _ & H4).
  destruct (@listing_errors Sample.join (lit "/proj/locked") no_options)
    as (H1 & _).
  destruct (@listing_errors Sample.join (lit "/proj/gone") no_options)
    as (_ & H2 & _).
  split; [apply (H1 _ (errno "EACCES")); reflexivity|].
  split; [apply (H2 _ (errno "ENOENT")); reflexivity|].
  apply (H4 [ (lit "a.js", RegularFile (inr 10%N)) ] (lit "gone")
            (UnreadableDir (errno "ENOENT"))
            [ (lit "b.js", RegularFile (inr 2%N)) ]);
    vm_compute; reflexivity.
Defined.

(** C6 as it is stated fails: a directory that has disappeared aborts
    the scan, one that may not be read does not. *)
Lemma not_found_is_not_swallowed :
  result_of
    (scanDirectory Sample.join (Sample.project_with_failure (errno "ENOENT"))
       Sample.root no_options) tt
  <> result_of
       (scanDirectory Sample.join
          (Sample.project_with_failure (errno "EACCES")) Sample.root
          no_options) tt.
Proof. vm_compute. discriminate. Qed.

End Examples.

Section TodoExamples.

Import TodoScanner.

(** The scenario of the specification: two comments in two files, a
    file that is not a source file and a file that cannot be read. *)
Example sample_tags :
  exists r,
    result_of (scanForTodos toLowerCase_ascii Sample.disk Sample.sources) tt
    = inr r
    /\ todos r = [ {| file := lit "a.js"; comment := lit "fix this" |} ]
    /\ fixmes r = [ {| file := lit "b.py"; comment := lit "broken" |} ]
    /\ hacks r = []
    /\ totalCount r = 2 /\ fileCount r = 2.
Proof.
  unfold result_of. rewrite scanForTodos_eq. cbn [snd].
  eexists. split; [reflexivity|]. repeat split; vm_compute; reflexivity.
Qed.

(** Block comments, a keyword in lower case, and a line comment whose
    text is on the next line: white space before the text may be a line
    break. *)
Example matchAll_examples :
  map (fun m => (RegExp.index m, comment_of m))
    (RegExp.matchAll (patterns TODO)
       (lit "/* todo   later on */ y /* TODO a */
//TODO
z"))
  = [ (0, lit "later on"); (24, lit "a"); (37, lit "z") ].
Proof. vm_compute. reflexivity. Qed.

Lemma tag_scan_result_invariants_witness :
  exists r,
    result_of (scanForTodos toLowerCase_ascii Sample.disk Sample.sources) tt
    = inr r
    /\ totalCount r = length (todos r) + length (fixmes r) + length (hacks r)
    /\ fileCount r = length (fileDetails r)
    /\ (forall d, In d (fileDetails r) ->
                  File.todos d <> [] \/ File.fixmes d <> []
                  \/ File.hacks d <> []).
Proof.
  exact (@tag_scan_result_invariants toLowerCase_ascii Sample.disk
           Sample.sources).
Defined.

Lemma comments_are_the_matches_witness :
  is_code_file toLowerCase_ascii Sample.a_js = true
  /\ Sample.disk (FileScanner.path Sample.a_js)
     = inr (lit "let x; // TODO: fix this")
  /\ exists r,
       result_of (scanForTodos toLowerCase_ascii Sample.disk [Sample.a_js]) tt
       = inr r
       /\ kind_matches TODO r
          = [ {| file := lit "a.js"; comment := lit "fix this" |} ].
Proof.
  split; [vm_compute; reflexivity|]. split; [vm_compute; reflexivity|].
  destruct (@comments_are_the_matches toLowerCase_ascii Sample.disk
              Sample.a_js (lit "let x; // TODO: fix this"))
    as (r & Hr & Hk & _).
  - vm_compute. reflexivity.
  - vm_compute. reflexivity.
  - exists r. split; [exact Hr|].
    destruct (Hk TODO) as (H & _). rewrite H. vm_compute. reflexivity.
Defined.

End TodoExamples.

(** ** [Array.prototype.sort] and [slice], as the source uses them *)

Lemma StronglySorted_weaken {A} (R R' : A -> A -> Prop) l :
  (forall a b, R a b -> R' a b) ->
  StronglySorted R l -> StronglySorted R' l.
Proof.
  intros HR. induction 1 as [|x l Hs IH Hx]; constructor; [exact IH|].
  rewrite Forall_forall in *. auto.
Qed.

Section SortProperties.

Variable A : Type.
Variable cmp : A -> A -> Z.

Lemma insert_perm x l : Permutation (JSArray.insert cmp x l) (x :: l).
Proof.
  induction l as [|y l IH]; cbn [JSArray.insert]; [reflexivity|].
  destruct (cmp x y >? 0)%Z; [|reflexivity].
  rewrite IH. apply perm_swap.
Qed.

Lemma sort_perm l : Permutation (JSArray.sort cmp l) l.
Proof.
  induction l as [|x l IH]; cbn [JSArray.sort fold_right]; [reflexivity|].
  rewrite insert_perm. now constructor.
Qed.

(** A comparator that orders by descending [key]. *)
Variable key : A -> Z.
Hypothesis cmp_key : forall a b, cmp a b = (key b - key a)%Z.

#[local] Abbreviation descending := (fun a b : A => (key b <= key a)%Z).

Lemma insert_sorted x l :
  StronglySorted descending l ->
  StronglySorted descending (JSArray.insert cmp x l).
Proof.
  induction 1 as [|y l Hs IH Hy]; cbn [JSArray.insert].
  - repeat constructor.
  - destruct (cmp x y >? 0)%Z eqn:Hc.
    + apply Z.gtb_lt in Hc. rewrite cmp_key in Hc.
      constructor; [exact IH|].
      rewrite Forall_forall. intros z Hz.
      apply (Permutation_in _ (insert_perm x l)) in Hz.
      destruct Hz as [<-|Hz]; [lia|].
      rewrite Forall_forall in Hy. now apply Hy.
    + assert (Hle : (key y <= key x)%Z).
      { rewrite cmp_key in Hc. destruct (key y - key x >? 0)%Z eqn:E;
          [discriminate|]. rewrite Z.gtb_ltb in E. apply Z.ltb_ge in E. lia. }
      constructor; [now constructor|].
      constructor; [exact Hle|].
      rewrite Forall_forall in *. intros z Hz. specialize (Hy z Hz). lia.
Qed.

Lemma sort_sorted l : StronglySorted descending (JSArray.sort cmp l).
Proof.
  induction l as [|x l IH]; cbn [JSArray.sort fold_right]; [constructor|].
  now apply insert_sorted.
Qed.

(** The sort is stable: elements of one key keep their order. *)
Lemma insert_stable k x l :
  filter (fun a => (key a =? k)%Z) (JSArray.insert cmp x l) =
  filter (fun a => (key a =? k)%Z) (x :: l).
Proof.
  induction l as [|y l IH]; cbn [JSArray.insert]; [reflexivity|].
  destruct (cmp x y >? 0)%Z eqn:Hc; [|reflexivity].
  apply Z.gtb_lt in Hc. rewrite cmp_key in Hc.
  cbn [filter] in *. rewrite IH.
  destruct (key x =? k)%Z eqn:Hx, (key y =? k)%Z eqn:Hy; try reflexivity.
  apply Z.eqb_eq in Hx, Hy. lia.
Qed.

Lemma sort_stable k l :
  filter (fun a => (key a =? k)%Z) (JSArray.sort cmp l) =
  filter (fun a => (key a =? k)%Z) l.
Proof.
  induction l as [|x l IH]; cbn [JSArray.sort fold_right]; [reflexivity|].
  rewrite insert_stable. cbn [filter]. fold (JSArray.sort cmp l).
  rewrite IH. reflexivity.
Qed.

Lemma slice0_prefix (l : list A) limit :
  exists rest, l = JSArray.slice0 l limit ++ rest.
Proof.
  unfold JSArray.slice0. destruct (limit <? 0)%Z;
    eexists; symmetry; apply firstn_skipn.
Qed.

Lemma slice0_length (l : list A) limit :
  (0 <= limit)%Z -> length (JSArray.slice0 l limit) <= Z.to_nat limit.
Proof.
  intros H. unfold JSArray.slice0.
  destruct (limit <? 0)%Z eqn:E; [apply Z.ltb_lt in E; lia|].
  apply firstn_le_length.
Qed.

Lemma slice0_all (l : list A) limit :
  (Z.of_nat (length l) <= limit)%Z -> JSArray.slice0 l limit = l.
Proof.
  intros H. unfold JSArray.slice0.
  destruct (limit <? 0)%Z eqn:E; [apply Z.ltb_lt in E; lia|].
  apply firstn_all2. lia.
Qed.

(** The first [limit] of a sort: a prefix of a descending permutation,
    nothing left out being greater than anything kept. *)
Lemma top_of_sort l limit :
  exists rest,
    Permutation l (JSArray.slice0 (JSArray.sort cmp l) limit ++ rest)
    /\ StronglySorted descending (JSArray.slice0 (JSArray.sort cmp l) limit)
    /\ (forall a b, In a (JSArray.slice0 (JSArray.sort cmp l) limit) ->
                    In b rest -> (key b <= key a)%Z)
    /\ ((Z.of_nat (length l) <= limit)%Z -> rest = []).
Proof.
  destruct (slice0_prefix (JSArray.sort cmp l) limit) as [rest Hrest].
  exists rest.
  pose proof (sort_sorted l) as Hs. rewrite Hrest in Hs.
  split; [|split; [|split]].
  - rewrite <- Hrest. symmetry. apply sort_perm.
  - clear Hrest. induction (JSArray.slice0 (JSArray.sort cmp l) limit)
      as [|x kept IH]; [constructor|].
    cbn [app] in Hs. inversion Hs as [|? ? Hs' Hx]; subst.
    constructor; [now apply IH|].
    apply Forall_app in Hx. tauto.
  - clear Hrest. induction (JSArray.slice0 (JSArray.sort cmp l) limit)
      as [|x kept IH]; [intros ? ? []|].
    cbn [app] in Hs. inversion Hs as [|? ? Hs' Hx]; subst.
    intros a b [<-|Ha] Hb.
    + rewrite Forall_forall in Hx. apply Hx. apply in_or_app. now right.
    + now apply IH.
  - intros Hlen.
    assert (Hl : length (JSArray.sort cmp l) = length l)
      by (apply Permutation_length, sort_perm).
    rewrite slice0_all in Hrest by lia.
    apply (f_equal (@length _)) in Hrest. rewrite length_app in Hrest.
    destruct rest; [reflexivity|cbn in Hrest; lia].
Qed.

End SortProperties.

(** ** The other functions of [utils/fileScanner.js] *)

Section LargestFilesProperties.

Import FileScanner Listings.

Variable formatBytes : N -> jsstring.

(** [getLargestFiles] returns the [limit] largest of the files whose
    size is at least [minSize], largest first (files of one size in
    the order of the input): they are a prefix of a rearrangement of
    those files, sorted by descending size, no file left out being
    larger than a file returned; nothing is left out when there are at
    most [limit] such files; a non-negative [limit] bounds their
    number. *)
Theorem largest_files_are_the_largest (files : list FileEntry) (limit : Z)
  (minSize : N) :
  exists kept rest,
    getLargestFiles formatBytes files limit minSize
    = map (present formatBytes) kept
    /\ Permutation (filter (fun f => (minSize <=? size f)%N) files)
         (kept ++ rest)
    /\ StronglySorted (fun a b => (size b <= size a)%N) kept
    /\ (forall a b, In a kept -> In b rest -> (size b <= size a)%N)
    /\ (forall k, filter (fun f => (size f =? k)%N) kept
                  = firstn (length (filter (fun f => (size f =? k)%N) kept))
                      (filter (fun f => (size f =? k)%N)
                         (filter (fun f => (minSize <=? size f)%N) files)))
    /\ ((Z.of_nat (length (filter (fun f => (minSize <=? size f)%N) files))
         <= limit)%Z -> rest = [])
    /\ ((0 <= limit)%Z ->
        length (getLargestFiles formatBytes files limit minSize)
        <= Z.to_nat limit).
Proof.
  set (eligible := filter (fun f => (minSize <=? size f)%N) files).
  set (key := fun f : FileEntry => Z.of_N (size f)).
  assert (Hk : forall a b, by_size_desc a b = (key b - key a)%Z)
    by reflexivity.
  destruct (top_of_sort by_size_desc key Hk eligible limit)
    as (rest & Hperm & Hsorted & Htop & Hall).
  exists (JSArray.slice0 (JSArray.sort by_size_desc eligible) limit), rest.
  split; [reflexivity|]. split; [exact Hperm|]. split.
  { eapply StronglySorted_weaken; [|exact Hsorted].
    intros a b H. unfold key in H. cbv beta in H. lia. }
  split.
  { intros a b Ha Hb. specialize (Htop a b Ha Hb). unfold key in Htop. lia. }
  split.
  { intros k.
    destruct (slice0_prefix (JSArray.sort by_size_desc eligible) limit)
      as [rest' Hrest'].
    pose proof (sort_stable by_size_desc key Hk (Z.of_N k) eligible) as Hst.
    assert (Hf : forall l,
               filter (fun a => (key a =? Z.of_N k)%Z) l
               = filter (fun f : FileEntry => (size f =? k)%N) l).
    { intros l. apply filter_ext. intros a. unfold key.
      destruct (size a =? k)%N eqn:E.
      - apply N.eqb_eq in E. rewrite E. apply Z.eqb_refl.
      - apply N.eqb_neq in E. apply Z.eqb_neq. lia. }
    rewrite !Hf in Hst. rewrite <- Hst.
    set (sorted := JSArray.sort by_size_desc eligible) in *.
    set (kept := JSArray.slice0 sorted limit) in *.
    clearbody kept. rewrite Hrest'.
    rewrite filter_app, firstn_app, Nat.sub_diag, firstn_all. cbn.
    now rewrite app_nil_r. }
  split; [exact Hall|].
  intros Hl. unfold getLargestFiles. rewrite length_map.
  now apply slice0_length.
Qed.

End LargestFilesProperties.

(** ** Objects as dictionaries *)

Section DictProperties.

Variable V : Type.

Lemma eqb_refl (k : jsstring) : JS.eqb k k = true.
Proof. now apply eqb_eq. Qed.

Lemma eqb_neq (a b : jsstring) : JS.eqb a b = false <-> a <> b.
Proof.
  split.
  - intros H ->. rewrite eqb_refl in H. discriminate.
  - intros H. destruct (JS.eqb a b) eqn:E; [|reflexivity].
    apply eqb_eq in E. contradiction.
Qed.

Lemma get_set (o : JSObject.t V) k v k' :
  Dict.get (JSObject.set o k v) k' =
  if JS.eqb k' k then Some v else Dict.get o k'.
Proof.
  induction o as [|[k0 v0] o IH]; cbn [JSObject.set Dict.get].
  - destruct (JS.eqb k' k); reflexivity.
  - destruct (JS.eqb k k0) eqn:E.
    + apply eqb_eq in E. subst k0. cbn [Dict.get].
      destruct (JS.eqb k' k); reflexivity.
    + cbn [Dict.get]. rewrite IH.
      destruct (JS.eqb k' k0) eqn:E0; [|reflexivity].
      apply eqb_eq in E0. subst k0.
      destruct (JS.eqb k' k) eqn:E1; [|reflexivity].
      apply eqb_eq in E1. subst k'. rewrite eqb_refl in E. discriminate.
Qed.

Lemma set_keys (o : JSObject.t V) k v :
  map fst (JSObject.set o k v) =
  match Dict.get o k with
  | Some _ => map fst o
  | None => map fst o ++ [k]
  end.
Proof.
  induction o as [|[k0 v0] o IH]; cbn [JSObject.set Dict.get]; [reflexivity|].
  destruct (JS.eqb k k0) eqn:E; [reflexivity|].
  cbn [map fst]. rewrite IH.
  destruct (Dict.get o k); reflexivity.
Qed.

Lemma get_none (o : JSObject.t V) k :
  Dict.get o k = None <-> ~ In k (map fst o).
Proof.
  induction o as [|[k0 v0] o IH]; cbn [Dict.get map fst]; [tauto|].
  destruct (JS.eqb k k0) eqn:E.
  - apply eqb_eq in E. subst. split; [discriminate|].
    intros H. exfalso. apply H. now left.
  - apply eqb_neq in E. rewrite IH. cbn. split.
    + intros H [Heq|Hin]; [congruence|contradiction].
    + intros H Hin. apply H. now right.
Qed.

Lemma set_keys_NoDup (o : JSObject.t V) k v :
  NoDup (map fst o) -> NoDup (map fst (JSObject.set o k v)).
Proof.
  intros H. rewrite set_keys.
  destruct (Dict.get o k) eqn:E; [exact H|].
  apply get_none in E.
  apply NoDup_rev in H. rewrite <- (rev_involutive (map fst o ++ [k])).
  apply NoDup_rev. rewrite rev_app_distr. cbn. constructor; [|exact H].
  rewrite <- in_rev. exact E.
Qed.

Lemma get_in (o : JSObject.t V) k v :
  NoDup (map fst o) -> In (k, v) o -> Dict.get o k = Some v.
Proof.
  induction o as [|[k0 v0] o IH]; intros Hnd Hin; [destruct Hin|].
  cbn [map fst] in Hnd. inversion Hnd as [|? ? Hk0 Hnd']; subst.
  cbn [Dict.get]. destruct Hin as [Heq|Hin].
  - inversion Heq; subst. now rewrite eqb_refl.
  - destruct (JS.eqb k k0) eqn:E; [|now apply IH].
    apply eqb_eq in E. subst k0. exfalso. apply Hk0.
    change k with (fst (k, v)). now apply in_map.
Qed.

Lemma in_get (o : JSObject.t V) k v :
  Dict.get o k = Some v -> In (k, v) o.
Proof.
  induction o as [|[k0 v0] o IH]; cbn [Dict.get]; [discriminate|].
  destruct (JS.eqb k k0) eqn:E.
  - apply eqb_eq in E. subst. intros H. inversion H. now left.
  - intros H. right. now apply IH.
Qed.

Lemma insert_indexed_perm i (kv : jsstring * V) l :
  Permutation (Dict.insert_indexed i kv l) ((i, kv) :: l).
Proof.
  induction l as [|[j w] l IH]; cbn [Dict.insert_indexed]; [reflexivity|].
  destruct (i <? j)%N; [reflexivity|]. rewrite IH. apply perm_swap.
Qed.

(** [Object.entries] lists every property once. *)
Lemma entries_perm (o : JSObject.t V) : Permutation (Dict.entries o) o.
Proof.
  unfold Dict.entries. induction o as [|[k v] o IH]; [reflexivity|].
  cbn [Dict.index_entries Dict.string_entries].
  destruct (JSObject.array_index k) as [i|].
  - rewrite insert_indexed_perm. cbn [map snd app]. now constructor.
  - rewrite <- Permutation_middle. now constructor.
Qed.

Lemma insert_index_perm i (v : V) l :
  Permutation (JSObject.insert_index i v l) ((i, v) :: l).
Proof.
  induction l as [|[j w] l IH]; cbn [JSObject.insert_index]; [reflexivity|].
  destruct (i <? j)%N; [reflexivity|]. rewrite IH. apply perm_swap.
Qed.

(** [Object.values] lists the value of every property once. *)
Lemma values_perm (o : JSObject.t V) :
  Permutation (JSObject.values o) (map snd o).
Proof.
  unfold JSObject.values. induction o as [|[k v] o IH]; [reflexivity|].
  cbn [JSObject.index_properties JSObject.string_properties map snd].
  destruct (JSObject.array_index k) as [i|].
  - rewrite insert_index_perm. cbn [map snd app]. now constructor.
  - rewrite <- Permutation_middle. now constructor.
Qed.

End DictProperties.

(** ** Counting in a dictionary: [(o[k] || 0) + 1] *)

Section CountingProperties.

Import Listings.

(** The number of occurrences of [k] among [keys]. *)
#[local] Abbreviation occurrences k keys :=
  (length (filter (JS.eqb k) keys)).

#[local] Abbreviation counted keys o := (fold_left increment keys o).

#[local] Abbreviation held o k :=
  (match Dict.get o k with Some c => c | None => 0 end).

Lemma increment_get o k k' :
  Dict.get (increment o k) k' =
  if JS.eqb k' k then Some (held o k + 1) else Dict.get o k'.
Proof. unfold increment. apply get_set. Qed.

Lemma counted_held keys :
  forall o k, held (counted keys o) k = held o k + occurrences k keys.
Proof.
  induction keys as [|k0 keys IH]; intros o k; cbn [fold_left filter].
  - cbn. lia.
  - rewrite IH, increment_get.
    destruct (JS.eqb k k0) eqn:E.
    + apply eqb_eq in E. subst k0. cbn [length]. lia.
    + lia.
Qed.

Lemma counted_keys_NoDup keys :
  forall o, NoDup (map fst o) -> NoDup (map fst (counted keys o)).
Proof.
  induction keys as [|k0 keys IH]; intros o Ho; [exact Ho|].
  cbn [fold_left]. apply IH. now apply set_keys_NoDup.
Qed.

Lemma counted_positive keys :
  forall o, Forall (fun kv => 1 <= snd kv) o ->
            Forall (fun kv => 1 <= snd kv) (counted keys o).
Proof.
  induction keys as [|k0 keys IH]; intros o Ho; [exact Ho|].
  cbn [fold_left]. apply IH. unfold increment.
  generalize (held o k0 + 1), (Nat.le_add_l 1 (held o k0)).
  intros v Hv. clear IH. induction Ho as [|[k1 v1] o H1 Ho IHo];
    cbn [JSObject.set].
  - repeat constructor. exact Hv.
  - destruct (JS.eqb k0 k1); constructor; auto.
Qed.

Lemma counted_has keys :
  forall o k, In k keys -> Dict.get (counted keys o) k <> None.
Proof.
  induction keys as [|k0 keys IH]; intros o k Hin; [destruct Hin|].
  cbn [fold_left]. destruct Hin as [->|Hin]; [|now apply IH].
  intros Hnone.
  pose proof (counted_held keys (increment o k) k) as Hh.
  rewrite Hnone, increment_get, eqb_refl in Hh. lia.
Qed.

(** What counting from the empty object yields: one property for each
    key that occurs, holding the number of its occurrences. *)
Lemma counted_spec keys k c :
  In (k, c) (counted keys []) <-> c = occurrences k keys /\ In k keys.
Proof.
  assert (Hnd : NoDup (map fst (counted keys []))).
  { apply counted_keys_NoDup. constructor. }
  pose proof (counted_held keys [] k) as Hh. cbn [Dict.get] in Hh.
  split.
  - intros Hin. pose proof (@get_in _ _ _ _ Hnd Hin) as Hg. rewrite Hg in Hh.
    split; [lia|].
    pose proof (counted_positive keys (o := []) (Forall_nil _)) as Hpos.
    rewrite Forall_forall in Hpos. specialize (Hpos _ Hin). cbn in Hpos.
    assert (Hocc : 1 <= occurrences k keys) by lia.
    destruct (filter (JS.eqb k) keys) as [|k1 l] eqn:Hf; [cbn in Hocc; lia|].
    assert (Hk1 : In k1 (filter (JS.eqb k) keys)) by (rewrite Hf; now left).
    apply filter_In in Hk1. destruct Hk1 as [Hk1 He].
    apply eqb_eq in He. now subst.
  - intros [-> Hin].
    pose proof (counted_has keys [] k Hin) as Hg.
    destruct (Dict.get (counted keys []) k) as [c|] eqn:E; [|contradiction].
    apply in_get in E. replace (occurrences k keys) with c by lia. exact E.
Qed.

Lemma counted_total keys :
  forall o,
    list_sum (map snd (counted keys o)) = list_sum (map snd o) + length keys.
Proof.
  induction keys as [|k0 keys IH]; intros o; cbn [fold_left length]; [lia|].
  rewrite IH.
  assert (H : list_sum (map snd (increment o k0)) = list_sum (map snd o) + 1).
  { unfold increment. induction o as [|[k1 v1] o IHo]; [reflexivity|].
    cbn [Dict.get JSObject.set]. destruct (JS.eqb k0 k1) eqn:E.
    - cbn. lia.
    - change (list_sum (map snd ((k1, v1) :: ?l)))
        with (v1 + list_sum (map snd l)).
      cbn [map snd]. change (list_sum (v1 :: ?l)) with (v1 + list_sum l).
      rewrite IHo. lia. }
  lia.
Qed.

End CountingProperties.

(** ** [String.prototype.split] *)

Section SplitProperties.

Import Split.

Lemma split_on_nonempty sep s : split_on sep s <> [].
Proof.
  destruct s as [|c s]; cbn [split_on]; [discriminate|].
  destruct (c =? sep)%N; [discriminate|].
  destruct (split_on sep s); discriminate.
Qed.

(** One segment more than there are separators. *)
Lemma split_on_length sep s :
  length (split_on sep s) = S (length (filter (N.eqb sep) s)).
Proof.
  induction s as [|c s IH]; [reflexivity|]. cbn [split_on filter].
  rewrite (N.eqb_sym sep c). destruct (c =? sep)%N.
  - cbn [length]. now rewrite IH.
  - pose proof (split_on_nonempty sep s) as Hne.
    destruct (split_on sep s) as [|seg segs]; [contradiction|].
    cbn [length] in *. exact IH.
Qed.

(** Joining the segments with the separator gives the string back. *)
Lemma join_split sep s : join_with sep (split_on sep s) = s.
Proof.
  induction s as [|c s IH]; [reflexivity|]. cbn [split_on].
  pose proof (split_on_nonempty sep s) as Hne.
  destruct (c =? sep)%N eqn:E.
  - apply N.eqb_eq in E. subst c.
    destruct (split_on sep s) as [|seg segs]; [contradiction|].
    cbn [join_with app] in *. now rewrite IH.
  - destruct (split_on sep s) as [|seg segs]; [contradiction|].
    destruct segs as [|seg' segs]; cbn [join_with app] in *; now rewrite IH.
Qed.

(** No segment holds the separator. *)
Lemma split_on_clean sep s :
  Forall (fun seg => ~ In sep seg) (split_on sep s).
Proof.
  induction s as [|c s IH]; cbn [split_on].
  - repeat constructor. intros [].
  - destruct (c =? sep)%N eqn:E.
    + constructor; [intros []|exact IH].
    + apply N.eqb_neq in E.
      destruct (split_on sep s) as [|seg segs].
      * repeat constructor. intros [H|[]]. congruence.
      * inversion IH as [|? ? Hseg Hsegs]; subst. constructor; [|exact Hsegs].
        intros [H|H]; [congruence|contradiction].
Qed.

End SplitProperties.

Section CountLinesProperties.

Import Listings.

Variable disk : jsstring -> error + jsstring.

(** [countFileLines] never throws; it answers 0 exactly for a file that
    cannot be read, and for a file that can one more than the number of
    line feeds of its content (1 for an empty file), the pieces counted
    being the content cut at its line feeds. *)
Theorem countFileLines_counts_line_feeds (filePath : jsstring) :
  exists n,
    countFileLines disk filePath tt = ([ReadFile filePath], tt, inr n)
    /\ (n = 0 <-> exists e, disk filePath = inl e)
    /\ (forall content,
          disk filePath = inr content ->
          n = S (length (filter (N.eqb Split.NEWLINE) content))
          /\ Split.join_with Split.NEWLINE
               (Split.split_on Split.NEWLINE content) = content).
Proof.
  unfold countFileLines, try_catch, bind, TodoScanner.readFile, emit, ret,
    throw.
  destruct (disk filePath) as [e|content] eqn:Hd; cbn.
  - exists 0. split; [reflexivity|]. split.
    + split; [intros _; now exists e|reflexivity].
    + intros content H. discriminate.
  - eexists. split; [reflexivity|]. rewrite split_on_length. split.
    + split; [discriminate|]. intros [e He]. discriminate.
    + intros c Hc. inversion Hc; subst. split; [reflexivity|].
      apply join_split.
Qed.

End CountLinesProperties.

(** ** Tallies: the entries of a counting object, sorted *)

Section TallyProperties.

Import Listings.

#[local] Abbreviation tally keys :=
  (JSArray.sort by_second_desc (Dict.entries (fold_left increment keys []))).

Lemma list_sum_perm l l' : Permutation l l' -> list_sum l = list_sum l'.
Proof.
  unfold list_sum. induction 1; cbn [fold_right]; lia.
Qed.

Lemma tally_perm keys :
  Permutation (tally keys) (fold_left increment keys []).
Proof.
  rewrite sort_perm. apply entries_perm.
Qed.

Lemma tally_in keys k c :
  In (k, c) (tally keys)
  <-> c = length (filter (JS.eqb k) keys) /\ In k keys.
Proof.
  rewrite <- counted_spec. split; apply Permutation_in;
    [|symmetry]; apply tally_perm.
Qed.

Lemma tally_NoDup keys : NoDup (map fst (tally keys)).
Proof.
  apply (Permutation_NoDup (l := map fst (fold_left increment keys []))).
  - symmetry. apply Permutation_map, tally_perm.
  - apply counted_keys_NoDup. constructor.
Qed.

Lemma tally_total keys : list_sum (map snd (tally keys)) = length keys.
Proof.
  rewrite (list_sum_perm (Permutation_map snd (tally_perm keys))).
  now rewrite counted_total.
Qed.

Lemma by_second_desc_key (a b : jsstring * nat) :
  by_second_desc a b = (Z.of_nat (snd b) - Z.of_nat (snd a))%Z.
Proof. reflexivity. Qed.

Lemma tally_sorted keys :
  StronglySorted (fun a b : jsstring * nat => snd b <= snd a) (tally keys).
Proof.
  eapply StronglySorted_weaken;
    [|apply (sort_sorted by_second_desc (fun a => Z.of_nat (snd a))
               by_second_desc_key)].
  cbv beta. intros a b H. lia.
Qed.

Lemma StronglySorted_map {A B} (f : A -> B) (R : B -> B -> Prop) l :
  StronglySorted (fun a b => R (f a) (f b)) l -> StronglySorted R (map f l).
Proof.
  induction 1 as [|x l Hs IH Hx]; cbn [map]; constructor; [exact IH|].
  rewrite Forall_forall in *. intros y Hy. apply in_map_iff in Hy.
  destruct Hy as (z & <- & Hz). now apply Hx.
Qed.

Lemma prefix_NoDup {A} (l l' : list A) : NoDup (l ++ l') -> NoDup l.
Proof.
  induction l as [|x l IH]; cbn [app]; [constructor|].
  intros H. inversion H as [|? ? Hx Hl]; subst. constructor; [|now apply IH].
  intros Hin. apply Hx. apply in_or_app. now left.
Qed.

(** The first [limit] of a tally. *)
Lemma tally_top keys limit :
  let out := JSArray.slice0 (tally keys) limit in
  (forall k c, In (k, c) out ->
               c = length (filter (JS.eqb k) keys) /\ In k keys)
  /\ NoDup (map fst out)
  /\ StronglySorted (fun a b : jsstring * nat => snd b <= snd a) out
  /\ (forall k kc, In k keys -> ~ In k (map fst out) -> In kc out ->
                   length (filter (JS.eqb k) keys) <= snd kc)
  /\ ((0 <= limit)%Z -> length out <= Z.to_nat limit)
  /\ ((Z.of_nat (length (tally keys)) <= limit)%Z ->
      forall k, In k keys -> In k (map fst out)).
Proof.
  cbn zeta.
  destruct (top_of_sort by_second_desc (fun a => Z.of_nat (snd a))
              by_second_desc_key
              (Dict.entries (fold_left increment keys [])) limit)
    as (rest & Hperm & Hsorted & Htop & Hall).
  set (out := JSArray.slice0 (tally keys) limit) in *.
  assert (Hsplit : Permutation (tally keys) (out ++ rest)).
  { rewrite sort_perm. exact Hperm. }
  split; [|split; [|split; [|split; [|split]]]].
  - intros k c Hin. apply tally_in.
    apply (Permutation_in _ (Permutation_sym Hsplit)).
    apply in_or_app. now left.
  - apply (@prefix_NoDup _ _ (map fst rest)). rewrite <- map_app.
    apply (Permutation_NoDup (l := map fst (tally keys)));
      [now apply Permutation_map|apply tally_NoDup].
  - eapply StronglySorted_weaken; [|exact Hsorted]. cbv beta.
    intros a b H. lia.
  - intros k kc Hk Hnot Hkc.
    assert (Hin : In (k, length (filter (JS.eqb k) keys)) (tally keys))
      by (apply tally_in; auto).
    apply (Permutation_in _ Hsplit) in Hin. apply in_app_or in Hin.
    destruct Hin as [Hin|Hin].
    + exfalso. apply Hnot.
      change k with (fst (k, length (filter (JS.eqb k) keys))).
      now apply in_map.
    + specialize (Htop _ _ Hkc Hin). cbn [snd] in Htop. lia.
  - intros Hl. now apply slice0_length.
  - intros Hl k Hk.
    assert (Hlen : length (Dict.entries (fold_left increment keys []))
                   = length (tally keys))
      by (symmetry; apply Permutation_length, sort_perm).
    rewrite Hall in Hsplit by lia. rewrite app_nil_r in Hsplit.
    assert (Hin : In (k, length (filter (JS.eqb k) keys)) (tally keys))
      by (apply tally_in; auto).
    apply (Permutation_in _ Hsplit) in Hin.
    change k with (fst (k, length (filter (JS.eqb k) keys))).
    now apply in_map.
Qed.

End TallyProperties.

Section LanguagesProperties.

Import FileScanner Listings.

Variable toLowerCase : jsstring -> jsstring.

#[local] Abbreviation language_of := (Listings.language_of toLowerCase).

(** The languages of the files that have one, file by file. *)
#[local] Abbreviation languages files :=
  (flat_map (fun f => match language_of f with
                      | Some l => [l]
                      | None => []
                      end) files).

Lemma count_language_fold files :
  forall o,
    fold_left (count_language toLowerCase) files o
    = fold_left increment (languages files) o.
Proof.
  induction files as [|f files IH]; intros o; [reflexivity|].
  cbn [fold_left flat_map]. unfold count_language at 2.
  destruct (language_of f); cbn [app fold_left]; apply IH.
Qed.

Lemma languages_count l files :
  length (filter (JS.eqb l) (languages files))
  = length (filter (has_language toLowerCase l) files).
Proof.
  induction files as [|f files IH]; [reflexivity|].
  cbn [flat_map filter]. unfold has_language at 1.
  destruct (language_of f) as [l'|]; cbn [app filter]; [|exact IH].
  destruct (JS.eqb l l'); cbn [length]; now rewrite IH.
Qed.

Lemma languages_length files :
  length (languages files)
  = length (filter (has_some_language toLowerCase) files).
Proof.
  induction files as [|f files IH]; [reflexivity|].
  cbn [flat_map filter]. unfold has_some_language at 1.
  destruct (language_of f); cbn [app length]; now rewrite IH.
Qed.

(** No language of [languageMap] is a name of [Object.prototype]: the
    keys of [languageCounts] are none of them. *)
Lemma languages_are_own l f :
  language_of f = Some l -> Dict.inherited l = false.
Proof.
  unfold Listings.language_of. generalize (toLowerCase (extension f)).
  intros k. unfold languageMap. cbn [map Dict.get fst snd].
  repeat (destruct (JS.eqb k _);
          [intros H; injection H as <-; vm_compute; reflexivity|]).
  discriminate.
Qed.

(** [detectLanguages], for files whose lower-cased extension is no name
    of [Object.prototype] (an extension begins with a dot or is empty),
    lists every language that some file has, once, with the number of
    the files that have it, most files first; the counts add up to the
    number of files whose lower-cased extension is in [languageMap]. *)
Theorem languages_are_counted (files : list FileEntry) :
  Forall (fun f => Dict.inherited (toLowerCase (extension f)) = false) files ->
  (forall l c,
      In {| language := l; count := c |} (detectLanguages toLowerCase files)
      <-> c = length (filter (has_language toLowerCase l) files) /\ 1 <= c)
  /\ NoDup (map language (detectLanguages toLowerCase files))
  /\ StronglySorted (fun a b => count b <= count a)
       (detectLanguages toLowerCase files)
  /\ list_sum (map count (detectLanguages toLowerCase files))
     = length (filter (has_some_language toLowerCase) files).
Proof.
  intros _. unfold detectLanguages. rewrite count_language_fold.
  set (keys := languages files).
  set (t := JSArray.sort by_second_desc
              (Dict.entries (fold_left increment keys []))).
  assert (Hocc : forall l, In l keys
                           <-> 1 <= length (filter (JS.eqb l) keys)).
  { intros l. split.
    - intros Hin.
      assert (H : In l (filter (JS.eqb l) keys))
        by (apply filter_In; split; [exact Hin|apply eqb_refl]).
      destruct (filter (JS.eqb l) keys); [destruct H|cbn; lia].
    - intros H. destruct (filter (JS.eqb l) keys) as [|k1 rest] eqn:Hf;
        [cbn in H; lia|].
      assert (Hk1 : In k1 (filter (JS.eqb l) keys)) by (rewrite Hf; now left).
      apply filter_In in Hk1. destruct Hk1 as [Hk1 He].
      apply eqb_eq in He. now subst. }
  split; [|split; [|split]].
  - intros l c. rewrite in_map_iff. split.
    + intros ([l' c'] & Heq & Hin). inversion Heq; subst.
      apply tally_in in Hin. destruct Hin as [Hc Hin].
      unfold keys in Hc. rewrite languages_count in Hc.
      split; [exact Hc|]. apply Hocc in Hin. unfold keys in Hin.
      rewrite languages_count in Hin. now rewrite Hc.
    + intros [Hc H1]. exists (l, c). split; [reflexivity|].
      apply tally_in. unfold keys. rewrite languages_count.
      split; [exact Hc|]. apply Hocc. unfold keys.
      rewrite languages_count. now rewrite <- Hc.
  - rewrite map_map. cbn [language].
    rewrite (map_ext _ fst) by reflexivity. apply tally_NoDup.
  - pose proof (tally_sorted keys) as Hs. fold t in Hs.
    induction Hs as [|x l Hs IH Hx]; cbn [map]; constructor; [exact IH|].
    rewrite Forall_forall in *. intros y Hy. apply in_map_iff in Hy.
    destruct Hy as (z & <- & Hz). cbn [count]. now apply Hx.
  - rewrite map_map. cbn [count].
    rewrite (map_ext _ snd) by reflexivity.
    unfold t. rewrite tally_total. apply languages_length.
Qed.

End LanguagesProperties.

Lemma languages_are_counted_witness :
  Listings.detectLanguages toLowerCase_ascii Samples.mixed
  = [ {| Listings.language := lit "JavaScript"; Listings.count := 3 |};
      {| Listings.language := lit "Python"; Listings.count := 1 |};
      {| Listings.language := lit "Markdown"; Listings.count := 1 |} ]
  /\ list_sum
       (map Listings.count
          (Listings.detectLanguages toLowerCase_ascii Samples.mixed))
     = length
         (filter (Listings.has_some_language toLowerCase_ascii) Samples.mixed).
Proof.
  split; [vm_compute; reflexivity|].
  destruct (@languages_are_counted toLowerCase_ascii Samples.mixed)
    as (_ & _ & _ & H).
  - vm_compute. repeat constructor.
  - exact H.
Defined.

Section GitLogProperties.

Import GitLog.

(** [getMostModifiedFiles] returns nothing when [git] fails.  Of an
    output no line of which is a name of [Object.prototype], it returns
    lines that are not blank, each once, with the number of times the
    line occurs, most frequent first; no line left out occurs more often
    than a line returned; and a non-negative [limit] bounds their
    number. *)
Theorem most_modified_files_are_the_most_frequent
  (log : error + jsstring) (limit : Z) :
  (forall out, log = inr out ->
               Forall (fun l => Dict.inherited l = false) (lines_of out)) ->
  ((exists e, log = inl e) -> getMostModifiedFiles log limit = [])
  /\ (forall out,
        log = inr out ->
        let result := getMostModifiedFiles log limit in
        (forall m, In m result ->
                   In (file m) (lines_of out)
                   /\ ~ In Split.NEWLINE (file m)
                   /\ count m
                      = length (filter (JS.eqb (file m)) (lines_of out)))
        /\ NoDup (map file result)
        /\ StronglySorted (fun a b => count b <= count a) result
        /\ (forall l m, In l (lines_of out) -> ~ In l (map file result) ->
                        In m result ->
                        length (filter (JS.eqb l) (lines_of out)) <= count m)
        /\ ((0 <= limit)%Z -> length result <= Z.to_nat limit)).
Proof.
  intros _. split.
  - intros [e ->]. reflexivity.
  - intros out -> result. unfold result, getMostModifiedFiles.
    set (keys := lines_of out).
    destruct (tally_top keys limit) as (Hin & Hnd & Hs & Htop & Hlen & _).
    set (top := JSArray.slice0
                  (JSArray.sort Listings.by_second_desc
                     (Dict.entries (fold_left Listings.increment keys [])))
                  limit) in *.
    split; [|split; [|split; [|split]]].
    + intros m Hm. apply in_map_iff in Hm. destruct Hm as ([k c] & <- & Hkc).
      cbn [file count fst snd]. destruct (Hin _ _ Hkc) as [Hc Hk].
      split; [exact Hk|]. split; [|exact Hc].
      unfold keys, lines_of in Hk. apply filter_In in Hk.
      destruct Hk as [Hk _].
      pose proof (split_on_clean Split.NEWLINE out) as Hclean.
      rewrite Forall_forall in Hclean. now apply Hclean.
    + rewrite map_map. cbn [file].
      rewrite (map_ext _ fst) by reflexivity. exact Hnd.
    + apply StronglySorted_map. cbn [count]. exact Hs.
    + intros l m Hl Hnot Hm. apply in_map_iff in Hm.
      destruct Hm as (kc & <- & Hkc). cbn [count].
      apply (Htop l kc Hl); [|exact Hkc].
      intros H. apply Hnot. rewrite map_map. cbn [file].
      rewrite (map_ext _ fst) by reflexivity. exact H.
    + intros Hl. rewrite length_map. now apply Hlen.
Qed.

Lemma most_modified_files_are_the_most_frequent_witness :
  getMostModifiedFiles (inr Samples.git_output) 2
  = [ {| file := lit "src/a.js"; count := 3 |};
      {| file := lit "src/b.js"; count := 1 |} ]
  /\ NoDup (map file (getMostModifiedFiles (inr Samples.git_output) 2)).
Proof.
  split; [vm_compute; reflexivity|].
  destruct (@most_modified_files_are_the_most_frequent
              (inr Samples.git_output) 2) as [_ H].
  - intros out Hout. injection Hout as <-. vm_compute.
    repeat constructor.
  - destruct (H _ eq_refl) as (_ & Hnd & _). exact Hnd.
Defined.

End GitLogProperties.

(** ** What a scan reaches *)

Section ReachProperties.

Import FileScanner Reach.

Variable path_join : jsstring -> jsstring -> jsstring.

#[local] Abbreviation scanDir := (scanDirectory path_join).
#[local] Abbreviation loop :=
  (scan_entries path_join (scanDirectory path_join)).
#[local] Abbreviation body :=
  (scan_entry path_join (scanDirectory path_join)).
#[local] Abbreviation imm_files := (immediate_files path_join).
#[local] Abbreviation imm_dirs := (immediate_directories path_join).
#[local] Abbreviation descended := (Reach.descended path_join).

Lemma within_S o k :
  within o (S k) = descends o && within (child_options o) k.
Proof.
  destruct o as [ex md cd]. unfold within, descends, child_options,
    with_currentDepth, get_currentDepth, get_maxDepth, depth_lt.
  cbn [currentDepth maxDepth]. destruct k as [|j].
  - rewrite Z.add_0_r, andb_true_r. reflexivity.
  - rewrite Nat2Z.inj_succ.
    destruct md as [[d|]|]; [|reflexivity|reflexivity].
    destruct cd as [c|];
      repeat match goal with
             | |- context [(?a <? ?b)%Z] => destruct (Z.ltb_spec a b)
             end; cbn [andb]; try reflexivity; lia.
Qed.

Lemma in_immediate_files p entries f :
  In f (imm_files p entries)
  <-> exists ename sz,
        In (ename, RegularFile (inr sz)) entries
        /\ f = mkFileEntry (path_join p ename) ename sz.
Proof.
  unfold immediate_files. rewrite in_flat_map. split.
  - intros ([ename child] & Hin & Hf). cbn [fst snd] in Hf.
    destruct child as [[e|sz]|sub|e|]; try contradiction.
    destruct Hf as [<-|[]]. eauto.
  - intros (ename & sz & Hin & ->). exists (ename, RegularFile (inr sz)).
    split; [exact Hin|left; reflexivity].
Qed.

Lemma in_immediate_directories E p entries d :
  In d (imm_dirs E p entries)
  <-> exists ename child,
        In (ename, child) entries /\ isDirectory child = true
        /\ includes E ename = false /\ d = path_join p ename.
Proof.
  unfold immediate_directories. rewrite in_flat_map. split.
  - intros ([ename child] & Hin & Hd). cbn [fst snd] in Hd.
    destruct (isDirectory child) eqn:Hc; [|contradiction].
    destruct (includes E ename) eqn:Hx; [contradiction|].
    destruct Hd as [<-|[]]. eauto 6.
  - intros (ename & child & Hin & Hc & Hx & ->). exists (ename, child).
    split; [exact Hin|]. cbn [fst snd]. rewrite Hc, Hx. now left.
Qed.

(** What one turn of the loop adds to [results]. *)
Lemma body_contents p o ename child r0 t r :
  body p o (ename, child) r0 = (t, r, inr tt) ->
  (forall f,
      In f (files r)
      <-> In f (files r0) \/ In f (imm_files p [(ename, child)])
          \/ exists sub,
               descended p o [(ename, child)] sub /\ In f (files sub))
  /\ (forall d,
        In d (directories r)
        <-> In d (directories r0)
            \/ In d (imm_dirs (get_excludeDirs o) p [(ename, child)])
            \/ exists sub,
                 descended p o [(ename, child)] sub
                 /\ In d (directories sub)).
Proof.
  intros Hb.
  assert (Hnone : isDirectory child = false \/ excluded o ename = true
                  \/ descends o = false ->
                  forall sub, ~ descended p o [(ename, child)] sub).
  { intros H sub (en & ch & t' & [Heq|[]] & Hc & Hx & Hd & _).
    injection Heq as <- <-. destruct H as [H|[H|H]]; congruence. }
  assert (Hsame : forall (A : Type) (x : A) (l extra : list A)
                         (Q : Prop),
             extra = [] -> ~ Q -> (In x l <-> In x l \/ In x extra \/ Q)).
  { intros A x l extra Q -> HQ. split; [now left|].
    intros [H|[[]|H]]; [exact H|contradiction]. }
  destruct (isDirectory child) eqn:Hc.
  - assert (Hf : imm_files p [(ename, child)] = [])
      by (destruct child; try discriminate; reflexivity).
    assert (Hi : imm_dirs (get_excludeDirs o) p [(ename, child)]
                 = if excluded o ename then [] else [path_join p ename]).
    { unfold immediate_directories, excluded. cbn [flat_map fst snd].
      rewrite Hc. cbn [andb].
      destruct (includes (get_excludeDirs o) ename); reflexivity. }
    rewrite body_directory in Hb by exact Hc. rewrite Hf, Hi.
    destruct (excluded o ename) eqn:Hx.
    { inversion Hb; subst. split; intros x; apply Hsame; try reflexivity;
        intros (sub & Hs & _); eapply Hnone; eauto. }
    destruct (descends o) eqn:Hd.
    + destruct (scanDir child (path_join p ename) (child_options o) tt)
        as [[t1 []] [e1|sub]] eqn:Hs; inversion Hb; subst.
      assert (Hsub : forall sub', descended p o [(ename, child)] sub'
                                  <-> sub' = sub).
      { intros sub'. split.
        - intros (en & ch & t' & [Heq|[]] & _ & _ & _ & Hs').
          injection Heq as <- <-. rewrite Hs in Hs'. congruence.
        - intros ->. exists ename, child, t. repeat split; auto.
          now left. }
      split; intros x; cbn [files directories merge push_directory];
        rewrite ?in_app_iff; split.
      * intros [H|H]; [now left|]. right; right. exists sub.
        split; [now apply Hsub|exact H].
      * intros [H|[[]|(sub' & Hs' & H)]]; [now left|].
        apply Hsub in Hs'. subst sub'. now right.
      * intros [[H|H]|H]; [now left|right; left; exact H|].
        right; right. exists sub. split; [now apply Hsub|exact H].
      * intros [H|[H|(sub' & Hs' & H)]];
          [left; now left|left; now right|].
        apply Hsub in Hs'. subst sub'. now right.
    + inversion Hb; subst.
      split; intros x; cbn [files directories push_directory].
      * apply Hsame; [reflexivity|].
        intros (sub & Hs & _); eapply Hnone; eauto.
      * rewrite in_app_iff. split.
        -- intros [H|H]; [now left|right; left; exact H].
        -- intros [H|[H|(sub & Hs & _)]]; [now left|now right|].
           exfalso. eapply Hnone; eauto.
  - assert (Hi : imm_dirs (get_excludeDirs o) p [(ename, child)] = []).
    { unfold immediate_directories. cbn [flat_map fst snd].
      rewrite Hc. reflexivity. }
    rewrite Hi.
    destruct child as [[e|sz]|sub|e|]; try discriminate.
    + rewrite body_file_fails in Hb. inversion Hb; subst.
      split; intros x; apply Hsame; try reflexivity;
        intros (sub & Hs & _); eapply Hnone; eauto.
    + rewrite body_file_ok in Hb. inversion Hb; subst.
      split; intros x; cbn [files directories push_file].
      * rewrite in_app_iff. split.
        -- intros [H|H]; [now left|right; left; exact H].
        -- intros [H|[H|(sub & Hs & _)]]; [now left|now right|].
           exfalso. eapply Hnone; eauto.
      * apply Hsame; [reflexivity|].
        intros (sub & Hs & _); eapply Hnone; eauto.
    + rewrite body_special in Hb. inversion Hb; subst.
      split; intros x; apply Hsame; try reflexivity;
        intros (sub & Hs & _); eapply Hnone; eauto.
Qed.

Lemma descended_cons p o en rest sub :
  descended p o (en :: rest) sub
  <-> descended p o [en] sub \/ descended p o rest sub.
Proof.
  split.
  - intros (ename & child & t & [Heq|Hin] & H).
    + left. exists ename, child, t. split; [left; exact Heq|exact H].
    + right. exists ename, child, t. split; [exact Hin|exact H].
  - intros [(ename & child & t & [Heq|[]] & H)
           |(ename & child & t & Hin & H)];
      exists ename, child, t; (split; [|exact H]);
      [left; exact Heq|right; exact Hin].
Qed.

Lemma imm_files_cons p en rest :
  imm_files p (en :: rest) = imm_files p [en] ++ imm_files p rest.
Proof.
  unfold immediate_files. cbn [flat_map]. now rewrite app_nil_r.
Qed.

Lemma imm_dirs_cons E p en rest :
  imm_dirs E p (en :: rest) = imm_dirs E p [en] ++ imm_dirs E p rest.
Proof.
  unfold immediate_directories. cbn [flat_map]. now rewrite app_nil_r.
Qed.

(** What a loop that ends adds to [results]: the files and the
    directories directly in the listing, and what the scans of the
    subdirectories returned. *)
Lemma loop_contents p o entries :
  forall r0 t r,
    loop p o entries r0 = (t, r, inr tt) ->
    (forall f,
        In f (files r)
        <-> In f (files r0) \/ In f (imm_files p entries)
            \/ exists sub, descended p o entries sub /\ In f (files sub))
    /\ (forall d,
          In d (directories r)
          <-> In d (directories r0)
              \/ In d (imm_dirs (get_excludeDirs o) p entries)
              \/ exists sub,
                   descended p o entries sub /\ In d (directories sub)).
Proof.
  induction entries as [|[ename child] rest IH]; intros r0 t r Hl.
  - rewrite loop_nil in Hl. inversion Hl; subst.
    split; intros x; (split; [now left|]);
      (intros [H|[[]|(sub & (en & ch & t' & Hin & _) & _)]];
       [exact H|destruct Hin]).
  - rewrite loop_cons in Hl.
    destruct (body p o (ename, child) r0) as [[t1 r1] [e|[]]] eqn:Hb;
      [discriminate|].
    destruct (loop p o rest r1) as [[t2 r2] x2] eqn:Hl2.
    inversion Hl; subst.
    destruct (body_contents _ _ _ _ _ Hb) as [Bf Bd].
    destruct (IH _ _ _ Hl2) as [Lf Ld].
    split; intros x.
    + rewrite Lf, Bf, (imm_files_cons p (ename, child) rest), in_app_iff.
      split.
      * intros [[H|[H|(sub & Hs & H)]]|[H|(sub & Hs & H)]].
        -- now left.
        -- right; left; now left.
        -- right; right. exists sub.
           split; [apply descended_cons; now left|exact H].
        -- right; left; now right.
        -- right; right. exists sub.
           split; [apply descended_cons; now right|exact H].
      * intros [H|[[H|H]|(sub & Hs & H)]].
        -- left; now left.
        -- left; right; now left.
        -- right; now left.
        -- apply descended_cons in Hs. destruct Hs as [Hs|Hs].
           ++ left; right; right. eauto.
           ++ right; right. eauto.
    + rewrite Ld, Bd, (imm_dirs_cons _ p (ename, child) rest), in_app_iff.
      split.
      * intros [[H|[H|(sub & Hs & H)]]|[H|(sub & Hs & H)]].
        -- now left.
        -- right; left; now left.
        -- right; right. exists sub.
           split; [apply descended_cons; now left|exact H].
        -- right; left; now right.
        -- right; right. exists sub.
           split; [apply descended_cons; now right|exact H].
      * intros [H|[[H|H]|(sub & Hs & H)]].
        -- left; now left.
        -- left; right; now left.
        -- right; now left.
        -- apply descended_cons in Hs. destruct Hs as [Hs|Hs].
           ++ left; right; right. eauto.
           ++ right; right. eauto.
Qed.

(** A loop that ends has had an answer from the scan of every
    subdirectory it descends into. *)
Lemma loop_descends p o entries :
  forall r0 t r ename child,
    loop p o entries r0 = (t, r, inr tt) ->
    In (ename, child) entries -> isDirectory child = true ->
    excluded o ename = false -> descends o = true ->
    exists sub, descended p o entries sub
                /\ descended p o [(ename, child)] sub.
Proof.
  induction entries as [|[en ch] rest IH];
    intros r0 t r ename child Hl Hin Hc Hx Hd; [destruct Hin|].
  rewrite loop_cons in Hl.
  destruct (body p o (en, ch) r0) as [[t1 r1] [e|[]]] eqn:Hb;
    [discriminate|].
  destruct (loop p o rest r1) as [[t2 r2] x2] eqn:Hl2.
  inversion Hl; subst. destruct Hin as [Heq|Hin].
  - injection Heq as -> ->.
    rewrite body_directory in Hb by exact Hc. rewrite Hx, Hd in Hb.
    destruct (scanDir child (path_join p ename) (child_options o) tt)
      as [[t3 []] [e3|sub]] eqn:Hs; [discriminate|].
    exists sub. split; exists ename, child, t3; repeat split; auto;
      now left.
  - destruct (IH _ _ _ _ _ Hl2 Hin Hc Hx Hd) as (sub & Hs & Hs1).
    exists sub. split; [|exact Hs1]. apply descended_cons. now right.
Qed.

Lemma located_cons n x rel m :
  located n (x :: rel) m ->
  exists entries child,
    n = Directory entries /\ In (x, child) entries /\ located child rel m.
Proof. intros H. inversion H; subst. eauto. Qed.

Lemma located_nil n m : located n [] m -> m = n.
Proof. intros H. inversion H; reflexivity. Qed.

Lemma located_listed n rel x m :
  located n (rel ++ [x]) m -> exists entries, n = Directory entries.
Proof.
  intros H. destruct rel; cbn [app] in H;
    apply located_cons in H; destruct H as (entries & child & -> & _);
    eauto.
Qed.

Lemma located_through n rel x m :
  located n (rel ++ [x]) m -> isDirectory n = true.
Proof.
  intros H. apply located_listed in H. destruct H as [entries ->].
  reflexivity.
Qed.

(** A scan that returns has recorded the files it reaches, and no
    other: the regular files that [stat] succeeds on, below directories
    that can be listed, that are not excluded and that lie within the
    depth [maxDepth] allows; and the directories whose path leads
    through such directories and that are not excluded themselves. *)
Theorem scan_reaches (n : fsnode) (p : jsstring) (o : ScanOptions)
  (r : ScanResult) :
  result_of (scanDir n p o) tt = inr r ->
  (forall f, In f (files r) <-> file_reached path_join o n p f)
  /\ (forall d, In d (directories r) <-> directory_reached path_join o n p d).
Proof.
  intros H. apply result_of_eq in H. destruct H as [t H].
  revert p o r t H.
  induction n as [st|entries IH|e|] using fsnode_tree_ind; intros p o r t H.
  - rewrite (scanDirectory_fails path_join (RegularFile st) p o tt eq_refl)
      in H.
    cbn in H. discriminate.
  - destruct (@scan_directory_returns path_join _ _ _ _ _ _ _ H)
      as (t1 & Hl & _).
    destruct (loop_contents _ _ _ _ Hl) as [Lf Ld].
    rewrite Forall_forall in IH.
    assert (Hsub : forall ename child rel x m,
               In (ename, child) entries ->
               located child (rel ++ [x]) m ->
               clear_of (get_excludeDirs o) (ename :: rel) ->
               within o (S (length rel)) = true ->
               exists sub t',
                 scanDir child (path_join p ename) (child_options o) tt
                 = (t', tt, inr sub)
                 /\ descended p o entries sub
                 /\ within (child_options o) (length rel) = true
                 /\ clear_of (get_excludeDirs (child_options o)) rel).
    { intros ename child rel x m Hin Hloc Hclear Hw.
      inversion Hclear as [|? ? Hx Hclear']; subst.
      rewrite within_S in Hw. apply andb_prop in Hw. destruct Hw as [Hd Hw].
      pose proof (located_through _ _ Hloc) as Hc.
      destruct (@loop_descends _ _ _ _ _ _ _ _ Hl Hin Hc Hx Hd)
        as (sub & Hs & (en & ch & t' & [Heq|[]] & _ & _ & _ & Hs1)).
      injection Heq as <- <-. exists sub, t'. auto. }
    split.
    + intros f. rewrite Lf. split.
      * intros [[]|[Him|(sub & (ename & child & t' & Hin & Hc & Hx & Hd & Hs)
                         & Hf)]].
        -- apply in_immediate_files in Him.
           destruct Him as (ename & sz & Hin & ->). exists [], sz.
           split; [|split; [|split]]; try reflexivity.
           ++ eapply located_below; [exact Hin|constructor].
           ++ constructor.
        -- destruct (IH _ Hin _ _ _ _ Hs) as [Cf _]. apply Cf in Hf.
           destruct Hf as (rel & sz & Hloc & Hclear & Hw & Hf).
           exists (ename :: rel), sz. split; [|split; [|split]].
           ++ eapply located_below; [exact Hin|exact Hloc].
           ++ constructor; [exact Hx|exact Hclear].
           ++ cbn [length]. rewrite within_S, Hd, Hw. reflexivity.
           ++ exact Hf.
      * intros (rel & sz & Hloc & Hclear & Hw & Hf).
        destruct rel as [|x rel]; cbn [app] in Hloc;
          apply located_cons in Hloc;
          destruct Hloc as (entries' & child & Heq & Hin & Hloc);
          injection Heq as <-.
        -- right; left. apply located_nil in Hloc. subst child.
           apply in_immediate_files. exists (name f), sz.
           split; [exact Hin|exact Hf].
        -- right; right.
           destruct (Hsub _ _ _ _ _ Hin Hloc Hclear Hw)
             as (sub & t' & Hs & Hdesc & Hw' & Hclear').
           exists sub. split; [exact Hdesc|].
           destruct (IH _ Hin _ _ _ _ Hs) as [Cf _]. apply Cf.
           exists rel, sz. split; [|split; [|split]]; assumption.
    + intros d. rewrite Ld. split.
      * intros [[]|[Him|(sub & (ename & child & t' & Hin & Hc & Hx & Hd & Hs)
                         & Hf)]].
        -- apply in_immediate_directories in Him.
           destruct Him as (ename & child & Hin & Hc & Hx & ->).
           exists [], ename, child.
           split; [|split; [|split; [|split]]]; try reflexivity.
           ++ eapply located_below; [exact Hin|constructor].
           ++ exact Hc.
           ++ constructor; [exact Hx|constructor].
        -- destruct (IH _ Hin _ _ _ _ Hs) as [_ Cd]. apply Cd in Hf.
           destruct Hf as (rel & en & m & Hloc & Hm & Hclear & Hw & ->).
           exists (ename :: rel), en, m.
           split; [|split; [|split; [|split]]]; try reflexivity.
           ++ eapply located_below; [exact Hin|exact Hloc].
           ++ exact Hm.
           ++ constructor; [exact Hx|exact Hclear].
           ++ cbn [length]. rewrite within_S, Hd, Hw. reflexivity.
      * intros (rel & en & m & Hloc & Hm & Hclear & Hw & ->).
        destruct rel as [|x rel]; cbn [app] in Hloc, Hclear;
          apply located_cons in Hloc;
          destruct Hloc as (entries' & child & Heq & Hin & Hloc);
          injection Heq as <-.
        -- right; left. apply located_nil in Hloc. subst child.
           apply in_immediate_directories. exists en, m.
           inversion Hclear; subst. auto.
        -- right; right.
           assert (Hclear0 : clear_of (get_excludeDirs o) (x :: rel)).
           { inversion Hclear as [|? ? Hx Hrest]; subst.
             constructor; [exact Hx|].
             unfold clear_of in *. apply Forall_app in Hrest. tauto. }
           destruct (Hsub _ _ _ _ _ Hin Hloc Hclear0 Hw)
             as (sub & t' & Hs & Hdesc & Hw' & _).
           exists sub. split; [exact Hdesc|].
           destruct (IH _ Hin _ _ _ _ Hs) as [_ Cd]. apply Cd.
           exists rel, en, m. inversion Hclear; subst.
           split; [|split; [|split; [|split]]]; auto.
  - rewrite (scanDirectory_fails path_join (UnreadableDir e) p o tt eq_refl)
      in H.
    destruct (is_permission_error e); inversion H; subst.
    split; intros x; (split; [intros []|]).
    + intros (rel & sz & Hloc & _). apply located_listed in Hloc.
      destruct Hloc as [entries Hloc]. discriminate.
    + intros (rel & en & m & Hloc & _). apply located_listed in Hloc.
      destruct Hloc as [entries Hloc]. discriminate.
  - rewrite (scanDirectory_fails path_join Special p o tt eq_refl) in H.
    cbn in H. discriminate.
Qed.

End ReachProperties.

Section ReachExamples.

Import FileScanner.

Lemma scan_reaches_witness :
  exists r,
    result_of (scanDirectory Sample.join Sample.project Sample.root
                 Samples.one_level) tt = inr r
    /\ Reach.file_reached Sample.join Samples.one_level Sample.project
         Sample.root (Sample.entry "/proj/src/README.MD" "README.MD" 7)
    /\ ~ Reach.file_reached Sample.join Samples.one_level Sample.project
           Sample.root (Sample.entry "/proj/src/lib/z.py" "z.py" 3)
    /\ Reach.directory_reached Sample.join Samples.one_level Sample.project
         Sample.root (lit "/proj/src/lib").
Proof.
  exists (match scanDirectory Sample.join Sample.project Sample.root
                  Samples.one_level tt with
          | (_, _, inr r) => r
          | _ => FileScanner.empty_result
          end).
  split; [vm_compute; reflexivity|].
  destruct (@scan_reaches Sample.join Sample.project Sample.root
              Samples.one_level _ eq_refl) as [Hf Hd].
  split; [|split].
  - apply Hf. vm_compute. auto.
  - intros H. apply Hf in H. vm_compute in H.
    repeat (destruct H as [H|H]; [discriminate|]). exact H.
  - apply Hd. vm_compute. auto.
Defined.

End ReachExamples.

(** ** [getTopLevelDirectories] and [getLargestDirectories] *)

Section ListingsProperties.

Import FileScanner Listings.

Variable path_join : jsstring -> jsstring -> jsstring.

Lemma describe_nonempty ename : describe ename <> [].
Proof.
  unfold describe. destruct (Dict.get directoryDescriptions ename)
    as [[|c d]|]; try discriminate; intros H; vm_compute in H; discriminate.
Qed.

Lemma getTopLevelDirectories_eq n p :
  getTopLevelDirectories n p tt =
  ([Readdir p], tt,
   inr match listing n with
       | inr entries =>
           map (fun entry => {| Top.name := fst entry;
                                Top.description := describe (fst entry) |})
             (filter is_top_level entries)
       | inl _ => []
       end).
Proof.
  unfold getTopLevelDirectories, try_catch, bind, readdir, emit, ret, throw.
  destruct (listing n); reflexivity.
Qed.

Lemma is_top_level_spec ename child :
  is_top_level (ename, child) = true
  <-> isDirectory child = true /\ startsWith_dot ename = false
      /\ ename <> lit "node_modules".
Proof.
  unfold is_top_level. cbn [fst snd].
  rewrite !andb_true_iff, !negb_true_iff. split.
  - intros [[H1 H2] H3]. repeat split; auto.
    intros ->. rewrite eqb_refl in H3. discriminate.
  - intros (H1 & H2 & H3). repeat split; auto.
    destruct (JS.eqb ename (lit "node_modules")) eqn:E; [|reflexivity].
    apply eqb_eq in E. contradiction.
Qed.

(** [getTopLevelDirectories] never throws, and calls [readdir] once, on
    the root.  When the listing fails, whatever the error, it answers
    the empty list.  Otherwise (no entry having the name of a property
    of [Object.prototype]) it answers the entries that are directories
    and whose name neither begins with a dot nor is [node_modules], all
    of them, each with a description that is not empty; and those of
    them that the options of a scan do not exclude are among the
    directories that a scan of the same root returns. *)
Theorem top_level_directories (n : fsnode) (p : jsstring) :
  (forall entries,
      listing n = inr entries ->
      Forall (fun en => Dict.inherited (fst en) = false) entries) ->
  exists ds,
    getTopLevelDirectories n p tt = ([Readdir p], tt, inr ds)
    /\ ((exists e, listing n = inl e) -> ds = [])
    /\ (forall d, In d ds -> Top.description d <> [])
    /\ (forall ename,
          In ename (map Top.name ds)
          <-> exists entries child,
                listing n = inr entries /\ In (ename, child) entries
                /\ isDirectory child = true /\ startsWith_dot ename = false
                /\ ename <> lit "node_modules")
    /\ (forall o r,
          result_of (scanDirectory path_join n p o) tt = inr r ->
          forall d, In d ds -> excluded o (Top.name d) = false ->
                    In (path_join p (Top.name d)) (directories r)).
Proof.
  intros _. eexists. split; [apply getTopLevelDirectories_eq|].
  split; [|split; [|split]].
  - intros [e ->]. reflexivity.
  - intros d Hd. destruct (listing n) as [e|entries]; [destruct Hd|].
    apply in_map_iff in Hd. destruct Hd as (en & <- & _).
    apply describe_nonempty.
  - intros ename. split.
    + intros H. destruct (listing n) as [e|entries]; [destruct H|].
      rewrite map_map in H. cbn [Top.name] in H. apply in_map_iff in H.
      destruct H as ([en child] & <- & H). apply filter_In in H.
      destruct H as [Hin Ht]. apply is_top_level_spec in Ht.
      exists entries, child. cbn [fst]. tauto.
    + intros (entries & child & -> & Hin & Ht).
      rewrite map_map. cbn [Top.name]. apply in_map_iff.
      exists (ename, child). split; [reflexivity|]. apply filter_In.
      split; [exact Hin|]. now apply is_top_level_spec.
  - intros o r Hr d Hd Hx. apply result_of_eq in Hr. destruct Hr as [t Hr].
    destruct n as [st|entries|e|]; try destruct Hd. cbn [listing] in Hd.
    apply in_map_iff in Hd. destruct Hd as ([ename child] & <- & Hd).
    apply filter_In in Hd. destruct Hd as [Hin Ht].
    apply is_top_level_spec in Ht. destruct Ht as (Hc & _).
    cbn [Top.name fst] in *.
    destruct (@scan_directory_returns path_join _ _ _ _ _ _ _ Hr)
      as (t1 & Hl & _).
    destruct (@loop_contents path_join _ _ _ _ _ _ Hl) as [_ Ld].
    apply Ld. right; left. apply in_immediate_directories.
    exists ename, child. auto.
Qed.

(** *** [getLargestDirectories] *)

#[local] Abbreviation measure_entries := (Listings.measure_entries path_join).
#[local] Abbreviation measured_by := (Listings.measured_by path_join).

Lemma getLargestDirectories_eq n p limit :
  getLargestDirectories path_join n p limit tt =
  match listing n with
  | inl _ => ([Readdir p], tt, inr [])
  | inr entries =>
      match measure_entries p entries [] with
      | (t, ds, inr _) =>
          (Readdir p :: t, tt,
           inr (JSArray.slice0 (JSArray.sort by_fileCount_desc ds) limit))
      | (t, _, inl _) => (Readdir p :: t, tt, inr [])
      end
  end.
Proof.
  cbv beta iota delta [getLargestDirectories try_catch call bind readdir
                         emit ret throw].
  destruct (listing n) as [e|entries]; [reflexivity|]. cbn [app].
  destruct (measure_entries p entries []) as [[t ds] [e|[]]]; cbn [app];
    rewrite ?app_nil_r; reflexivity.
Qed.

Lemma measure_entries_cons p en rest ds0 :
  measure_entries p (en :: rest) ds0 =
  if is_measured en then
    match scanDirectory path_join (snd en) (path_join p (fst en)) unlimited tt
    with
    | (t, _, inr results) =>
        match measure_entries p rest (ds0 ++ [measure (fst en) results]) with
        | (t', ds, x) => (t ++ t', ds, x)
        end
    | (t, _, inl e) => (t, ds0, inl e)
    end
  else measure_entries p rest ds0.
Proof.
  cbn [Listings.measure_entries]. unfold bind, call, modify, ret.
  destruct (is_measured en).
  - destruct (scanDirectory _ _ _ _ _) as [[t u] [e|results]]; cbn;
      [reflexivity|].
    destruct (Listings.measure_entries _ _ _ _) as [[t' ds] x].
    rewrite app_nil_r. reflexivity.
  - destruct (Listings.measure_entries _ _ _ _) as [[t' ds] x]. reflexivity.
Qed.

(** A loop that ends has measured every directory it had to, in
    order. *)
Lemma measure_entries_returns p entries :
  forall ds0 t ds,
    measure_entries p entries ds0 = (t, ds, inr tt) ->
    exists added,
      ds = ds0 ++ added
      /\ Forall2 (measured_by p) (filter is_measured entries) added.
Proof.
  induction entries as [|en rest IH]; intros ds0 t ds H.
  - inversion H; subst. exists []. rewrite app_nil_r. split; constructor.
  - rewrite measure_entries_cons in H. cbn [filter].
    destruct (is_measured en); [|now apply IH in H].
    destruct (scanDirectory _ _ _ _ _) as [[t1 []] [e|results]] eqn:Hs;
      [discriminate|].
    destruct (measure_entries p rest _) as [[t' ds'] x] eqn:Hm.
    inversion H; subst. apply IH in Hm. destruct Hm as (added & -> & Hall).
    exists (measure (fst en) results :: added). rewrite <- app_assoc.
    split; [reflexivity|]. constructor; [|exact Hall].
    exists t1, results. auto.
Qed.

(** A loop that throws does so with the exception of a scan. *)
Lemma measure_entries_throws p entries :
  forall ds0 t ds e,
    measure_entries p entries ds0 = (t, ds, inl e) ->
    exists en,
      In en (filter is_measured entries)
      /\ result_of
           (scanDirectory path_join (snd en) (path_join p (fst en)) unlimited)
           tt = inl e.
Proof.
  induction entries as [|en rest IH]; intros ds0 t ds e H.
  - inversion H.
  - rewrite measure_entries_cons in H. cbn [filter].
    destruct (is_measured en) eqn:Hen.
    + unfold result_of.
      destruct (scanDirectory _ _ _ _ _) as [[t1 u] [e1|results]] eqn:Hs.
      * inversion H; subst. exists en. split; [now left|].
        rewrite Hs. reflexivity.
      * destruct (measure_entries p rest _) as [[t' ds'] x] eqn:Hm.
        inversion H; subst. apply IH in Hm. destruct Hm as (en' & Hin & He).
        exists en'. split; [now right|exact He].
    + apply IH in H. exact H.
Qed.

Lemma measured_in p (ens : list (jsstring * fsnode)) all d :
  Forall2 (measured_by p) ens all -> In d all ->
  exists en, In en ens /\ measured_by p en d.
Proof.
  induction 1 as [|en d' ens all Hm Hall IH]; intros Hin; [destruct Hin|].
  destruct Hin as [<-|Hin].
  - exists en. split; [now left|exact Hm].
  - destruct (IH Hin) as (en' & Hin' & Hm'). exists en'.
    split; [now right|exact Hm'].
Qed.

Lemma by_fileCount_desc_key (a b : DirSize.t) :
  by_fileCount_desc a b
  = (Z.of_nat (DirSize.fileCount b) - Z.of_nat (DirSize.fileCount a))%Z.
Proof. reflexivity. Qed.


End ListingsProperties.

Section ListingsExamples.

Import FileScanner Listings.

Lemma top_level_directories_witness :
  exists ds,
    getTopLevelDirectories Sample.project Sample.root tt
    = ([Readdir Sample.root], tt, inr ds)
    /\ ds = [ {| Top.name := lit "src";
                 Top.description := lit "Source code" |} ]
    /\ (forall d, In d ds -> Top.description d <> []).
Proof.
  destruct (@top_level_directories Sample.join Sample.project Sample.root)
    as (ds & Heq & _ & Hdesc & _).
  - intros entries H. injection H as <-. vm_compute. repeat constructor.
  - exists ds. split; [exact Heq|]. split; [|exact Hdesc].
    rewrite getTopLevelDirectories_eq in Heq. injection Heq as <-.
    vm_compute. reflexivity.
Defined.

(** The directories of the sample project, with their files. *)
Example sample_directory_sizes :
  result_of (getLargestDirectories Sample.join Sample.project Sample.root 5)
    tt
  = inr [ {| DirSize.name := lit "src"; DirSize.fileCount := 3;
             DirSize.size := 14 |} ].
Proof. vm_compute. reflexivity. Qed.

End ListingsExamples.

(** ** The result of [scanForTodos], file by file *)

Section TagsProperties.

Import TodoScanner Tags.

Variable toLowerCase : jsstring -> jsstring.
Variable disk : jsstring -> error + jsstring.

#[local] Abbreviation scanTodos := (scanForTodos toLowerCase disk).
#[local] Abbreviation file_effect := (TodoScanner.file_effect toLowerCase disk).
#[local] Abbreviation found := (Tags.found toLowerCase disk).
#[local] Abbreviation tags k :=
  (fun d => tagged (File.name d) (file_comments k d)).

Lemma record_hasComments k fname ms :
  forall st,
    hasComments (fold_left (record_match k fname) ms st)
    = match ms with [] => hasComments st | _ :: _ => true end.
Proof.
  induction ms as [|m ms IH]; intros st; [reflexivity|].
  cbn [fold_left]. rewrite IH. destruct ms; reflexivity.
Qed.

Lemma File_eq (a b : File.t) :
  File.path a = File.path b -> File.name a = File.name b ->
  (forall k, file_comments k a = file_comments k b) -> a = b.
Proof.
  destruct a, b. cbn. intros -> -> H.
  pose proof (H TODO) as H1. pose proof (H FIXME) as H2.
  pose proof (H HACK) as H3. cbn in H1, H2, H3. now subst.
Qed.

(** What the statements after [readFile] leave in [fileDetails]. *)
Lemma scan_content_details f content r :
  fileDetails (scan_content f content r)
  = fileDetails r ++ (if silent content then [] else [details_of f content]).
Proof.
  unfold scan_content.
  set (st0 := {| results := r; fileResults := _; hasComments := false |}).
  set (st1 := scan_kind TODO _ content st0).
  set (st2 := scan_kind FIXME _ content st1).
  set (st3 := scan_kind HACK _ content st2).
  assert (HF : forall k, file_comments k (fileResults st3)
                         = comments_in k content
                         /\ File.path (fileResults st3) = FileScanner.path f
                         /\ File.name (fileResults st3) = FileScanner.name f).
  { intros k.
    destruct (record_matches TODO k (FileScanner.name f)
                (RegExp.matchAll (patterns TODO) content) st0)
      as (_ & B1 & P1 & N1).
    destruct (record_matches FIXME k (FileScanner.name f)
                (RegExp.matchAll (patterns FIXME) content) st1)
      as (_ & B2 & P2 & N2).
    destruct (record_matches HACK k (FileScanner.name f)
                (RegExp.matchAll (patterns HACK) content) st2)
      as (_ & B3 & P3 & N3).
    fold (scan_kind TODO (FileScanner.name f) content st0) in B1, P1, N1.
    fold st1 in B1, P1, N1.
    fold (scan_kind FIXME (FileScanner.name f) content st1) in B2, P2, N2.
    fold st2 in B2, P2, N2.
    fold (scan_kind HACK (FileScanner.name f) content st2) in B3, P3, N3.
    fold st3 in B3, P3, N3.
    split; [|split].
    - rewrite B3, B2, B1. unfold comments_in.
      destruct k; cbn; rewrite ?app_nil_r; reflexivity.
    - rewrite P3, P2, P1. reflexivity.
    - rewrite N3, N2, N1. reflexivity. }
  assert (HD : fileDetails (results st3) = fileDetails r).
  { destruct (scan_kind_locals TODO (FileScanner.name f) content st0)
      as (_ & D1 & _).
    destruct (scan_kind_locals FIXME (FileScanner.name f) content st1)
      as (_ & D2 & _).
    destruct (scan_kind_locals HACK (FileScanner.name f) content st2)
      as (_ & D3 & _).
    fold st1 in D1, D2. fold st2 in D2, D3. fold st3 in D3.
    rewrite D3, D2, D1. reflexivity. }
  assert (HH : hasComments st3 = negb (silent content)).
  { unfold st3, st2, st1, scan_kind. rewrite !record_hasComments.
    unfold silent, comments_in.
    destruct (RegExp.matchAll (patterns TODO) content),
      (RegExp.matchAll (patterns FIXME) content),
      (RegExp.matchAll (patterns HACK) content); reflexivity. }
  rewrite HH. destruct (silent content); cbn [negb].
  - rewrite HD, app_nil_r. reflexivity.
  - cbn [fileDetails push_details]. rewrite HD. f_equal. f_equal.
    apply File_eq.
    + apply (HF TODO).
    + apply (HF TODO).
    + intros k. destruct (HF k) as (-> & _). destruct k; reflexivity.
Qed.

Lemma silent_comments content k :
  silent content = true -> comments_in k content = [].
Proof.
  unfold silent.
  destruct (comments_in TODO content) eqn:E1,
    (comments_in FIXME content) eqn:E2,
    (comments_in HACK content) eqn:E3; try discriminate.
  intros _. destruct k; assumption.
Qed.

Lemma file_effect_shape f r :
  fileDetails (file_effect f r) = fileDetails r ++ found f
  /\ forall k,
       kind_matches k (file_effect f r)
       = kind_matches k r ++ flat_map (tags k) (found f).
Proof.
  unfold TodoScanner.file_effect, Tags.found.
  destruct (is_code_file toLowerCase f);
    [|split; [|intros k]; cbn [flat_map]; now rewrite app_nil_r].
  destruct (disk _) as [e|content];
    [split; [|intros k]; cbn [flat_map]; now rewrite app_nil_r|].
  split; [apply scan_content_details|]. intros k.
  destruct (scan_content_matches f content r k) as [HK _]. cbn zeta in HK.
  rewrite HK. f_equal.
  transitivity (tagged (FileScanner.name f) (comments_in k content)).
  { unfold tagged, comments_in. now rewrite map_map. }
  destruct (silent content) eqn:Hs.
  - rewrite (@silent_comments content k Hs). reflexivity.
  - cbn [flat_map]. rewrite app_nil_r. destruct k; reflexivity.
Qed.

Lemma fold_effect_shape files :
  forall r,
    fileDetails (fold_left (fun r f => file_effect f r) files r)
    = fileDetails r ++ flat_map found files
    /\ forall k,
         kind_matches k (fold_left (fun r f => file_effect f r) files r)
         = kind_matches k r ++ flat_map (tags k) (flat_map found files).
Proof.
  induction files as [|f files IH]; intros r; cbn [fold_left flat_map].
  - split; [|intros k]; now rewrite app_nil_r.
  - destruct (IH (file_effect f r)) as [H1 H2].
    destruct (file_effect_shape f r) as [E1 E2]. split.
    + rewrite H1, E1, app_assoc. reflexivity.
    + intros k. rewrite H2, E2, flat_map_app, app_assoc. reflexivity.
Qed.

Lemma kind_matches_set_totalCount k r :
  kind_matches k (set_totalCount r) = kind_matches k r.
Proof. destruct k; reflexivity. Qed.

Lemma totalCount_kinds r :
  totalCount (set_totalCount r)
  = length (kind_matches TODO r) + length (kind_matches FIXME r)
    + length (kind_matches HACK r).
Proof. reflexivity. Qed.

(** [fileDetails] holds, in the order of [files], the [fileResults] of
    the code files that can be read and in which a pattern matches, each
    with all the comments of its content; and [todos], [fixmes] and
    [hacks] are the comments of these entries, in the same order, each
    under the name of its file. *)
Theorem tag_lists_agree_with_file_details
  (files : list FileScanner.FileEntry) :
  exists r,
    result_of (scanTodos files) tt = inr r
    /\ fileDetails r = flat_map found files
    /\ (forall k, kind_matches k r = flat_map (tags k) (fileDetails r)).
Proof.
  eexists. unfold result_of. rewrite scanForTodos_eq. cbn [snd].
  split; [reflexivity|].
  destruct (fold_effect_shape files empty_results) as [H1 H2].
  split; [exact H1|]. intros k.
  rewrite kind_matches_set_totalCount. cbn [fileDetails set_totalCount].
  rewrite H1, H2. destruct k; reflexivity.
Qed.

(** Scanning two lists of files one after the other in one call gives
    what the two scans give, put together: the lists are appended and
    the counts added. *)
Theorem scan_of_concatenation (files1 files2 : list FileScanner.FileEntry) :
  exists r1 r2 r,
    result_of (scanTodos files1) tt = inr r1
    /\ result_of (scanTodos files2) tt = inr r2
    /\ result_of (scanTodos (files1 ++ files2)) tt = inr r
    /\ (forall k, kind_matches k r = kind_matches k r1 ++ kind_matches k r2)
    /\ fileDetails r = fileDetails r1 ++ fileDetails r2
    /\ totalCount r = totalCount r1 + totalCount r2
    /\ fileCount r = fileCount r1 + fileCount r2.
Proof.
  do 3 eexists. unfold result_of. rewrite !scanForTodos_eq. cbn [snd].
  do 3 (split; [reflexivity|]).
  destruct (fold_effect_shape files1 empty_results) as [D1 K1].
  destruct (fold_effect_shape files2 empty_results) as [D2 K2].
  destruct (fold_effect_shape (files1 ++ files2) empty_results) as [D K].
  assert (HK : forall k,
             kind_matches k
               (fold_left (fun r f => file_effect f r) (files1 ++ files2)
                  empty_results)
             = kind_matches k
                 (fold_left (fun r f => file_effect f r) files1 empty_results)
               ++ kind_matches k
                    (fold_left (fun r f => file_effect f r) files2
                       empty_results)).
  { intros k. rewrite K, K1, K2, !flat_map_app.
    destruct k; reflexivity. }
  split; [intros k; rewrite !kind_matches_set_totalCount; apply HK|].
  split.
  { cbn [fileDetails set_totalCount]. rewrite D, D1, D2, flat_map_app.
    reflexivity. }
  split.
  { rewrite !totalCount_kinds, !HK, !length_app. lia. }
  cbn [fileCount set_totalCount].
  destruct (fold_effect_ok toLowerCase disk files1 (r := empty_results))
    as [C1 _]; [split; [reflexivity|constructor]|].
  destruct (fold_effect_ok toLowerCase disk files2 (r := empty_results))
    as [C2 _]; [split; [reflexivity|constructor]|].
  destruct (fold_effect_ok toLowerCase disk (files1 ++ files2)
              (r := empty_results))
    as [C _]; [split; [reflexivity|constructor]|].
  rewrite C, C1, C2, D, D1, D2, flat_map_app, !length_app. reflexivity.
Qed.

Lemma details_counted ds :
  Forall has_comments ds ->
  length ds
  <= length (flat_map (tags TODO) ds) + length (flat_map (tags FIXME) ds)
     + length (flat_map (tags HACK) ds).
Proof.
  induction 1 as [|d ds Hd _ IH]; [reflexivity|].
  cbn [flat_map length]. rewrite !length_app. unfold tagged at 1 3 5.
  rewrite !length_map. cbn [file_comments] in IH |- *.
  assert (1 <= length (File.todos d) + length (File.fixmes d)
               + length (File.hacks d)).
  { destruct Hd as [H|[H|H]];
      [destruct (File.todos d)|destruct (File.fixmes d)
      |destruct (File.hacks d)]; try contradiction; cbn [length]; lia. }
  lia.
Qed.

Lemma found_bound files :
  length (flat_map found files)
  <= length (filter (fun f => is_code_file toLowerCase f && readable disk f)
               files).
Proof.
  induction files as [|f files IH]; [reflexivity|].
  cbn [flat_map filter]. rewrite length_app.
  unfold Tags.found at 1, readable at 1.
  destruct (is_code_file toLowerCase f); cbn [andb length]; [|exact IH].
  destruct (disk _) as [e|content]; cbn [length]; [exact IH|].
  destruct (silent content); cbn [length]; lia.
Qed.

(** The summary of a scan: [total] is the sum of the three counts; the
    files with comments are no more than the comments, and no more than
    the code files that could be read; and there is a file with comments
    exactly when there is a comment. *)
Theorem summary_of_a_scan (files : list FileScanner.FileEntry) :
  exists r,
    result_of (scanTodos files) tt = inr r
    /\ TodoSummary.total (TodoSummary.formatTodoSummary r)
       = TodoSummary.todos (TodoSummary.formatTodoSummary r)
         + TodoSummary.fixmes (TodoSummary.formatTodoSummary r)
         + TodoSummary.hacks (TodoSummary.formatTodoSummary r)
    /\ TodoSummary.filesWithComments (TodoSummary.formatTodoSummary r)
       <= TodoSummary.total (TodoSummary.formatTodoSummary r)
    /\ TodoSummary.filesWithComments (TodoSummary.formatTodoSummary r)
       <= length
            (filter (fun f => is_code_file toLowerCase f && readable disk f)
               files)
    /\ (TodoSummary.filesWithComments (TodoSummary.formatTodoSummary r) = 0
        <-> TodoSummary.total (TodoSummary.formatTodoSummary r) = 0).
Proof.
  eexists. unfold result_of. rewrite scanForTodos_eq. cbn [snd].
  split; [reflexivity|].
  set (r := fold_left (fun r f => file_effect f r) files empty_results).
  destruct (fold_effect_shape files empty_results) as [HD HK].
  fold r in HD, HK. cbn [app fileDetails empty_results] in HD.
  destruct (fold_effect_ok toLowerCase disk files (r := empty_results))
    as [HC HF]; [split; [reflexivity|constructor]|].
  fold r in HC, HF.
  unfold TodoSummary.formatTodoSummary.
  cbn [TodoSummary.total TodoSummary.todos TodoSummary.fixmes
       TodoSummary.hacks TodoSummary.filesWithComments set_totalCount
       totalCount todos fixmes hacks fileCount].
  pose proof (details_counted HF) as Hle.
  pose proof (HK TODO) as HT. pose proof (HK FIXME) as HX.
  pose proof (HK HACK) as HH.
  cbn [kind_matches empty_results todos fixmes hacks app] in HT, HX, HH.
  rewrite <- HD in HT, HX, HH. rewrite <- HT, <- HX, <- HH in Hle.
  split; [reflexivity|]. split; [lia|]. split.
  - rewrite HC, HD. apply found_bound.
  - split; [|lia]. intros H0. rewrite HC in H0.
    destruct (fileDetails r); [|discriminate].
    cbn [flat_map] in HT, HX, HH. rewrite HT, HX, HH. reflexivity.
Qed.

End TagsProperties.

(** ** [getFilesWithMostTodos], whatever the names *)

Section MostTodosProperties.

Import TodoScanner.

#[local] Abbreviation counting :=
  (fun (fileCounts : JSObject.t Count.t) f =>
     JSObject.set fileCounts (File.name f) (count_of f)).

#[local] Abbreviation named :=
  (fun kv : jsstring * Count.t => Count.name (snd kv) = fst kv).

Lemma counting_keys details :
  forall o, NoDup (map fst o) ->
            NoDup (map fst (fold_left counting details o)).
Proof.
  induction details as [|d details IH]; intros o Ho; [exact Ho|].
  cbn [fold_left]. apply IH. now apply set_keys_NoDup.
Qed.

Lemma set_Forall {V} (P : jsstring * V -> Prop) (o : JSObject.t V) k v :
  Forall P o -> (forall k', k = k' -> P (k', v)) ->
  Forall P (JSObject.set o k v).
Proof.
  intros Ho Hk. induction Ho as [|[k' v'] o Hkv Ho IH]; cbn [JSObject.set].
  - constructor; [now apply Hk|constructor].
  - destruct (JS.eqb k k') eqn:E.
    + apply eqb_eq in E. constructor; [now apply Hk|exact Ho].
    + constructor; [exact Hkv|exact IH].
Qed.

Lemma counting_named details :
  forall o, Forall named o -> Forall named (fold_left counting details o).
Proof.
  induction details as [|d details IH]; intros o Ho; [exact Ho|].
  cbn [fold_left]. apply IH. apply set_Forall; [exact Ho|].
  intros k' <-. reflexivity.
Qed.

Lemma counting_other details k :
  forall o, ~ In k (map File.name details) ->
            Dict.get (fold_left counting details o) k = Dict.get o k.
Proof.
  induction details as [|d details IH]; intros o Hk; [reflexivity|].
  cbn [fold_left]. rewrite IH, get_set.
  - destruct (JS.eqb k (File.name d)) eqn:E; [|reflexivity].
    apply eqb_eq in E. exfalso. apply Hk. left. now symmetry.
  - intros H. apply Hk. now right.
Qed.

(** The entry under a name is the count of the last file of that
    name. *)
Lemma counting_last before d after o :
  ~ In (File.name d) (map File.name after) ->
  Dict.get (fold_left counting (before ++ d :: after) o) (File.name d)
  = Some (count_of d).
Proof.
  intros Hk. rewrite fold_left_app. cbn [fold_left].
  rewrite counting_other by exact Hk. rewrite get_set, eqb_refl.
  reflexivity.
Qed.

Lemma counting_names details :
  forall o k, In k (map fst (fold_left counting details o)) ->
              In k (map fst o) \/ In k (map File.name details).
Proof.
  induction details as [|d details IH]; intros o k Hk; [now left|].
  cbn [fold_left] in Hk. apply IH in Hk. destruct Hk as [Hk|Hk].
  - rewrite set_keys in Hk.
    destruct (Dict.get o (File.name d)); [now left|].
    apply in_app_or in Hk. destruct Hk as [Hk|[<-|[]]]; [now left|].
    right. now left.
  - right. now right.
Qed.

Lemma counting_length details :
  forall o, length (fold_left counting details o)
            <= length o + length details.
Proof.
  induction details as [|d details IH]; intros o; cbn [fold_left length];
    [lia|].
  specialize (IH (JSObject.set o (File.name d) (count_of d))).
  assert (H : length (JSObject.set o (File.name d) (count_of d))
              <= S (length o)).
  { pose proof (f_equal (@length _) (set_keys o (File.name d) (count_of d)))
      as Hlen.
    rewrite !length_map in Hlen. rewrite Hlen.
    destruct (Dict.get o (File.name d));
      rewrite ?length_app, !length_map; cbn [length]; lia. }
  lia.
Qed.

Lemma last_occurrence details k :
  In k (map File.name details) ->
  exists before d after,
    details = before ++ d :: after /\ File.name d = k
    /\ ~ In k (map File.name after).
Proof.
  induction details as [|d details IH]; intros Hk; [destruct Hk|].
  destruct (in_dec (list_eq_dec N.eq_dec) k (map File.name details))
    as [Hin|Hout].
  - destruct (IH Hin) as (before & d' & after & -> & Hd & Hafter).
    exists (d :: before), d', after. auto.
  - destruct Hk as [Hk|Hk]; [|contradiction].
    exists [], d, details. auto.
Qed.

Lemma by_count_desc_key (a b : Count.t) :
  by_count_desc a b
  = (Z.of_nat (Count.count b) - Z.of_nat (Count.count a))%Z.
Proof. reflexivity. Qed.

(** [getFilesWithMostTodos], no file being named [__proto__]: the
    entries returned have pairwise distinct names and are in descending
    order of [count]; each is the count of the last file of its name in
    [fileDetails], its [count] the sum of its three counts; no last file
    of a name that is left out has more comments than an entry returned;
    a non-negative [limit] bounds their number; and no name is left out
    when [limit] is at least the number of the files. *)
Theorem files_with_most_todos (r : Results) (limit : Z) :
  Forall (fun d => File.name d <> lit "__proto__") (fileDetails r) ->
  NoDup (map Count.name (getFilesWithMostTodos r limit))
  /\ StronglySorted (fun a b => Count.count b <= Count.count a)
       (getFilesWithMostTodos r limit)
  /\ (forall c,
        In c (getFilesWithMostTodos r limit) ->
        Count.count c = Count.todos c + Count.fixmes c + Count.hacks c
        /\ exists before d after,
             fileDetails r = before ++ d :: after
             /\ ~ In (File.name d) (map File.name after)
             /\ c = count_of d)
  /\ (forall before d after c,
        fileDetails r = before ++ d :: after ->
        ~ In (File.name d) (map File.name after) ->
        ~ In (File.name d) (map Count.name (getFilesWithMostTodos r limit)) ->
        In c (getFilesWithMostTodos r limit) ->
        Count.count (count_of d) <= Count.count c)
  /\ ((0 <= limit)%Z ->
      length (getFilesWithMostTodos r limit) <= Z.to_nat limit)
  /\ ((Z.of_nat (length (fileDetails r)) <= limit)%Z ->
      forall d, In d (fileDetails r) ->
                In (File.name d)
                  (map Count.name (getFilesWithMostTodos r limit))).
Proof.
  intros _. unfold getFilesWithMostTodos, count_files.
  set (details := fileDetails r).
  set (o := fold_left counting details []).
  assert (Hkeys : NoDup (map fst o)) by (apply counting_keys; constructor).
  assert (Hnamed : Forall named o) by (apply counting_named; constructor).
  assert (Hnames : map Count.name (map snd o) = map fst o).
  { rewrite map_map. apply map_ext_in. intros kv Hkv.
    rewrite Forall_forall in Hnamed. now apply Hnamed. }
  destruct (top_of_sort by_count_desc (fun c => Z.of_nat (Count.count c))
              by_count_desc_key (JSObject.values o) limit)
    as (rest & Hperm & Hsorted & Htop & Hall).
  set (top := JSArray.slice0
                (JSArray.sort by_count_desc (JSObject.values o)) limit) in *.
  assert (Hsplit : Permutation (map snd o) (top ++ rest)).
  { rewrite <- Hperm. symmetry. apply values_perm. }
  assert (Hlast : forall before d after,
             details = before ++ d :: after ->
             ~ In (File.name d) (map File.name after) ->
             In (count_of d) (map snd o)).
  { intros before d after Heq Hafter.
    pose proof (@counting_last before d after [] Hafter) as Hg.
    rewrite <- Heq in Hg. apply in_get in Hg.
    apply in_map_iff. exists (File.name d, count_of d). auto. }
  assert (Hvalue : forall c, In c (map snd o) ->
             exists before d after,
               details = before ++ d :: after
               /\ ~ In (File.name d) (map File.name after)
               /\ c = count_of d).
  { intros c Hc. apply in_map_iff in Hc. destruct Hc as ([k v] & <- & Hkv).
    cbn [snd].
    assert (Hk : In k (map File.name details)).
    { destruct (counting_names details [] k) as [[]|Hk]; [|exact Hk].
      change k with (fst (k, v)). now apply in_map. }
    destruct (last_occurrence _ _ Hk) as (before & d & after & Heq & <- & Ha).
    exists before, d, after. split; [exact Heq|]. split; [exact Ha|].
    pose proof (@counting_last before d after [] Ha) as Hg.
    rewrite <- Heq in Hg.
    fold o in Hg. rewrite (@get_in _ _ _ _ Hkeys Hkv) in Hg. congruence. }
  split; [|split; [|split; [|split; [|split]]]].
  - apply (@prefix_NoDup _ _ (map Count.name rest)). rewrite <- map_app.
    apply (Permutation_NoDup (l := map fst o)); [|exact Hkeys].
    rewrite <- Hnames. now apply Permutation_map.
  - eapply StronglySorted_weaken; [|exact Hsorted]. cbv beta.
    intros a b H. lia.
  - intros c Hc.
    assert (Hin : In c (map snd o)).
    { apply (Permutation_in _ (Permutation_sym Hsplit)).
      apply in_or_app. now left. }
    destruct (Hvalue c Hin) as (before & d & after & Heq & Ha & ->).
    split; [reflexivity|]. exists before, d, after. auto.
  - intros before d after c Heq Ha Hout Hc.
    pose proof (Hlast _ _ _ Heq Ha) as Hin.
    apply (Permutation_in _ Hsplit) in Hin. apply in_app_or in Hin.
    destruct Hin as [Hin|Hin].
    + exfalso. apply Hout.
      change (File.name d) with (Count.name (count_of d)). now apply in_map.
    + specialize (Htop _ _ Hc Hin). lia.
  - intros Hl. now apply slice0_length.
  - intros Hl d Hd.
    assert (Hlen : length (JSObject.values o) <= length details).
    { rewrite (Permutation_length (values_perm o)), length_map.
      apply (counting_length details []). }
    rewrite Hall in Hsplit by lia. rewrite app_nil_r in Hsplit.
    assert (Hk : In (File.name d) (map File.name details))
      by now apply in_map.
    destruct (last_occurrence _ _ Hk) as (before & d' & after & Heq & <- & Ha).
    change (File.name d') with (Count.name (count_of d')).
    apply in_map. apply (Permutation_in _ Hsplit).
    eapply Hlast; eauto.
Qed.

Lemma files_with_most_todos_witness :
  map (fun c => (Count.path c, Count.count c))
    (getFilesWithMostTodos Samples.tags_of_same_names default_limit)
  = [ (lit "/proj/c.js", 2); (lit "/proj/b/index.js", 1) ]
  /\ NoDup
       (map Count.name
          (getFilesWithMostTodos Samples.tags_of_same_names default_limit)).
Proof.
  split; [vm_compute; reflexivity|].
  destruct (@files_with_most_todos Samples.tags_of_same_names default_limit)
    as (H & _).
  - vm_compute. repeat constructor; discriminate.
  - exact H.
Defined.

End MostTodosProperties.

(** ** The comments are trimmed *)

Section TrimProperties.

Import TodoScanner Tags.

Lemma trimStart_head s :
  match trimStart s with
  | c :: _ => is_space c = false
  | [] => True
  end.
Proof.
  induction s as [|c s IH]; cbn [trimStart]; [exact I|].
  destruct (is_space c) eqn:E; [exact IH|exact E].
Qed.

Lemma trimStart_suffix s : exists pre, s = pre ++ trimStart s.
Proof.
  induction s as [|c s [pre IH]]; cbn [trimStart]; [now exists []|].
  destruct (is_space c).
  - exists (c :: pre). cbn [app]. now rewrite <- IH.
  - now exists [].
Qed.

Lemma trim_trimmed s : trimmed (trim s) = true.
Proof.
  unfold trim, trimEnd. set (x := trimStart s).
  destruct (rev (trimStart (rev x))) as [|c rest] eqn:E; [reflexivity|].
  cbn [trimmed]. apply andb_true_intro. split; apply negb_true_iff.
  - destruct (trimStart_suffix (rev x)) as [pre Hpre].
    apply (f_equal (@rev _)) in Hpre.
    rewrite rev_involutive, rev_app_distr, E in Hpre. cbn [app] in Hpre.
    pose proof (trimStart_head s) as Hh. fold x in Hh. rewrite Hpre in Hh.
    exact Hh.
  - pose proof (trimStart_head (rev x)) as Hh.
    apply (f_equal (@rev _)) in E. rewrite rev_involutive in E.
    rewrite E in Hh. cbn [rev] in Hh.
    destruct (rev rest ++ [c]) as [|h t] eqn:Ey.
    { destruct (rev rest); discriminate. }
    apply (f_equal (@rev _)) in Ey.
    rewrite rev_app_distr, rev_involutive in Ey. cbn [rev app] in Ey.
    rewrite Ey. rewrite last_last. exact Hh.
Qed.

Lemma comment_of_trimmed m : trimmed (comment_of m) = true.
Proof.
  unfold comment_of. destruct (or_else _ _); [apply trim_trimmed|reflexivity].
Qed.

Variable toLowerCase : jsstring -> jsstring.
Variable disk : jsstring -> error + jsstring.

Lemma found_trimmed f d k c :
  In d (found toLowerCase disk f) -> In c (file_comments k d) ->
  trimmed c = true.
Proof.
  unfold found. destruct (is_code_file toLowerCase f); [|intros []].
  destruct (disk _) as [e|content]; [intros []|].
  destruct (silent content); [intros []|]. intros [<-|[]] Hc.
  assert (Hin : In c (comments_in k content)) by (destruct k; exact Hc).
  unfold comments_in in Hin. apply in_map_iff in Hin.
  destruct Hin as (m & <- & _). apply comment_of_trimmed.
Qed.

(** No comment that [scanForTodos] records begins or ends with white
    space, in [todos], [fixmes] and [hacks] as in [fileDetails]. *)
Theorem comments_are_trimmed (files : list FileScanner.FileEntry) :
  exists r,
    result_of (scanForTodos toLowerCase disk files) tt = inr r
    /\ (forall k m, In m (kind_matches k r) -> trimmed (comment m) = true)
    /\ (forall d k c, In d (fileDetails r) -> In c (file_comments k d) ->
                      trimmed c = true).
Proof.
  eexists. unfold result_of. rewrite scanForTodos_eq. cbn [snd].
  split; [reflexivity|].
  destruct (fold_effect_shape toLowerCase disk files empty_results)
    as [HD HK].
  cbn [app fileDetails empty_results] in HD.
  assert (Hd : forall d k c,
             In d (flat_map (found toLowerCase disk) files) ->
             In c (file_comments k d) -> trimmed c = true).
  { intros d k c Hin Hc. apply in_flat_map in Hin.
    destruct Hin as (f & _ & Hf). eapply found_trimmed; eauto. }
  split.
  - intros k m Hm. rewrite kind_matches_set_totalCount, HK in Hm.
    assert (Hm' : In m (flat_map
                          (fun d => tagged (File.name d) (file_comments k d))
                          (flat_map (found toLowerCase disk) files)))
      by (destruct k; exact Hm).
    apply in_flat_map in Hm'. destruct Hm' as (d & Hin & Hm').
    unfold tagged in Hm'. apply in_map_iff in Hm'.
    destruct Hm' as (c & <- & Hc). cbn [comment]. eapply Hd; eauto.
  - intros d k c Hin Hc. cbn [fileDetails set_totalCount] in Hin.
    rewrite HD in Hin. eapply Hd; eauto.
Qed.

End TrimProperties.
